(** * reg_to_svd: header-to-device-tree conversion

    A shallow embedding of [tools/reg_to_svd.py] (the direction C header ->
    CMSIS-SVD device tree) and the properties of its three stages:
    [parse_header_lines], [group_registers_by_peripheral] and
    [build_device_tree].

    Conventions of the embedding.
    - A Python [str] is a [string]; a character is a code point below 256.
    - A Python [dict] is an association list in insertion order with unique
      keys ([Dict.set] updates in place or appends), because the code iterates
      over its dictionaries and the order of iteration is the order of
      insertion.
    - A Python [int] is a [Z].
    - An exception is a value of [exn]; the functions that can raise return a
      [result].
    - What the program prints to [sys.stderr] is returned as a list of lines. *)

From Stdlib Require Import String Ascii List ZArith Lia Bool Arith Sorted
  Permutation.
Import ListNotations.

Local Open Scope list_scope.
Local Open Scope string_scope.

(** ** Python string operations *)

Module Str.

(** [str.isspace] of one character, which is also the class [\s] of [re]:
    TAB, LF, VT, FF, CR, FS, GS, RS, US, SPACE, NEL and NBSP. *)
Definition is_space (c : ascii) : bool :=
  let n := nat_of_ascii c in
  ((9 <=? n)%nat && (n <=? 13)%nat) || ((28 <=? n)%nat && (n <=? 32)%nat)
  || (n =? 133)%nat || (n =? 160)%nat.

Definition in_range (lo hi c : ascii) : bool :=
  (nat_of_ascii lo <=? nat_of_ascii c)%nat
  && (nat_of_ascii c <=? nat_of_ascii hi)%nat.

Definition is_digit (c : ascii) : bool := in_range "0" "9" c.

Definition is_hex (c : ascii) : bool :=
  is_digit c || in_range "a" "f" c || in_range "A" "F" c.

(** [a-zA-Z0-9_] *)
Definition is_word (c : ascii) : bool :=
  in_range "a" "z" c || in_range "A" "Z" c || is_digit c || Ascii.eqb c "_".

(** [s.startswith(p)] *)
Fixpoint startswith (s p : string) {struct p} : bool :=
  match p, s with
  | EmptyString, _ => true
  | String b p', String a s' => Ascii.eqb a b && startswith s' p'
  | String _ _, EmptyString => false
  end.

(** [s.endswith(p)]: some tail of [s] is [p]. *)
Fixpoint endswith (s p : string) : bool :=
  if String.eqb s p then true
  else match s with
       | EmptyString => false
       | String _ s' => endswith s' p
       end.

(** [sub in s] *)
Fixpoint contains (s sub : string) : bool :=
  if startswith s sub then true
  else match s with
       | EmptyString => false
       | String _ s' => contains s' sub
       end.

(** [s[n:]] *)
Fixpoint drop (n : nat) (s : string) : string :=
  match n, s with
  | O, _ => s
  | S n', String _ s' => drop n' s'
  | S _, EmptyString => EmptyString
  end.

(** [s[:n]] *)
Fixpoint take (n : nat) (s : string) : string :=
  match n, s with
  | O, _ => EmptyString
  | S n', String a s' => String a (take n' s')
  | S _, EmptyString => EmptyString
  end.

(** [s.replace(old, new)] for a non-empty [old]: left to right, occurrences
    that do not overlap.  [skip] counts the characters of an occurrence just
    replaced that are still to be passed over. *)
Fixpoint replace_from (old new : string) (skip : nat) (s : string) : string :=
  match s with
  | EmptyString => EmptyString
  | String a s' =>
      match skip with
      | S k => replace_from old new k s'
      | O =>
          if startswith s old
          then new ++ replace_from old new (String.length old - 1) s'
          else String a (replace_from old new 0 s')
      end
  end.

Definition replace (s old new : string) : string := replace_from old new 0 s.

Fixpoint lstrip (s : string) : string :=
  match s with
  | EmptyString => EmptyString
  | String a s' => if is_space a then lstrip s' else s
  end.

Fixpoint rstrip (s : string) : string :=
  match s with
  | EmptyString => EmptyString
  | String a s' =>
      match rstrip s' with
      | EmptyString => if is_space a then EmptyString else String a EmptyString
      | r => String a r
      end
  end.

(** [s.strip()] *)
Definition strip (s : string) : string := rstrip (lstrip s).

(** [s.rsplit(sep, 1)] when [sep] occurs in [s]: the parts before and after
    its last occurrence.  [None] when [sep] does not occur (Python then
    returns the one-element list [[s]]). *)
Fixpoint rsplit1 (sep : ascii) (s : string) : option (string * string) :=
  match s with
  | EmptyString => None
  | String a s' =>
      match rsplit1 sep s' with
      | Some (p, q) => Some (String a p, q)
      | None => if Ascii.eqb a sep then Some (EmptyString, s') else None
      end
  end.

(** Truth value of a [str]: non-empty. *)
Definition truthy (s : string) : bool :=
  match s with EmptyString => false | _ => true end.

(** Truth value of a [str | None]. *)
Definition otruthy (o : option string) : bool :=
  match o with Some s => truthy s | None => false end.

Definition all_chars (p : ascii -> bool) (s : string) : bool :=
  forallb p (list_ascii_of_string s).

End Str.

(** ** Exceptions *)

Inductive exn : Type := ValueError | IndexError.

Inductive result (A : Type) : Type :=
| Ok (a : A)
| Raise (e : exn).

Arguments Ok {A} a.
Arguments Raise {A} e.

Definition bind {A B : Type} (r : result A) (f : A -> result B) : result B :=
  match r with
  | Ok a => f a
  | Raise e => Raise e
  end.

Notation "x <- r ;; k" := (bind r (fun x => k))
  (at level 61, r at next level, right associativity).

(** ** [int(s, base)] on the literals [DEFINE_RE] lets through

    The second group of [DEFINE_RE] is either [0x] followed by hexadecimal
    digits or a run of decimal digits, so these are the only literals the
    program ever converts; any other string is answered with [ValueError]
    here. *)

Module PyInt.

Definition digit_val (c : ascii) : Z :=
  let n := Z.of_nat (nat_of_ascii c) in
  if Str.is_digit c then n - 48
  else if Str.in_range "a" "f" c then n - 87
  else n - 55.

Fixpoint of_digits (base acc : Z) (s : string) : Z :=
  match s with
  | EmptyString => acc
  | String a s' => of_digits base (acc * base + digit_val a) s'
  end.

Definition has_hex_prefix (s : string) : bool :=
  Str.startswith s "0x" || Str.startswith s "0X".

(** CPython refuses to convert a decimal literal of more than 4300 digits
    ([sys.int_info.default_max_str_digits]); the bases that are powers of two
    have no such limit. *)
Definition int_max_str_digits : nat := 4300.

Definition hex_digits (d : string) : result Z :=
  if Str.truthy d && Str.all_chars Str.is_hex d
  then Ok (of_digits 16 0 d) else Raise ValueError.

(** [int(s, 16)] *)
Definition int16 (s : string) : result Z :=
  hex_digits (if has_hex_prefix s then Str.drop 2 s else s).

(** [int(s, 0)]: the base is read off the literal; a decimal literal that
    starts with [0] must be zero. *)
Definition int0 (s : string) : result Z :=
  if has_hex_prefix s then hex_digits (Str.drop 2 s)
  else if Str.truthy s && Str.all_chars Str.is_digit s then
    let v := of_digits 10 0 s in
    if (int_max_str_digits <? String.length s)%nat then Raise ValueError
    else if Str.startswith s "0" && negb (v =? 0)%Z then Raise ValueError
    else Ok v
  else Raise ValueError.

End PyInt.

(** ** Regular expressions

    The fragment of [re] the three patterns of the program are written in,
    with the backtracking semantics of [re]: alternatives are tried left to
    right, a greedy repetition tries the longest run first and a lazy one the
    shortest, and the first way to match the whole pattern is the answer.
    Repetition is only ever applied to a one-character class. *)

Module Re.

Inductive regex : Type :=
| Bol                         (* ^ *)
| Lit (l : string)            (* literal text *)
| Cat (r1 r2 : regex)         (* r1r2 *)
| Alt (r1 r2 : regex)         (* r1|r2 *)
| Grp (i : nat) (r : regex)   (* (r), the capturing group number i *)
| Opt (r : regex)             (* (?:r)? *)
| Star (p : ascii -> bool)    (* c* *)
| Plus (p : ascii -> bool)    (* c+ *)
| StarLazy (p : ascii -> bool) (* c*? *)
| PlusLazy (p : ascii -> bool). (* c+? *)

(** The groups that took part in the match, most recent first. *)
Definition captures : Type := list (nat * string).

Fixpoint group (i : nat) (c : captures) : option string :=
  match c with
  | [] => None
  | (j, s) :: c' => if (i =? j)%nat then Some s else group i c'
  end.

Fixpoint star_greedy (p : ascii -> bool) (s : string)
    (k : string -> option captures) : option captures :=
  match s with
  | String a s' =>
      if p a then
        match star_greedy p s' k with
        | Some r => Some r
        | None => k s
        end
      else k s
  | EmptyString => k s
  end.

Fixpoint star_lazy (p : ascii -> bool) (s : string)
    (k : string -> option captures) : option captures :=
  match k s with
  | Some r => Some r
  | None =>
      match s with
      | String a s' => if p a then star_lazy p s' k else None
      | EmptyString => None
      end
  end.

Section Run.

(** The length of the subject: [^] holds where all of it is still ahead. *)
Variable n0 : nat.

Fixpoint run (r : regex) (s : string) (c : captures)
    (k : string -> captures -> option captures) : option captures :=
  match r with
  | Bol => if (String.length s =? n0)%nat then k s c else None
  | Lit l =>
      if Str.startswith s l then k (Str.drop (String.length l) s) c else None
  | Cat r1 r2 => run r1 s c (fun s' c' => run r2 s' c' k)
  | Alt r1 r2 =>
      match run r1 s c k with
      | Some x => Some x
      | None => run r2 s c k
      end
  | Grp i r1 =>
      run r1 s c (fun s' c' =>
        k s' ((i, Str.take (String.length s - String.length s') s) :: c'))
  | Opt r1 =>
      match run r1 s c k with
      | Some x => Some x
      | None => k s c
      end
  | Star p => star_greedy p s (fun s' => k s' c)
  | Plus p =>
      match s with
      | String a s' => if p a then star_greedy p s' (fun s'' => k s'' c) else None
      | EmptyString => None
      end
  | StarLazy p => star_lazy p s (fun s' => k s' c)
  | PlusLazy p =>
      match s with
      | String a s' => if p a then star_lazy p s' (fun s'' => k s'' c) else None
      | EmptyString => None
      end
  end.

Definition at_here (r : regex) (s : string) : option captures :=
  run r s [] (fun _ c => Some c).

Fixpoint scan (r : regex) (s : string) : option captures :=
  match at_here r s with
  | Some c => Some c
  | None =>
      match s with
      | String _ s' => scan r s'
      | EmptyString => None
      end
  end.

End Run.

(** [r.match(s)]: the pattern at position 0. *)
Definition pmatch (r : regex) (s : string) : option captures :=
  at_here (String.length s) r s.

(** [r.search(s)]: the pattern at the first position where it matches. *)
Definition search (r : regex) (s : string) : option captures :=
  scan (String.length s) r s.

Declare Scope re_scope.
Delimit Scope re_scope with re.
Infix ">>" := Cat (at level 60, right associativity) : re_scope.

(** [.] (without DOTALL): everything but a line feed. *)
Definition dot (c : ascii) : bool := negb (Ascii.eqb c "010").

(** [[a-zA-Z0-9_ ]] *)
Definition word_or_blank (c : ascii) : bool :=
  Str.is_word c || Ascii.eqb c " ".

(** [[^:]] *)
Definition not_colon (c : ascii) : bool := negb (Ascii.eqb c ":").

End Re.

(** ** Dictionaries in insertion order *)

Module Dict.

Definition t (V : Type) : Type := list (string * V).

Section Ops.
Context {V : Type}.

(** [d.get(k)] *)
Fixpoint get (k : string) (d : t V) : option V :=
  match d with
  | [] => None
  | (k', v) :: d' => if String.eqb k k' then Some v else get k d'
  end.

(** [k in d] *)
Definition mem (k : string) (d : t V) : bool :=
  match get k d with Some _ => true | None => false end.

(** [d[k] = v]: a key already there keeps its place. *)
Fixpoint set (k : string) (v : V) (d : t V) : t V :=
  match d with
  | [] => [(k, v)]
  | (k', v') :: d' =>
      if String.eqb k k' then (k', v) :: d' else (k', v') :: set k v d'
  end.

(** [d[k]] of a [defaultdict] followed by an update of the value in place:
    a missing key is first entered with the default. *)
Definition upd (dflt : V) (k : string) (f : V -> V) (d : t V) : t V :=
  match get k d with
  | Some v => set k (f v) d
  | None => set k (f dflt) d
  end.

Definition keys (d : t V) : list string := map fst d.

(** The dictionary without the key [k]. *)
Fixpoint remove (k : string) (d : t V) : t V :=
  match d with
  | [] => []
  | (k', v) :: d' =>
      if String.eqb k k' then remove k d' else (k', v) :: remove k d'
  end.

End Ops.

End Dict.

(** ** The data classes of [reg_to_svd.py]

    Each class is a module with its record [t], so that the fields keep
    their names. *)

Module Field.
Record t : Type := mk
  { name : string; description : string; bit_offset : Z; bit_width : Z }.
End Field.

Module Register.
Record t : Type := mk
  { name : string; description : string; address_offset : Z; size : Z;
    fields : list Field.t }.
End Register.

Module Peripheral.
Record t : Type := mk
  { name : string; base_address : Z; description : string;
    registers : Dict.t Register.t }.
End Peripheral.

Module Device.
Record t : Type := mk
  { name : string; description : string;
    peripherals : Dict.t Peripheral.t }.
End Device.

Module RegAddrDesc.
Record t : Type := mk { addr : Z; desc : string }.
End RegAddrDesc.

Module RegisterInfo.
Record t : Type := mk
  { reg_name : string; addr : Z; desc : string; reg_define : string }.
End RegisterInfo.

(** The inner dictionaries of [fields_info]: the program writes and reads
    the keys ['bitOffset'] and ['bitWidth'] only. *)
Module Props.
Record t : Type := mk { bitOffset : option Z; bitWidth : option Z }.
Definition empty : t := mk None None.
Definition set_bitOffset (v : Z) (p : t) : t := mk (Some v) (bitWidth p).
Definition set_bitWidth (v : Z) (p : t) : t := mk (bitOffset p) (Some v).
End Props.

Record ParsedHeader : Type := mkParsedHeader
  { registers_info : Dict.t RegAddrDesc.t;
    fields_info : Dict.t Props.t;
    field_descriptions : Dict.t string;
    reg_fqn_to_periph : Dict.t string;
    reg_fqn_to_regname : Dict.t string }.

(** ** The three patterns *)

Import Re.
Local Open Scope re_scope.

(** [^#define\s+([a-zA-Z0-9_]+)\s+((?:0x[0-9a-fA-F]+)|[0-9]+)\s*(?:/\*\s*(.*?)\s*\*/)?] *)
Definition DEFINE_RE : regex :=
  Bol >> Lit "#define" >> Plus Str.is_space >> Grp 1 (Plus Str.is_word)
  >> Plus Str.is_space
  >> Grp 2 (Alt (Lit "0x" >> Plus Str.is_hex) (Plus Str.is_digit))
  >> Star Str.is_space
  >> Opt (Lit "/*" >> Star Str.is_space >> Grp 3 (StarLazy dot)
          >> Star Str.is_space >> Lit "*/").

(** [/\*\s*([a-zA-Z0-9_]+)\s*::\s*([a-zA-Z0-9_ ]+)\s*::\s*(.*?)\s*\[(\d+):(\d+)\]\s*\*/] *)
Definition FIELD_COMMENT_RE : regex :=
  Lit "/*" >> Star Str.is_space >> Grp 1 (Plus Str.is_word)
  >> Star Str.is_space >> Lit "::" >> Star Str.is_space
  >> Grp 2 (Plus word_or_blank)
  >> Star Str.is_space >> Lit "::" >> Star Str.is_space
  >> Grp 3 (StarLazy dot) >> Star Str.is_space
  >> Lit "[" >> Grp 4 (Plus Str.is_digit) >> Lit ":"
  >> Grp 5 (Plus Str.is_digit) >> Lit "]"
  >> Star Str.is_space >> Lit "*/".

(** [/\*\s*([a-zA-Z0-9_]+)\s*::\s*([^:]+?)\s*\*/] *)
Definition REGISTER_COMMENT_RE : regex :=
  Lit "/*" >> Star Str.is_space >> Grp 1 (Plus Str.is_word)
  >> Star Str.is_space >> Lit "::" >> Star Str.is_space
  >> Grp 2 (PlusLazy not_colon)
  >> Star Str.is_space >> Lit "*/".

Local Close Scope re_scope.

(** [DEFINE_RE.match(line).groups()]: name, value and comment, the comment
    being [None] when the optional part did not match. *)
Definition define_groups (line : string)
  : option (string * string * option string) :=
  match pmatch DEFINE_RE line with
  | Some c =>
      match group 1 c, group 2 c with
      | Some n, Some v => Some (n, v, group 3 c)
      | _, _ => None
      end
  | None => None
  end.

(** [FIELD_COMMENT_RE.search(line).groups()] without the two bit positions,
    which the program does not use. *)
Definition field_comment_groups (line : string)
  : option (string * string * string) :=
  match search FIELD_COMMENT_RE line with
  | Some c =>
      match group 1 c, group 2 c, group 3 c with
      | Some p, Some r, Some d => Some (p, r, d)
      | _, _, _ => None
      end
  | None => None
  end.

(** [REGISTER_COMMENT_RE.search(line).groups()] *)
Definition register_comment_groups (line : string) : option (string * string) :=
  match search REGISTER_COMMENT_RE line with
  | Some c =>
      match group 1 c, group 2 c with
      | Some p, Some r => Some (p, r)
      | _, _ => None
      end
  | None => None
  end.

(** ** [parse_header_lines] *)

(** The variables of the loop: the five tables and the pending field
    comment [last_field_info], a pair of its ['key_base'] and ['desc']. *)
Record ParseState : Type := mkParseState
  { parsed : ParsedHeader;
    last_field_info : option (string * string) }.

Definition initial_state : ParseState :=
  mkParseState (mkParsedHeader [] [] [] [] []) None.

Definition set_registers_info (v : Dict.t RegAddrDesc.t) (h : ParsedHeader) :=
  mkParsedHeader v (fields_info h) (field_descriptions h)
    (reg_fqn_to_periph h) (reg_fqn_to_regname h).

Definition set_fields_info (v : Dict.t Props.t) (h : ParsedHeader) :=
  mkParsedHeader (registers_info h) v (field_descriptions h)
    (reg_fqn_to_periph h) (reg_fqn_to_regname h).

Definition set_field_descriptions (v : Dict.t string) (h : ParsedHeader) :=
  mkParsedHeader (registers_info h) (fields_info h) v
    (reg_fqn_to_periph h) (reg_fqn_to_regname h).

Definition set_reg_fqn (vp vr : Dict.t string) (h : ParsedHeader) :=
  mkParsedHeader (registers_info h) (fields_info h) (field_descriptions h)
    vp vr.

(** The verdict on a define: [True] when it is a property of a field. *)
Definition is_field_prop (name : string) (comment : option string) : bool :=
  if Str.endswith name "_BITS" || Str.endswith name "_SHIFT"
     || Str.endswith name "_ALIGN"
  then true
  else if Str.endswith name "_MASK" then
    match comment with
    | None => true
    | Some c => negb (Str.truthy c) || negb (Str.contains c "Register")
    end
  else false.

(** [comment.replace("Register", "").strip() if comment else name] *)
Definition register_description (name : string) (comment : option string)
  : string :=
  match comment with
  | Some c =>
      if Str.truthy c then Str.strip (Str.replace c "Register" "") else name
  | None => name
  end.

(** The branch [if is_field_prop:]. *)
Definition on_field_prop (st : ParseState) (name value_str : string)
  : result ParseState :=
  match Str.rsplit1 "_" name with
  | None => Raise IndexError
  | Some (prefix, prop) =>
      value <- PyInt.int0 value_str ;;
      let h := parsed st in
      let h1 :=
        if String.eqb prop "SHIFT" then
          set_fields_info
            (Dict.upd Props.empty prefix (Props.set_bitOffset value)
               (fields_info h)) h
        else if String.eqb prop "BITS" then
          set_fields_info
            (Dict.upd Props.empty prefix (Props.set_bitWidth value)
               (fields_info h)) h
        else h in
      match last_field_info st with
      | Some (key_base, d) =>
          if Str.startswith prefix key_base then
            let h2 :=
              if Dict.mem prefix (field_descriptions h1) then h1
              else set_field_descriptions
                     (Dict.set prefix d (field_descriptions h1)) h1 in
            Ok (mkParseState h2 None)
          else Ok (mkParseState h1 (last_field_info st))
      | None => Ok (mkParseState h1 None)
      end
  end.

(** The body of [if m_def:]. *)
Definition on_define (st : ParseState) (name value_str : string)
    (comment : option string) : result ParseState :=
  if is_field_prop name comment then on_field_prop st name value_str
  else if Str.startswith value_str "0x" then
    value <- PyInt.int16 value_str ;;
    let d := register_description name comment in
    Ok (mkParseState
          (set_registers_info
             (Dict.set name (RegAddrDesc.mk value d)
                (registers_info (parsed st))) (parsed st))
          (last_field_info st))
  else Ok st.

(** The part of the body under "Handle comments for FQN and field
    descriptions". *)
Definition on_comments (st : ParseState) (line : string) : ParseState :=
  let '(periph_name, reg_name_from_comment, lfi) :=
    match field_comment_groups line with
    | Some (p, r, d) =>
        let reg_name := Str.replace r " " "_" in
        let field_key_base := p ++ "_" ++ reg_name in
        (Some p, Some r, Some (field_key_base, Str.strip d))
    | None =>
        match register_comment_groups line with
        | Some (p, r) => (Some p, Some r, last_field_info st)
        | None => (None, None, last_field_info st)
        end
    end in
  let h := parsed st in
  match periph_name, reg_name_from_comment with
  | Some p, Some r =>
      if Str.truthy p && Str.truthy r && negb (Str.contains r "::") then
        let reg_name := Str.replace (Str.strip r) " " "_" in
        let reg_fqn := p ++ "_" ++ reg_name in
        if Dict.mem reg_fqn (reg_fqn_to_periph h) then mkParseState h lfi
        else
          mkParseState
            (set_reg_fqn (Dict.set reg_fqn p (reg_fqn_to_periph h))
               (Dict.set reg_fqn reg_name (reg_fqn_to_regname h)) h)
            lfi
      else mkParseState h lfi
  | _, _ => mkParseState h lfi
  end.

(** The pending field comment survives a line that is a define, a comment
    or empty. *)
Definition keeps_context (line : string) : bool :=
  Str.startswith line "#define" || Str.startswith line "/*"
  || negb (Str.truthy line).

(** One turn of the loop. *)
Definition step (st : ParseState) (raw : string) : result ParseState :=
  let line := Str.strip raw in
  let st1 :=
    if negb (keeps_context line) then mkParseState (parsed st) None else st in
  st2 <- match define_groups line with
         | Some (name, value_str, comment) =>
             on_define st1 name value_str comment
         | None => Ok st1
         end ;;
  Ok (on_comments st2 line).

Fixpoint run_lines (st : ParseState) (lines : list string)
  : result ParseState :=
  match lines with
  | [] => Ok st
  | l :: ls => st' <- step st l ;; run_lines st' ls
  end.

Definition parse_header_lines (lines : list string) : result ParsedHeader :=
  st <- run_lines initial_state lines ;; Ok (parsed st).

(** ** [sorted] *)

Section Sorted.
Context {A : Type}.

(** [ahead y x]: the key of [y] puts it strictly before [x]. *)
Variable ahead : A -> A -> bool.

(** [x] goes in front of the first element that is not strictly before it,
    so elements with equal keys keep their order (the sort is stable). *)
Fixpoint insert_sorted (x : A) (l : list A) : list A :=
  match l with
  | [] => [x]
  | y :: l' => if ahead y x then y :: insert_sorted x l' else x :: l
  end.

Definition sorted (l : list A) : list A := fold_right insert_sorted [] l.

(** [before a b]: [b] is not strictly ahead of [a]. *)
Definition before (a b : A) : Prop := ahead b a = false.

End Sorted.

(** ** [group_registers_by_peripheral] *)

(** [sorted(reg_fqn_to_periph.keys(), key=len, reverse=True)] *)
Definition fqns_longest_first (reg_fqn_to_periph : Dict.t string)
  : list string :=
  sorted (fun y x => (String.length x <? String.length y)%nat)
    (Dict.keys reg_fqn_to_periph).

(** The loop of the fallback: the first recorded name, longest first, that
    the define starts with gives the peripheral; the name of the register is
    the define without the name of the peripheral and one more character. *)
Definition fallback (reg_fqn_to_periph : Dict.t string) (reg_define : string)
  : option (string * string) :=
  match find (fun r_fqn => Str.startswith reg_define r_fqn)
             (fqns_longest_first reg_fqn_to_periph) with
  | Some r_fqn =>
      match Dict.get r_fqn reg_fqn_to_periph with
      | Some periph_name =>
          Some (periph_name,
                Str.drop (String.length periph_name + 1) reg_define)
      | None => None
      end
  | None => None
  end.

(** The values of [periph_name] and [reg_name] at the final test of the
    loop body. *)
Definition resolve (reg_fqn_to_periph reg_fqn_to_regname : Dict.t string)
    (reg_define : string) : option string * option string :=
  let periph_name := Dict.get reg_define reg_fqn_to_periph in
  let reg_name := Dict.get reg_define reg_fqn_to_regname in
  if Str.otruthy periph_name then (periph_name, reg_name)
  else
    match fallback reg_fqn_to_periph reg_define with
    | Some (p, r) => (Some p, Some r)
    | None => (periph_name, reg_name)
    end.

(** [if periph_name and reg_name]: the two names when both are non-empty. *)
Definition attributed (reg_fqn_to_periph reg_fqn_to_regname : Dict.t string)
    (reg_define : string) : option (string * string) :=
  match resolve reg_fqn_to_periph reg_fqn_to_regname reg_define with
  | (Some p, Some r) => if Str.truthy p && Str.truthy r then Some (p, r) else None
  | _ => None
  end.

Definition warning (reg_define : string) : string :=
  "Warning: Could not determine peripheral for register " ++ reg_define.

(** The groups built so far and the lines printed to [sys.stderr]. *)
Definition Groups : Type := Dict.t (list RegisterInfo.t).

Definition group_step (reg_fqn_to_periph reg_fqn_to_regname : Dict.t string)
    (acc : Groups * list string) (item : string * RegAddrDesc.t)
  : Groups * list string :=
  let '(peripherals, err) := acc in
  let '(reg_define, ad) := item in
  match attributed reg_fqn_to_periph reg_fqn_to_regname reg_define with
  | Some (periph_name, reg_name) =>
      let d := RegAddrDesc.desc ad in
      let info :=
        RegisterInfo.mk reg_name (RegAddrDesc.addr ad)
          (if Str.truthy d then d else reg_name) reg_define in
      (Dict.upd [] periph_name (fun l => (l ++ [info])%list) peripherals, err)
  | None => (peripherals, (err ++ [warning reg_define])%list)
  end.

Definition group_registers_by_peripheral
    (registers_info : Dict.t RegAddrDesc.t)
    (reg_fqn_to_periph reg_fqn_to_regname : Dict.t string)
  : Groups * list string :=
  fold_left (group_step reg_fqn_to_periph reg_fqn_to_regname)
    registers_info ([], []).

(** ** [build_device_tree] *)

(** The members of the set [all_reg_fqns]; the program only asks whether
    some member passes a test. *)
Definition all_reg_fqns (peripherals : Groups) : list string :=
  flat_map (fun g => map RegisterInfo.reg_define (snd g)) peripherals.

(** The loop over [all_reg_fqns] that sets [is_more_specific_match]. *)
Definition is_more_specific_match (fqns : list string)
    (reg_define field_prefix : string) : bool :=
  existsb
    (fun other_reg_fqn =>
       (String.length reg_define <? String.length other_reg_fqn)%nat
       && Str.startswith other_reg_fqn reg_define
       && Str.startswith field_prefix (other_reg_fqn ++ "_"))
    fqns.

(** The register with define [reg_define] is the owner of the prefix. *)
Definition owns (fqns : list string) (reg_define field_prefix : string)
  : bool :=
  Str.startswith field_prefix (reg_define ++ "_")
  && negb (is_more_specific_match fqns reg_define field_prefix).

(** What one entry of [fields_info] adds to the fields of a register. *)
Definition field_of (fqns : list string) (field_descriptions : Dict.t string)
    (reg_define : string) (entry : string * Props.t) : list Field.t :=
  let '(field_prefix, props) := entry in
  if owns fqns reg_define field_prefix then
    let field_name := Str.drop (String.length reg_define + 1) field_prefix in
    match Props.bitOffset props, Props.bitWidth props with
    | Some o, Some w =>
        let field_desc :=
          match Dict.get field_prefix field_descriptions with
          | Some d => d
          | None => field_name
          end in
        [Field.mk field_name field_desc o w]
    | _, _ => []
    end
  else [].

Definition register_fields (fqns : list string) (fields_info : Dict.t Props.t)
    (field_descriptions : Dict.t string) (reg_define : string)
  : list Field.t :=
  flat_map (field_of fqns field_descriptions reg_define) fields_info.

(** [min(r.addr for r in regs)] of a list that is not empty. *)
Definition min_addr (r0 : RegisterInfo.t) (rs : list RegisterInfo.t) : Z :=
  fold_left Z.min (map RegisterInfo.addr rs) (RegisterInfo.addr r0).

(** [sorted(regs, key=lambda r: r.addr)] *)
Definition by_addr (regs : list RegisterInfo.t) : list RegisterInfo.t :=
  sorted (fun y x => (RegisterInfo.addr y <? RegisterInfo.addr x)%Z) regs.

Definition make_register (fqns : list string) (fields_info : Dict.t Props.t)
    (field_descriptions : Dict.t string) (base_address : Z)
    (reg_info : RegisterInfo.t) : Register.t :=
  Register.mk (RegisterInfo.reg_name reg_info) (RegisterInfo.desc reg_info)
    (RegisterInfo.addr reg_info - base_address) 32
    (register_fields fqns fields_info field_descriptions
       (RegisterInfo.reg_define reg_info)).

(** [peripheral.add_register(register)] for every register of the group. *)
Definition add_registers (fqns : list string) (fields_info : Dict.t Props.t)
    (field_descriptions : Dict.t string) (base_address : Z)
    (regs : list RegisterInfo.t) : Dict.t Register.t :=
  fold_left
    (fun registers reg_info =>
       Dict.set (RegisterInfo.reg_name reg_info)
         (make_register fqns fields_info field_descriptions base_address
            reg_info) registers)
    (by_addr regs) [].

(** The peripheral of one group; [None] for a group without registers. *)
Definition make_peripheral (fqns : list string) (fields_info : Dict.t Props.t)
    (field_descriptions : Dict.t string) (periph_name : string)
    (regs : list RegisterInfo.t) : option Peripheral.t :=
  match regs with
  | [] => None
  | r0 :: rs =>
      let base_address := min_addr r0 rs in
      Some (Peripheral.mk periph_name base_address
              (periph_name ++ " Peripheral")
              (add_registers fqns fields_info field_descriptions base_address
                 regs))
  end.

Definition build_device_tree (device_name device_description : string)
    (peripherals : Groups) (fields_info : Dict.t Props.t)
    (field_descriptions : Dict.t string) : Device.t :=
  let fqns := all_reg_fqns peripherals in
  Device.mk device_name device_description
    (fold_left
       (fun acc g =>
          match make_peripheral fqns fields_info field_descriptions
                  (fst g) (snd g) with
          | Some p => Dict.set (Peripheral.name p) p acc
          | None => acc
          end)
       peripherals []).

(** ** [parse_header_to_device_tree]

    The device tree and the lines printed to [sys.stderr]. *)
Definition parse_header_to_device_tree (lines : list string)
    (device_name device_description : string)
  : result (Device.t * list string) :=
  parsed_data <- parse_header_lines lines ;;
  let '(peripherals, err) :=
    group_registers_by_peripheral (registers_info parsed_data)
      (reg_fqn_to_periph parsed_data) (reg_fqn_to_regname parsed_data) in
  Ok (build_device_tree device_name device_description peripherals
        (fields_info parsed_data) (field_descriptions parsed_data), err).

(** ** Vocabulary of the statements *)

(** All the fields of a device tree. *)
Definition device_fields (dev : Device.t) : list Field.t :=
  flat_map
    (fun p => flat_map (fun r => Register.fields (snd r))
                (Peripheral.registers (snd p)))
    (Device.peripherals dev).

(** What a line enters in [registers_info], if anything: the define is
    matched by [DEFINE_RE], is not a property of a field and has a value
    that starts with [0x]. *)
Definition register_definition (raw : string)
  : option (string * RegAddrDesc.t) :=
  match define_groups (Str.strip raw) with
  | Some (name, value_str, comment) =>
      if negb (is_field_prop name comment) && Str.startswith value_str "0x"
      then
        match PyInt.int16 value_str with
        | Ok v => Some (name, RegAddrDesc.mk v (register_description name comment))
        | Raise _ => None
        end
      else None
  | None => None
  end.


(** The header of the end-to-end example. *)
Definition uart_header : list string :=
  [ "/* UART :: UART_CTRL :: Control register */";
    "#define UART_CTRL 0x1000";
    "/* UART :: UART_CTRL :: ENABLE :: Enable bit [0:0] */";
    "#define UART_CTRL_ENABLE_SHIFT 0";
    "#define UART_CTRL_ENABLE_BITS 1" ].

(** The same register and field written in the two comment formats the
    patterns accept, with the description of the register on its define. *)
Definition uart_header_in_format : list string :=
  [ "/* UART :: CTRL */";
    "#define UART_CTRL 0x1000 /* Control register */";
    "/* UART :: CTRL :: Enable bit [0:0] */";
    "#define UART_CTRL_ENABLE_SHIFT 0";
    "#define UART_CTRL_ENABLE_BITS 1" ].

(** The tree the end-to-end example describes. *)
Definition uart_tree (device_name device_description : string) : Device.t :=
  Device.mk device_name device_description
    [ ("UART",
       Peripheral.mk "UART" 4096 "UART Peripheral"
         [ ("CTRL",
            Register.mk "CTRL" "Control register" 0 32
              [ Field.mk "ENABLE" "Enable bit" 0 1 ]) ]) ].

(** A header whose field lies outside a register of 32 bits. *)
Definition wide_header : list string :=
  [ "/* P :: R */";
    "#define P_R 0x10";
    "#define P_R_F_SHIFT 40";
    "#define P_R_F_BITS 0" ].

(** The device tree is the one of the end-to-end example: one peripheral
    [UART] at [0x1000], its one register [CTRL] at offset 0 described as
    "Control register", and the one field [ENABLE] of that register, at bit 0
    and one bit wide, described as "Enable bit". *)
Definition describes_uart (dev : Device.t) : Prop :=
  exists p r f,
    Device.peripherals dev = [("UART", p)]
    /\ Peripheral.name p = "UART" /\ Peripheral.base_address p = 4096%Z
    /\ Peripheral.registers p = [("CTRL", r)]
    /\ Register.name r = "CTRL" /\ Register.address_offset r = 0%Z
    /\ Register.description r = "Control register"
    /\ Register.fields r = [f]
    /\ Field.name f = "ENABLE" /\ Field.bit_offset f = 0%Z
    /\ Field.bit_width f = 1%Z /\ Field.description f = "Enable bit".

(** A field fits a register of 32 bits. *)
Definition fits_register (f : Field.t) : Prop :=
  (0 <= Field.bit_offset f <= 31)%Z /\ (1 <= Field.bit_width f)%Z
  /\ (Field.bit_offset f + Field.bit_width f <= 32)%Z.

(** The entry [group_registers_by_peripheral] appends for a register that
    is attributed to a peripheral. *)
Definition register_info (reg_name reg_define : string) (ad : RegAddrDesc.t)
  : RegisterInfo.t :=
  RegisterInfo.mk reg_name (RegAddrDesc.addr ad)
    (if Str.truthy (RegAddrDesc.desc ad) then RegAddrDesc.desc ad
     else reg_name) reg_define.

(** The two halves of [group_step]: what it does to the groups and what it
    prints. *)
Definition groups_step (reg_fqn_to_periph reg_fqn_to_regname : Dict.t string)
    (peripherals : Groups) (item : string * RegAddrDesc.t) : Groups :=
  match attributed reg_fqn_to_periph reg_fqn_to_regname (fst item) with
  | Some (periph_name, reg_name) =>
      Dict.upd [] periph_name
        (fun l => (l ++ [register_info reg_name (fst item) (snd item)])%list)
        peripherals
  | None => peripherals
  end.

Definition printed (reg_fqn_to_periph reg_fqn_to_regname : Dict.t string)
    (item : string * RegAddrDesc.t) : list string :=
  match attributed reg_fqn_to_periph reg_fqn_to_regname (fst item) with
  | Some _ => []
  | None => [warning (fst item)]
  end.

(** Both properties of a field are known. *)
Definition complete (props : Props.t) : bool :=
  match Props.bitOffset props, Props.bitWidth props with
  | Some _, Some _ => true
  | _, _ => false
  end.

(** A group of two registers, the second at the lower address, and the
    peripheral [build_device_tree] makes of it. *)
Definition sample_groups : Groups :=
  [ ("P", [ RegisterInfo.mk "R" 32 "d" "P_R";
            RegisterInfo.mk "S" 16 "e" "P_S" ]) ].

Definition sample_peripheral : Peripheral.t :=
  Peripheral.mk "P" 16 "P Peripheral"
    [ ("S", Register.mk "S" "e" 0 32 []);
      ("R", Register.mk "R" "d" 16 32 []) ].

(** Two entries of [fields_info] for the register [P_R] of
    [sample_groups]: the first has both properties, the second only its bit
    offset. *)
Definition sample_fields : Dict.t Props.t :=
  [ ("P_R_F", Props.mk (Some 3%Z) (Some 2%Z));
    ("P_R_G", Props.mk (Some 1%Z) None) ].

(** What a match of a pattern says about the text it consumed and about
    the groups: [matches r w c c'] when [r] can consume exactly [w] and turn
    the groups [c] into [c'] (the order in which [re] tries the ways to match
    is forgotten here). *)
Fixpoint matches (r : Re.regex) (w : string) (c c' : Re.captures) : Prop :=
  match r with
  | Re.Bol => w = "" /\ c' = c
  | Re.Lit l => w = l /\ c' = c
  | Re.Cat r1 r2 =>
      exists w1 w2 c1,
        w = w1 ++ w2 /\ matches r1 w1 c c1 /\ matches r2 w2 c1 c'
  | Re.Alt r1 r2 => matches r1 w c c' \/ matches r2 w c c'
  | Re.Grp i r1 => exists c1, matches r1 w c c1 /\ c' = (i, w) :: c1
  | Re.Opt r1 => matches r1 w c c' \/ (w = "" /\ c' = c)
  | Re.Star p | Re.StarLazy p => Str.all_chars p w = true /\ c' = c
  | Re.Plus p | Re.PlusLazy p =>
      Str.all_chars p w = true /\ Str.truthy w = true /\ c' = c
  end.

(** The values a define can have: [0x] and hexadecimal digits, or decimal
    digits. *)
Definition hex_literal (v : string) : Prop :=
  exists h, v = "0x" ++ h /\ Str.truthy h = true
            /\ Str.all_chars Str.is_hex h = true.

Definition decimal_literal (v : string) : Prop :=
  Str.truthy v = true /\ Str.all_chars Str.is_digit v = true.

(** Some line of [lines] is a define of [prefix_suffix] that [DEFINE_RE]
    matches and whose value converts to [value]. *)
Definition defined_by (lines : list string) (suffix prefix : string)
    (value : Z) : Prop :=
  exists raw name value_str comment,
    In raw lines
    /\ define_groups (Str.strip raw) = Some (name, value_str, comment)
    /\ name = prefix ++ "_" ++ suffix
    /\ PyInt.int0 value_str = Ok value.

(** The properties of a prefix are the values of its [_SHIFT] and [_BITS]
    defines. *)
Definition props_from (lines : list string) (prefix : string)
    (props : Props.t) : Prop :=
  (forall o, Props.bitOffset props = Some o ->
             defined_by lines "SHIFT" prefix o)
  /\ (forall w, Props.bitWidth props = Some w ->
                defined_by lines "BITS" prefix w).

(** The state of the loop after a field comment and a define of
    [P_R_F_SHIFT], which records the description "first" for [P_R_F], and a
    second field comment, which is pending. *)
Definition described_state : ParseState :=
  mkParseState
    (mkParsedHeader []
       [("P_R_F", Props.mk (Some 0%Z) None)]
       [("P_R_F", "first")]
       [("P_R", "P")] [("P_R", "R")])
    (Some ("P_R_", "second")).

(** The registers of [registers_info] that are attributed to the
    peripheral [periph_name], in the order of [registers_info]. *)
Definition group_of (reg_fqn_to_periph reg_fqn_to_regname : Dict.t string)
    (periph_name : string) (registers_info : Dict.t RegAddrDesc.t)
  : list RegisterInfo.t :=
  flat_map
    (fun item =>
       match attributed reg_fqn_to_periph reg_fqn_to_regname (fst item) with
       | Some (p, r) =>
           if String.eqb periph_name p
           then [register_info r (fst item) (snd item)] else []
       | None => []
       end)
    registers_info.

(** The line is a define on which the loop raises: a field property whose
    value [int(value_str, 0)] refuses. *)
Definition raises_on (raw : string) : bool :=
  match define_groups (Str.strip raw) with
  | Some (name, value_str, comment) =>
      is_field_prop name comment
      && match PyInt.int0 value_str with
         | Ok _ => false
         | Raise _ => true
         end
  | None => false
  end.

(** The two name tables go together: they have the same keys, and every
    recorded name is the name of its peripheral, an underscore and the name of
    its register. *)
Definition names_consistent (fp fr : Dict.t string) : Prop :=
  Dict.keys fp = Dict.keys fr
  /\ forall fqn p,
       Dict.get fqn fp = Some p ->
       Str.truthy p = true
       /\ exists r, Dict.get fqn fr = Some r /\ fqn = p ++ "_" ++ r.

(** What a line enters in [fields_info], if anything: the define is
    matched by [DEFINE_RE], is classified as a field property, is named
    [prefix_SHIFT] or [prefix_BITS] and has a value that converts.  The
    result is the prefix, [SHIFT] or [BITS], and the value. *)
Definition field_definition (raw : string) : option (string * string * Z) :=
  match define_groups (Str.strip raw) with
  | Some (name, value_str, comment) =>
      if is_field_prop name comment then
        match Str.rsplit1 "_" name, PyInt.int0 value_str with
        | Some (prefix, prop), Ok value =>
            if String.eqb prop "SHIFT" || String.eqb prop "BITS"
            then Some (prefix, prop, value) else None
        | _, _ => None
        end
      else None
  | None => None
  end.

(** The entry of [props] that a define of [prefix_SHIFT] or [prefix_BITS]
    writes: ['bitOffset'] for [SHIFT], ['bitWidth'] for [BITS]. *)
Definition property (prop : string) (props : Props.t) : option Z :=
  if String.eqb prop "SHIFT" then Props.bitOffset props
  else Props.bitWidth props.

(** The register [reg_name] of the peripheral [periph_name] of a tree has a
    field named [field_name]. *)
Definition has_field (dev : Device.t)
    (periph_name reg_name field_name : string) : Prop :=
  exists per reg f,
    Dict.get periph_name (Device.peripherals dev) = Some per
    /\ Dict.get reg_name (Peripheral.registers per) = Some reg
    /\ In f (Register.fields reg) /\ Field.name f = field_name.

(** A header with the registers [P_A], [P_A_EXT] and [P_A_EXT_Y] and the
    two properties of the prefix [P_A_EXT_Y_Z]. *)
Definition nested_header : list string :=
  [ "/* P :: A */"; "#define P_A 0x0";
    "/* P :: A_EXT */"; "#define P_A_EXT 0x4";
    "/* P :: A_EXT_Y */"; "#define P_A_EXT_Y 0x8";
    "#define P_A_EXT_Y_Z_SHIFT 0"; "#define P_A_EXT_Y_Z_BITS 1" ].

(** A header with the registers [P_A] and [P_A_EXT] and the two properties
    of the prefix [P_A_EXT_X], what the parse makes of it and the tree of the
    conversion. *)
Definition extension_header : list string :=
  [ "/* P :: A */"; "#define P_A 0x0";
    "/* P :: A_EXT */"; "#define P_A_EXT 0x4";
    "#define P_A_EXT_X_SHIFT 0"; "#define P_A_EXT_X_BITS 1" ].

Definition extension_parsed : ParsedHeader :=
  mkParsedHeader
    [ ("P_A", RegAddrDesc.mk 0 "P_A"); ("P_A_EXT", RegAddrDesc.mk 4 "P_A_EXT") ]
    [ ("P_A_EXT_X", Props.mk (Some 0%Z) (Some 1%Z)) ]
    []
    [ ("P_A", "P"); ("P_A_EXT", "P") ]
    [ ("P_A", "A"); ("P_A_EXT", "A_EXT") ].

Definition extension_tree : Device.t :=
  Device.mk "D" ""
    [ ("P",
       Peripheral.mk "P" 0 "P Peripheral"
         [ ("A", Register.mk "A" "P_A" 0 32 []);
           ("A_EXT",
            Register.mk "A_EXT" "P_A_EXT" 4 32 [ Field.mk "X" "X" 0 1 ]) ]) ].

(** A header with the register [P_R] of the peripheral [P] and the define
    [XYZ], which no comment names, what the parse makes of it and the tree of
    the conversion. *)
Definition stray_header : list string :=
  [ "/* P :: R */"; "#define P_R 0x10 /* d */"; "#define XYZ 0x20" ].

Definition stray_parsed : ParsedHeader :=
  mkParsedHeader
    [ ("P_R", RegAddrDesc.mk 16 "d"); ("XYZ", RegAddrDesc.mk 32 "XYZ") ]
    [] [] [ ("P_R", "P") ] [ ("P_R", "R") ].

Definition stray_tree : Device.t :=
  Device.mk "D" ""
    [ ("P",
       Peripheral.mk "P" 16 "P Peripheral"
         [ ("R", Register.mk "R" "d" 0 32 []) ]) ].

(** ** Facts about strings *)

Module StrFacts.
Import Str.

Lemma append_nil_r (s : string) : s ++ "" = s.
Proof. induction s as [|a s IH]; simpl; [reflexivity | now rewrite IH]. Qed.

Lemma append_assoc (s t u : string) : (s ++ t) ++ u = s ++ (t ++ u).
Proof. induction s as [|a s IH]; simpl; [reflexivity | now rewrite IH]. Qed.

Lemma length_append (s t : string) :
  String.length (s ++ t) = String.length s + String.length t.
Proof. induction s as [|a s IH]; simpl; [reflexivity | now rewrite IH]. Qed.

Lemma startswith_iff (s p : string) :
  startswith s p = true <-> exists t, s = p ++ t.
Proof.
  revert s. induction p as [|b p IH]; intros s; simpl.
  - split; [intros _; now exists s | reflexivity].
  - destruct s as [|a s].
    + split; [discriminate | intros [t H]; discriminate].
    + rewrite andb_true_iff, Ascii.eqb_eq, IH. split.
      * intros [-> [t ->]]. now exists t.
      * intros [t H]. injection H as -> ->. split; [reflexivity | now exists t].
Qed.

Lemma startswith_app (p t : string) : startswith (p ++ t) p = true.
Proof. apply startswith_iff. now exists t. Qed.

(** Two prefixes of one string: the shorter is a prefix of the longer. *)
Lemma append_eq_split (p1 t1 p2 t2 : string) :
  p1 ++ t1 = p2 ++ t2 -> String.length p1 <= String.length p2 ->
  exists u, p2 = p1 ++ u /\ t1 = u ++ t2.
Proof.
  revert p2. induction p1 as [|a p1 IH]; intros p2 H L; simpl in *.
  - exists p2. now split.
  - destruct p2 as [|b p2]; simpl in *; [lia|].
    injection H as -> H. destruct (IH p2 H) as [u [-> ->]]; [lia|].
    exists u. now split.
Qed.

Lemma startswith_same_length (s p q : string) :
  startswith s p = true -> startswith s q = true ->
  String.length p = String.length q -> p = q.
Proof.
  intros Hp Hq L. apply startswith_iff in Hp as [t ->].
  apply startswith_iff in Hq as [u H].
  destruct (append_eq_split p t q u H) as [w [-> _]]; [lia|].
  rewrite length_append in L. destruct w; simpl in L; [|lia].
  now rewrite append_nil_r.
Qed.

Lemma startswith_shorter (s p q : string) :
  startswith s p = true -> startswith s q = true ->
  String.length p <= String.length q -> startswith q p = true.
Proof.
  intros Hp Hq L. apply startswith_iff in Hp as [t ->].
  apply startswith_iff in Hq as [u H].
  destruct (append_eq_split p t q u H) as [w [-> _]]; [lia|].
  apply startswith_app.
Qed.

Lemma startswith_trans (s q p : string) :
  startswith s q = true -> startswith q p = true -> startswith s p = true.
Proof.
  intros Hq Hp. apply startswith_iff in Hq as [t ->].
  apply startswith_iff in Hp as [u ->]. rewrite append_assoc.
  apply startswith_app.
Qed.

Lemma drop_app (p t : string) : drop (String.length p) (p ++ t) = t.
Proof. induction p as [|a p IH]; simpl; [now destruct t | exact IH]. Qed.



End StrFacts.

(** ** Facts about dictionaries *)

Module DictFacts.
Import Dict.

Section Facts.
Context {V : Type}.
Implicit Types (d : Dict.t V) (k : string) (v : V).

Lemma get_In k v d : get k d = Some v -> In (k, v) d.
Proof.
  induction d as [|[k' v'] d IH]; simpl; [discriminate|].
  destruct (String.eqb_spec k k') as [->|_].
  - intros H. injection H as ->. now left.
  - intros H. right. now apply IH.
Qed.

Lemma get_set_same k v d : get k (set k v d) = Some v.
Proof.
  induction d as [|[k' v'] d IH]; simpl.
  - now rewrite String.eqb_refl.
  - destruct (String.eqb_spec k k') as [->|N]; simpl.
    + now rewrite String.eqb_refl.
    + destruct (String.eqb_spec k k'); [contradiction | exact IH].
Qed.

Lemma get_set_other k k0 v d : k0 <> k -> get k0 (set k v d) = get k0 d.
Proof.
  intros N. induction d as [|[k' v'] d IH]; simpl.
  - destruct (String.eqb_spec k0 k); [contradiction | reflexivity].
  - destruct (String.eqb_spec k k') as [->|N']; simpl.
    + destruct (String.eqb_spec k0 k'); [contradiction | reflexivity].
    + destruct (String.eqb_spec k0 k'); [reflexivity | exact IH].
Qed.

Lemma in_set_inv k v k0 v0 d :
  In (k0, v0) (set k v d) -> (k0 = k /\ v0 = v) \/ In (k0, v0) d.
Proof.
  induction d as [|[k' v'] d IH]; simpl.
  - intros [E|[]]. injection E as <- <-. now left.
  - destruct (String.eqb_spec k k') as [->|N]; simpl.
    + intros [E|I]; [injection E as <- <-; now left | right; now right].
    + intros [E|I]; [right; now left|].
      destruct (IH I) as [H|H]; [now left | right; now right].
Qed.

Lemma in_upd_inv dflt k (f : V -> V) k0 v0 d :
  In (k0, v0) (upd dflt k f d) ->
  In (k0, v0) d \/
  (k0 = k /\ exists v, v0 = f v /\ (get k d = Some v \/ (get k d = None /\ v = dflt))).
Proof.
  unfold upd. destruct (get k d) as [v|] eqn:G; intros H;
    apply in_set_inv in H as [[-> ->]|H]; try (now left); right;
    (split; [reflexivity|]).
  - exists v. split; [reflexivity | now left].
  - exists dflt. split; [reflexivity | right; now split].
Qed.

Lemma get_upd_same dflt k (f : V -> V) d :
  get k (upd dflt k f d)
  = Some (f (match get k d with Some v => v | None => dflt end)).
Proof. unfold upd. destruct (get k d); apply get_set_same. Qed.

Lemma get_upd_other dflt k k0 (f : V -> V) d :
  k0 <> k -> get k0 (upd dflt k f d) = get k0 d.
Proof. unfold upd. intros N. destruct (get k d); now apply get_set_other. Qed.

End Facts.

End DictFacts.

(** ** Facts about [sorted] *)

Module SortedFacts.

Section Facts.
Context {A : Type} (ahead : A -> A -> bool).

Lemma in_insert_sorted (x y : A) (l : list A) :
  In y (insert_sorted ahead x l) <-> y = x \/ In y l.
Proof.
  induction l as [|z l IH]; simpl.
  - intuition.
  - destruct (ahead z x); simpl; [rewrite IH|]; intuition.
Qed.

Lemma in_sorted (y : A) (l : list A) : In y (sorted ahead l) <-> In y l.
Proof.
  induction l as [|x l IH]; simpl; [tauto|].
  rewrite in_insert_sorted, IH. intuition.
Qed.

Hypothesis ahead_asym : forall a b, ahead a b = true -> ahead b a = false.
Hypothesis before_trans :
  forall a b c, before ahead a b -> before ahead b c -> before ahead a c.

Lemma insert_sorted_ordered (x : A) (l : list A) :
  StronglySorted (before ahead) l -> StronglySorted (before ahead) (insert_sorted ahead x l).
Proof.
  induction 1 as [|z l Hl IH Hz]; simpl.
  - constructor; constructor.
  - destruct (ahead z x) eqn:E.
    + constructor; [exact IH|]. apply Forall_forall. intros y Hy.
      apply in_insert_sorted in Hy as [->|Hy].
      * now apply ahead_asym.
      * rewrite Forall_forall in Hz. now apply Hz.
    + constructor; [now constructor|]. constructor; [exact E|].
      apply Forall_forall. intros y Hy. rewrite Forall_forall in Hz.
      apply (before_trans x z y E). now apply Hz.
Qed.

Lemma sorted_ordered (l : list A) : StronglySorted (before ahead) (sorted ahead l).
Proof.
  induction l as [|x l IH]; simpl; [constructor|].
  now apply insert_sorted_ordered.
Qed.

(** In an ordered list, [find] returns [x] when every other element that
    passes the test is strictly behind [x]. *)
Lemma find_ordered (f : A -> bool) (x : A) (l : list A) :
  StronglySorted (before ahead) l -> In x l -> f x = true ->
  (forall y, In y l -> f y = true -> y = x \/ ahead x y = true) ->
  find f l = Some x.
Proof.
  induction 1 as [|z l Hl IH Hz]; intros Hx Fx Hy; simpl; [destruct Hx|].
  destruct (f z) eqn:Fz.
  - destruct (Hy z (or_introl eq_refl) Fz) as [->|Hxz]; [reflexivity|].
    destruct Hx as [->|Hx]; [reflexivity|].
    rewrite Forall_forall in Hz. specialize (Hz x Hx). unfold before in Hz.
    congruence.
  - destruct Hx as [->|Hx]; [congruence|].
    apply IH; [exact Hx | exact Fx|]. intros y I. apply Hy. now right.
Qed.

End Facts.

End SortedFacts.

(** ** The end-to-end example *)

(** C1, as stated, fails: on the five lines of the example the conversion
    does not produce the tree the example describes. *)
Lemma uart_example_counterexample :
  ~ exists dev err,
      parse_header_to_device_tree uart_header "Device Name"
        "Device Description" = Ok (dev, err)
      /\ describes_uart dev.
Proof.
  intros (dev & err & H & p & r & f & Hp & _).
  vm_compute in H. injection H as <- _. discriminate Hp.
Qed.

(** C1, amended.  On the five lines of the example the conversion returns a
    device without peripherals and prints one warning: the first line matches
    neither comment pattern, the third records the name [UART_UART_CTRL], and
    so the define [UART_CTRL] is attributed to no peripheral.  The tree of the
    example is what the conversion returns when the register comment is
    written [/* UART :: CTRL */], the description stands on the define and the
    field comment is [/* UART :: CTRL :: Enable bit [0:0] */]. *)
Theorem uart_example (device_name device_description : string) :
  parse_header_to_device_tree uart_header device_name device_description
  = Ok (Device.mk device_name device_description [], [warning "UART_CTRL"])
  /\ parse_header_lines uart_header
     = Ok (mkParsedHeader
             [("UART_CTRL", RegAddrDesc.mk 4096 "UART_CTRL")]
             [("UART_CTRL_ENABLE", Props.mk (Some 0%Z) (Some 1%Z))]
             []
             [("UART_UART_CTRL", "UART")]
             [("UART_UART_CTRL", "UART_CTRL")])
  /\ parse_header_to_device_tree uart_header_in_format device_name
       device_description
     = Ok (uart_tree device_name device_description, [])
  /\ describes_uart (uart_tree device_name device_description).
Proof.
  repeat split; try (vm_compute; reflexivity).
  unfold describes_uart, uart_tree. cbn.
  do 3 eexists. repeat split; reflexivity.
Qed.

(** ** Grouping *)

Module GroupFacts.
Import Dict DictFacts StrFacts.

Section Tables.
Variables fp fr : Dict.t string.

Lemma group_step_split (g : Groups) (e : list string)
    (it : string * RegAddrDesc.t) :
  group_step fp fr (g, e) it
  = (groups_step fp fr g it, (e ++ printed fp fr it)%list).
Proof.
  destruct it as [k ad]. unfold group_step, groups_step, printed. simpl.
  destruct (attributed fp fr k) as [[p r]|]; [|reflexivity].
  now rewrite app_nil_r.
Qed.

Lemma group_fold_split (l : Dict.t RegAddrDesc.t) :
  forall g e,
    fold_left (group_step fp fr) l (g, e)
    = (fold_left (groups_step fp fr) l g,
       (e ++ flat_map (printed fp fr) l)%list).
Proof.
  induction l as [|it l IH]; intros g e; cbn [fold_left flat_map].
  - now rewrite app_nil_r.
  - rewrite group_step_split, IH. now rewrite <- app_assoc.
Qed.

(** A register that is in a group stays there. *)
Lemma groups_step_keeps (g : Groups) it p x :
  (exists regs, get p g = Some regs /\ In x regs) ->
  exists regs, get p (groups_step fp fr g it) = Some regs /\ In x regs.
Proof.
  intros [regs [G I]]. unfold groups_step.
  destruct (attributed fp fr (fst it)) as [[p' r]|]; [|now exists regs].
  destruct (String.eqb_spec p p') as [->|N].
  - rewrite get_upd_same, G. eexists. split; [reflexivity|].
    apply in_or_app. now left.
  - rewrite get_upd_other by exact N. now exists regs.
Qed.

Lemma groups_fold_keeps (l : Dict.t RegAddrDesc.t) :
  forall (g : Groups) p x,
    (exists regs, get p g = Some regs /\ In x regs) ->
    exists regs,
      get p (fold_left (groups_step fp fr) l g) = Some regs /\ In x regs.
Proof.
  induction l as [|it l IH]; intros g p x H; simpl; [exact H|].
  apply IH. now apply groups_step_keeps.
Qed.

(** Every register that is attributed to a peripheral is in its group. *)
Lemma group_complete (l : Dict.t RegAddrDesc.t) :
  forall (g : Groups) k ad p r,
    In (k, ad) l -> attributed fp fr k = Some (p, r) ->
    exists regs,
      In (p, regs) (fold_left (groups_step fp fr) l g)
      /\ In (register_info r k ad) regs.
Proof.
  induction l as [|it l IH]; intros g k ad p r I A; [destruct I|].
  destruct I as [->|I]; simpl.
  - destruct (groups_fold_keeps l (groups_step fp fr g (k, ad)) p
                (register_info r k ad)) as [regs [G Hx]].
    + unfold groups_step. simpl. rewrite A, get_upd_same.
      eexists. split; [reflexivity|]. apply in_or_app. right. now left.
    + exists regs. split; [now apply get_In | exact Hx].
  - now apply IH.
Qed.

(** Every register of a group was attributed to its peripheral. *)
Lemma group_sound (l : Dict.t RegAddrDesc.t) :
  forall (g : Groups) p regs x,
    In (p, regs) (fold_left (groups_step fp fr) l g) -> In x regs ->
    (exists regs0, In (p, regs0) g /\ In x regs0)
    \/ exists k ad r,
         In (k, ad) l /\ attributed fp fr k = Some (p, r)
         /\ x = register_info r k ad.
Proof.
  induction l as [|[k ad] l IH]; intros g p regs x I Hx; simpl in I.
  - left. now exists regs.
  - destruct (IH _ _ _ _ I Hx) as [[regs0 [I0 Hx0]]|(k' & ad' & r & I' & A & E)].
    + unfold groups_step in I0. simpl in I0.
      destruct (attributed fp fr k) as [[p' r]|] eqn:A;
        [|left; now exists regs0].
      apply in_upd_inv in I0 as [I0|[-> (v & -> & Hv)]];
        [left; now exists regs0|].
      apply in_app_or in Hx0 as [Hx0|[<-|[]]].
      * left. destruct Hv as [G|[_ ->]]; [|destruct Hx0].
        exists v. split; [now apply get_In | exact Hx0].
      * right. exists k, ad, r. repeat split; [now left | exact A].
    + right. exists k', ad', r. repeat split; [now right | exact A | exact E].
Qed.

(** Without the entries of a register that is not attributed, the groups
    are the same. *)
Lemma groups_without (k : string) (l : Dict.t RegAddrDesc.t) :
  attributed fp fr k = None ->
  forall g : Groups,
    fold_left (groups_step fp fr) (remove k l) g
    = fold_left (groups_step fp fr) l g.
Proof.
  intros A. induction l as [|[k' ad] l IH]; intros g; simpl; [reflexivity|].
  destruct (String.eqb_spec k k') as [<-|N]; simpl.
  - rewrite IH. unfold groups_step at 3. simpl. now rewrite A.
  - apply IH.
Qed.

Lemma printed_warning (l : Dict.t RegAddrDesc.t) (k : string) :
  In k (keys l) -> attributed fp fr k = None ->
  In (warning k) (flat_map (printed fp fr) l).
Proof.
  intros I A. apply in_map_iff in I as [[k' ad] [E I]]. simpl in E. subst k'.
  apply in_flat_map. exists (k, ad). split; [exact I|].
  unfold printed. simpl. rewrite A. now left.
Qed.

(** Every line printed is the warning for a register of the table that is
    not attributed. *)
Lemma printed_only_warnings (l : Dict.t RegAddrDesc.t) (line : string) :
  In line (flat_map (printed fp fr) l) ->
  exists k, In k (keys l) /\ attributed fp fr k = None /\ line = warning k.
Proof.
  intros I. apply in_flat_map in I as [[k ad] [I P]]. unfold printed in P.
  simpl in P. destruct (attributed fp fr k) eqn:A; [destruct P|].
  destruct P as [<-|[]]. exists k. repeat split; [|exact A].
  apply in_map_iff. now exists (k, ad).
Qed.

End Tables.

Lemma find_all_false {A : Type} (f : A -> bool) (l : list A) :
  (forall x, In x l -> f x = false) -> find f l = None.
Proof.
  induction l as [|a l IH]; intros H; simpl; [reflexivity|].
  rewrite (H a (or_introl eq_refl)). apply IH. intros x I. apply H. now right.
Qed.

(** No direct association and no recorded name that the define starts
    with: the register is not attributed. *)
Lemma not_attributed (fp fr : Dict.t string) (k : string) :
  get k fp = None ->
  (forall r_fqn, In r_fqn (keys fp) -> Str.startswith k r_fqn = false) ->
  attributed fp fr k = None.
Proof.
  intros G H. unfold attributed, resolve, fallback. rewrite G. simpl.
  rewrite find_all_false; [reflexivity|].
  intros x I. apply H. unfold fqns_longest_first in I.
  now apply SortedFacts.in_sorted in I.
Qed.

End GroupFacts.

Module FallbackFacts.
Import Dict DictFacts StrFacts.

Lemma drop_app_plus (p t : string) (n : nat) :
  Str.drop (String.length p + n) (p ++ t) = Str.drop n t.
Proof. induction p as [|a p IH]; simpl; [reflexivity | exact IH]. Qed.

Lemma truthy_app_r (s t : string) :
  Str.truthy t = true -> Str.truthy (s ++ t) = true.
Proof. destruct s; simpl; [tauto | reflexivity]. Qed.

(** The fallback picks the recorded name [fqn] when the define starts with
    it and with no longer recorded name. *)
Lemma fallback_longest (fp : Dict.t string) (k fqn p : string) :
  get fqn fp = Some p ->
  Str.startswith k fqn = true ->
  (forall k', In k' (keys fp) -> String.length fqn < String.length k' ->
              Str.startswith k k' = false) ->
  fallback fp k = Some (p, Str.drop (String.length p + 1) k).
Proof.
  intros G S L. unfold fallback, fqns_longest_first.
  rewrite (SortedFacts.find_ordered
             (fun y x => (String.length x <? String.length y)%nat)
             (fun r => Str.startswith k r) fqn).
  - now rewrite G.
  - apply SortedFacts.sorted_ordered.
    + intros a b Hab. apply Nat.ltb_lt in Hab. apply Nat.ltb_ge. lia.
    + unfold before. intros a b c Hab Hbc.
      apply Nat.ltb_ge in Hab, Hbc. apply Nat.ltb_ge. lia.
  - apply SortedFacts.in_sorted. apply get_In in G.
    apply in_map_iff. now exists (fqn, p).
  - exact S.
  - intros y Iy Sy. apply SortedFacts.in_sorted in Iy.
    destruct (Nat.lt_trichotomy (String.length y) (String.length fqn))
      as [Lt|[Eq|Gt]].
    + right. now apply Nat.ltb_lt.
    + left. now apply (startswith_same_length k).
    + rewrite (L y Iy Gt) in Sy. discriminate.
Qed.

End FallbackFacts.

(** C2, as stated, fails: with the name [FOO_BAR] recorded for peripheral
    [FOO] and register [BAR], the define [FOO_BAR_BAZ] is not given the
    register name [BAZ]. *)
Lemma fallback_grouping_counterexample :
  attributed [("FOO_BAR", "FOO")] [("FOO_BAR", "BAR")] "FOO_BAR_BAZ"
  <> Some ("FOO", "BAZ").
Proof. vm_compute. discriminate. Qed.

(** C2, amended.  A define [P_R_S] without a direct association, when the
    name [P_R] is recorded for the peripheral [P] and no longer recorded name
    is a prefix of the define, is attributed to the peripheral [P] with the
    register name [R_S]: the fallback strips the name of the peripheral and
    one underscore, not the recorded name.  So [FOO_BAR_BAZ] becomes the
    register [BAR_BAZ] of [FOO], and that is the entry of the group. *)
Theorem fallback_grouping (fp fr : Dict.t string) (P R S : string)
    (registers_info : Dict.t RegAddrDesc.t) (ad : RegAddrDesc.t) :
  Str.truthy P = true ->
  Dict.get (P ++ "_" ++ R ++ "_" ++ S) fp = None ->
  Dict.get (P ++ "_" ++ R) fp = Some P ->
  (forall k, In k (Dict.keys fp) ->
             String.length (P ++ "_" ++ R) < String.length k ->
             Str.startswith (P ++ "_" ++ R ++ "_" ++ S) k = false) ->
  In (P ++ "_" ++ R ++ "_" ++ S, ad) registers_info ->
  attributed fp fr (P ++ "_" ++ R ++ "_" ++ S) = Some (P, R ++ "_" ++ S)
  /\ exists regs,
       In (P, regs)
          (fst (group_registers_by_peripheral registers_info fp fr))
       /\ In (register_info (R ++ "_" ++ S) (P ++ "_" ++ R ++ "_" ++ S) ad)
             regs.
Proof.
  intros HP G GF L I.
  assert (A : attributed fp fr (P ++ "_" ++ R ++ "_" ++ S)
              = Some (P, R ++ "_" ++ S)).
  { unfold attributed, resolve. rewrite G. simpl Str.otruthy. cbv iota.
    rewrite (FallbackFacts.fallback_longest fp _ (P ++ "_" ++ R) P GF).
    - rewrite FallbackFacts.drop_app_plus. simpl Str.drop.
      rewrite HP. rewrite FallbackFacts.truthy_app_r; [reflexivity|].
      reflexivity.
    - replace (P ++ "_" ++ R ++ "_" ++ S) with ((P ++ "_" ++ R) ++ "_" ++ S).
      + apply StrFacts.startswith_app.
      + rewrite StrFacts.append_assoc. reflexivity.
    - exact L. }
  split; [exact A|].
  unfold group_registers_by_peripheral.
  rewrite GroupFacts.group_fold_split. simpl fst.
  now apply GroupFacts.group_complete.
Qed.

(** The amended C2 at the tables of its counterexample. *)
Lemma fallback_grouping_witness :
  attributed [("FOO_BAR", "FOO")] [("FOO_BAR", "BAR")] "FOO_BAR_BAZ"
  = Some ("FOO", "BAR_BAZ")
  /\ exists regs,
       In ("FOO", regs)
          (fst (group_registers_by_peripheral
                  [("FOO_BAR_BAZ", RegAddrDesc.mk 16 "")]
                  [("FOO_BAR", "FOO")] [("FOO_BAR", "BAR")]))
       /\ In (register_info "BAR_BAZ" "FOO_BAR_BAZ" (RegAddrDesc.mk 16 ""))
             regs.
Proof.
  apply (fallback_grouping [("FOO_BAR", "FOO")] [("FOO_BAR", "BAR")]
           "FOO" "BAR" "BAZ" [("FOO_BAR_BAZ", RegAddrDesc.mk 16 "")]
           (RegAddrDesc.mk 16 "")).
  - reflexivity.
  - reflexivity.
  - reflexivity.
  - intros k [<-|[]] H. simpl in H. lia.
  - left. reflexivity.
Defined.

(** ** Building the tree *)

Module BuildFacts.
Import Dict DictFacts StrFacts.

Lemma in_fold_set_kv {X V : Type} (key : X -> string) (val : X -> V)
    (l : list X) :
  forall (d0 : Dict.t V) k v,
    In (k, v) (fold_left (fun acc x => set (key x) (val x) acc) l d0) ->
    In (k, v) d0 \/ exists x, In x l /\ k = key x /\ v = val x.
Proof.
  induction l as [|x l IH]; intros d0 k v H; simpl in H; [now left|].
  apply IH in H as [H|[y [I E]]].
  - apply in_set_inv in H as [[-> ->]|H]; [|now left].
    right. exists x. split; [now left | now split].
  - right. exists y. split; [now right | exact E].
Qed.

Lemma fold_min_le (l : list Z) :
  forall a, (fold_left Z.min l a <= a)%Z
            /\ (forall x, In x l -> (fold_left Z.min l a <= x)%Z)
            /\ (fold_left Z.min l a = a \/ In (fold_left Z.min l a) l).
Proof.
  induction l as [|y l IH]; intros a; simpl.
  - repeat split; [lia | tauto | now left].
  - destruct (IH (Z.min a y)) as (H1 & H2 & H3). repeat split.
    + lia.
    + intros x [<-|I]; [lia | now apply H2].
    + destruct H3 as [H3|H3]; [|right; now right].
      destruct (Z.min_spec a y) as [[_ E]|[_ E]]; rewrite E in *.
      * now left.
      * right. left. now symmetry.
Qed.

(** [min_addr] is the least address of the group. *)
Lemma min_addr_least (r0 : RegisterInfo.t) (rs : list RegisterInfo.t) :
  (forall r, In r (r0 :: rs) -> (min_addr r0 rs <= RegisterInfo.addr r)%Z)
  /\ exists r, In r (r0 :: rs) /\ RegisterInfo.addr r = min_addr r0 rs.
Proof.
  unfold min_addr.
  destruct (fold_min_le (map RegisterInfo.addr rs) (RegisterInfo.addr r0))
    as (H1 & H2 & H3).
  split.
  - intros r [<-|I]; [exact H1|]. apply H2. now apply in_map.
  - destruct H3 as [H3|H3].
    + exists r0. split; [now left | now symmetry].
    + apply in_map_iff in H3 as [r [E I]]. exists r. split; [now right | exact E].
Qed.

Section Tables.
Variables (fqns : list string) (fields_info : Dict.t Props.t)
          (field_descriptions : Dict.t string).

(** Every register of the dictionary of a peripheral was made from a
    register of the group. *)
Lemma in_add_registers base regs rn reg :
  In (rn, reg) (add_registers fqns fields_info field_descriptions base regs) ->
  exists r,
    In r regs /\ rn = RegisterInfo.reg_name r
    /\ reg = make_register fqns fields_info field_descriptions base r.
Proof.
  unfold add_registers. intros H.
  apply (in_fold_set_kv RegisterInfo.reg_name
           (make_register fqns fields_info field_descriptions base))
    in H as [[]|[r [I E]]].
  exists r. split; [|exact E]. unfold by_addr in I.
  now apply SortedFacts.in_sorted in I.
Qed.

(** Every peripheral of the tree was made from a group. *)
Lemma in_peripherals (l : Groups) :
  forall (d0 : Dict.t Peripheral.t) pn p,
    In (pn, p)
       (fold_left
          (fun acc g =>
             match make_peripheral fqns fields_info field_descriptions
                     (fst g) (snd g) with
             | Some p => set (Peripheral.name p) p acc
             | None => acc
             end) l d0) ->
    In (pn, p) d0
    \/ exists regs,
         In (pn, regs) l
         /\ make_peripheral fqns fields_info field_descriptions pn regs
            = Some p.
Proof.
  induction l as [|[n regs] l IH]; intros d0 pn p H; simpl in H; [now left|].
  apply IH in H as [H|[regs' [I E]]].
  - destruct (make_peripheral fqns fields_info field_descriptions n regs)
      as [q|] eqn:M; [|now left].
    apply in_set_inv in H as [[-> ->]|H]; [|now left].
    right. exists regs. assert (N : Peripheral.name q = n).
    { unfold make_peripheral in M. destruct regs; [discriminate|].
      injection M as <-. reflexivity. }
    rewrite N. split; [now left | exact M].
  - right. exists regs'. split; [now right | exact E].
Qed.

(** A field of a register comes from an entry of [fields_info] that the
    register owns and that has both properties. *)
Lemma in_field_of reg_define field_prefix props f :
  In f (field_of fqns field_descriptions reg_define (field_prefix, props)) ->
  owns fqns reg_define field_prefix = true
  /\ Props.bitOffset props = Some (Field.bit_offset f)
  /\ Props.bitWidth props = Some (Field.bit_width f)
  /\ Field.name f = Str.drop (String.length reg_define + 1) field_prefix
  /\ Field.description f
     = match get field_prefix field_descriptions with
       | Some d => d
       | None => Field.name f
       end.
Proof.
  unfold field_of.
  destruct (owns fqns reg_define field_prefix); [|intros []].
  destruct (Props.bitOffset props) as [o|]; [|intros []].
  destruct (Props.bitWidth props) as [w|]; [|intros []].
  intros [<-|[]]. simpl. repeat split.
Qed.

Lemma field_of_incomplete reg_define field_prefix props :
  complete props = false ->
  field_of fqns field_descriptions reg_define (field_prefix, props) = [].
Proof.
  unfold complete, field_of. intros H.
  destruct (owns fqns reg_define field_prefix); [|reflexivity].
  destruct (Props.bitOffset props); [|reflexivity].
  destruct (Props.bitWidth props); [discriminate | reflexivity].
Qed.

End Tables.

Lemma flat_map_filter {A B : Type} (f : A -> list B) (keep : A -> bool)
    (l : list A) :
  (forall x, In x l -> keep x = false -> f x = []) ->
  flat_map f (filter keep l) = flat_map f l.
Proof.
  induction l as [|a l IH]; intros H; simpl; [reflexivity|].
  destruct (keep a) eqn:K; simpl.
  - f_equal. apply IH. intros x I. apply H. now right.
  - rewrite (H a (or_introl eq_refl) K). simpl. apply IH.
    intros x I. apply H. now right.
Qed.

Lemma fold_left_same {A B : Type} (f g : A -> B -> A) (l : list B) :
  (forall a b, f a b = g a b) ->
  forall a, fold_left f l a = fold_left g l a.
Proof.
  intros E. induction l as [|b l IH]; intros a; simpl; [reflexivity|].
  now rewrite E, IH.
Qed.

(** Every field of the tree has the two properties of an entry of
    [fields_info]. *)
Lemma device_field_source (device_name device_description : string)
    (peripherals : Groups) (fields_info : Dict.t Props.t)
    (field_descriptions : Dict.t string) (f : Field.t) :
  In f (device_fields
          (build_device_tree device_name device_description peripherals
             fields_info field_descriptions)) ->
  exists field_prefix props,
    In (field_prefix, props) fields_info
    /\ Props.bitOffset props = Some (Field.bit_offset f)
    /\ Props.bitWidth props = Some (Field.bit_width f).
Proof.
  intros H. unfold device_fields in H.
  apply in_flat_map in H as [[pn p] [Ip H]]. cbn [snd] in H.
  apply in_flat_map in H as [[rn reg] [Ir H]]. cbn [snd] in H.
  unfold build_device_tree in Ip. cbn [Device.peripherals] in Ip.
  apply in_peripherals in Ip as [[]|[regs [_ M]]].
  unfold make_peripheral in M. destruct regs as [|r0 rs]; [discriminate|].
  injection M as <-. cbn [Peripheral.registers] in Ir.
  apply in_add_registers in Ir as [r [_ [_ ->]]].
  cbn [make_register Register.fields] in H. unfold register_fields in H.
  apply in_flat_map in H as [[field_prefix props] [Ie H]].
  apply in_field_of in H as (_ & Ho & Hw & _).
  now exists field_prefix, props.
Qed.

End BuildFacts.

(** C4.  Every peripheral of the tree comes from a group that is not empty
    (a group without registers gives no peripheral); its base address is the
    least address of the registers of the group, and every register stored in
    it is one of the group, at the offset of its address from the base, which
    is not negative. *)
Theorem base_address_minimal (device_name device_description : string)
    (peripherals : Groups) (fields_info : Dict.t Props.t)
    (field_descriptions : Dict.t string) (pn : string) (p : Peripheral.t) :
  In (pn, p)
     (Device.peripherals
        (build_device_tree device_name device_description peripherals
           fields_info field_descriptions)) ->
  exists regs,
    In (pn, regs) peripherals /\ regs <> [] /\ Peripheral.name p = pn
    /\ (exists r, In r regs
                  /\ RegisterInfo.addr r = Peripheral.base_address p)
    /\ (forall r, In r regs ->
                  (Peripheral.base_address p <= RegisterInfo.addr r)%Z)
    /\ (forall rn reg,
          In (rn, reg) (Peripheral.registers p) ->
          exists r,
            In r regs /\ rn = RegisterInfo.reg_name r
            /\ Register.name reg = RegisterInfo.reg_name r
            /\ Register.address_offset reg
               = (RegisterInfo.addr r - Peripheral.base_address p)%Z
            /\ (0 <= Register.address_offset reg)%Z).
Proof.
  unfold build_device_tree. cbn [Device.peripherals]. intros H.
  apply BuildFacts.in_peripherals in H as [[]|[regs [I M]]].
  exists regs. split; [exact I|].
  unfold make_peripheral in M. destruct regs as [|r0 rs]; [discriminate|].
  injection M as <-. cbn [Peripheral.name Peripheral.base_address
                          Peripheral.registers].
  destruct (BuildFacts.min_addr_least r0 rs) as [Hle [rm [Im Em]]].
  repeat split.
  - discriminate.
  - now exists rm.
  - exact Hle.
  - intros rn reg Hr. apply BuildFacts.in_add_registers in Hr as [r [Ir [-> ->]]].
    exists r. cbn. repeat split; [exact Ir|]. specialize (Hle r Ir). lia.
Qed.

(** C4 at a group of two registers. *)
Lemma base_address_minimal_witness :
  exists regs,
    In ("P", regs) sample_groups /\ regs <> []
    /\ Peripheral.name sample_peripheral = "P"
    /\ (exists r, In r regs
                  /\ RegisterInfo.addr r
                     = Peripheral.base_address sample_peripheral)
    /\ (forall r, In r regs ->
                  (Peripheral.base_address sample_peripheral
                   <= RegisterInfo.addr r)%Z)
    /\ (forall rn reg,
          In (rn, reg) (Peripheral.registers sample_peripheral) ->
          exists r,
            In r regs /\ rn = RegisterInfo.reg_name r
            /\ Register.name reg = RegisterInfo.reg_name r
            /\ Register.address_offset reg
               = (RegisterInfo.addr r
                  - Peripheral.base_address sample_peripheral)%Z
            /\ (0 <= Register.address_offset reg)%Z).
Proof.
  apply (base_address_minimal "D" "" sample_groups [] [] "P" sample_peripheral).
  vm_compute. left. reflexivity.
Defined.

(** C6.  Every field of the tree has the bit offset and the bit width of an
    entry of [fields_info] in which both are set; an entry in which one is
    missing adds no field to any register, and the tree is the one built
    without such entries.  Nothing is raised or printed for such an entry:
    [build_device_tree] is a total function that returns the tree only, the
    conversion returns whenever the parse does, and every line it prints is
    the warning for a register of [registers_info]. *)
Theorem fields_have_offset_and_width (device_name device_description : string)
    (peripherals : Groups) (fields_info : Dict.t Props.t)
    (field_descriptions : Dict.t string) :
  (forall f,
      In f (device_fields
              (build_device_tree device_name device_description peripherals
                 fields_info field_descriptions)) ->
      exists field_prefix props,
        In (field_prefix, props) fields_info
        /\ Props.bitOffset props = Some (Field.bit_offset f)
        /\ Props.bitWidth props = Some (Field.bit_width f))
  /\ (forall fqns reg_define field_prefix props,
        complete props = false ->
        field_of fqns field_descriptions reg_define (field_prefix, props)
        = [])
  /\ build_device_tree device_name device_description peripherals
       (filter (fun e => complete (snd e)) fields_info) field_descriptions
     = build_device_tree device_name device_description peripherals
         fields_info field_descriptions
  /\ (forall lines h,
        parse_header_lines lines = Ok h ->
        exists dev err,
          parse_header_to_device_tree lines device_name device_description
          = Ok (dev, err)
          /\ forall line,
               In line err ->
               exists reg_define,
                 In reg_define (Dict.keys (registers_info h))
                 /\ line = warning reg_define).
Proof.
  split; [|split; [|split]].
  - intros f H. now apply BuildFacts.device_field_source in H.
  - intros. now apply BuildFacts.field_of_incomplete.
  - unfold build_device_tree. f_equal.
    assert (E : forall fqns rd,
               register_fields fqns
                 (filter (fun e => complete (snd e)) fields_info)
                 field_descriptions rd
               = register_fields fqns fields_info field_descriptions rd).
    { intros fqns rd. unfold register_fields.
      apply BuildFacts.flat_map_filter. intros [fp props] _ K.
      now apply BuildFacts.field_of_incomplete. }
    assert (R : forall fqns base regs,
               add_registers fqns
                 (filter (fun e => complete (snd e)) fields_info)
                 field_descriptions base regs
               = add_registers fqns fields_info field_descriptions base regs).
    { intros fqns base regs. unfold add_registers.
      apply BuildFacts.fold_left_same. intros acc r. unfold make_register.
      now rewrite E. }
    apply BuildFacts.fold_left_same. intros acc [pn regs]. cbn [fst snd].
    unfold make_peripheral. destruct regs as [|r0 rs]; [reflexivity|].
    now rewrite R.
  - intros lines h H. unfold parse_header_to_device_tree. rewrite H.
    cbn [bind]. unfold group_registers_by_peripheral.
    rewrite GroupFacts.group_fold_split. cbn [app].
    eexists. eexists. split; [reflexivity|].
    intros line I.
    destruct (GroupFacts.printed_only_warnings _ _ _ _ I) as (k & Ik & _ & E).
    now exists k.
Qed.

(** C6 at the two entries of [sample_fields]: the field of the tree is the
    one of the entry that has both properties. *)
Lemma fields_have_offset_and_width_witness :
  exists field_prefix props,
    In (field_prefix, props) sample_fields
    /\ Props.bitOffset props = Some 3%Z
    /\ Props.bitWidth props = Some 2%Z.
Proof.
  apply (proj1 (fields_have_offset_and_width "D" "" sample_groups
                  sample_fields []) (Field.mk "F" "F" 3 2)).
  vm_compute. left. reflexivity.
Defined.

(** ** Ownership of a field prefix *)

Module OwnerFacts.
Import StrFacts.

(** A define that is longer than [a] and that the prefix [a_X] extends with
    an underscore has the form [a_Y], where [Y_] is a prefix of [X]. *)
Lemma longer_owner_shape (a X m : string) :
  Str.startswith (a ++ "_" ++ X) (m ++ "_") = true ->
  String.length a < String.length m ->
  exists Y, m = a ++ "_" ++ Y /\ Str.startswith X (Y ++ "_") = true.
Proof.
  intros S L. apply startswith_iff in S as [t E].
  rewrite append_assoc in E.
  destruct (append_eq_split a ("_" ++ X) m ("_" ++ t) E) as [u [-> Eu]];
    [lia|].
  rewrite length_append in L. destruct u as [|c u]; simpl in L; [lia|].
  simpl in Eu. injection Eu as <- ->.
  exists u. split; [reflexivity|]. apply startswith_iff. exists t.
  rewrite append_assoc. reflexivity.
Qed.

Lemma startswith_app_l (s p t : string) :
  Str.startswith s (p ++ t) = true -> Str.startswith s p = true.
Proof.
  intros H. apply (startswith_trans s (p ++ t) p H). apply startswith_app.
Qed.

Section Owner.
Variables (fqns : list string) (a X : string).

(** No define of the form [a_Y], with [Y_] a prefix of [X], is known. *)
Hypothesis most_specific :
  forall Y, In (a ++ "_" ++ Y) fqns -> Str.startswith X (Y ++ "_") = false.

Lemma owner_owns : owns fqns a (a ++ "_" ++ X) = true.
Proof.
  unfold owns. rewrite <- append_assoc, startswith_app. simpl.
  rewrite append_assoc. apply negb_true_iff.
  destruct (is_more_specific_match fqns a (a ++ "_" ++ X)) eqn:M;
    [|reflexivity].
  unfold is_more_specific_match in M.
  apply existsb_exists in M as [m [I H]].
  apply andb_true_iff in H as [H H3]. apply andb_true_iff in H as [H1 _].
  apply Nat.ltb_lt in H1.
  destruct (longer_owner_shape a X m H3 H1) as [Y [-> SY]].
  rewrite (most_specific Y I) in SY. discriminate.
Qed.

Lemma owner_unique (m : string) :
  In a fqns -> In m fqns -> owns fqns m (a ++ "_" ++ X) = true -> m = a.
Proof.
  intros Ia Im O. unfold owns in O. apply andb_true_iff in O as [S M].
  apply negb_true_iff in M.
  assert (Sa : Str.startswith (a ++ "_" ++ X) (a ++ "_") = true).
  { rewrite <- append_assoc. apply startswith_app. }
  pose proof (startswith_app_l _ _ _ S) as Sm.
  pose proof (startswith_app_l _ _ _ Sa) as Saa.
  destruct (Nat.lt_trichotomy (String.length m) (String.length a))
    as [Lt|[Eq|Gt]].
  - exfalso. unfold is_more_specific_match in M.
    assert (T : existsb
                  (fun o =>
                     (String.length m <? String.length o)%nat
                     && Str.startswith o m
                     && Str.startswith (a ++ "_" ++ X) (o ++ "_")) fqns
                = true).
    { apply existsb_exists. exists a. split; [exact Ia|].
      apply Nat.ltb_lt in Lt. rewrite Lt, Sa.
      rewrite (startswith_shorter (a ++ "_" ++ X) m a Sm Saa); [reflexivity|].
      apply Nat.ltb_lt in Lt. lia. }
    congruence.
  - now apply (startswith_same_length (a ++ "_" ++ X)).
  - exfalso. destruct (longer_owner_shape a X m S Gt) as [Y [-> SY]].
    rewrite (most_specific Y Im) in SY. discriminate.
Qed.

End Owner.

(** A shorter define never owns a prefix that a known longer define, which
    starts with it, extends with an underscore. *)
Lemma shorter_never_owns (fqns : list string) (a e X : string) :
  In (a ++ "_" ++ e) fqns ->
  owns fqns a ((a ++ "_" ++ e) ++ "_" ++ X) = false.
Proof.
  intros I. unfold owns. apply andb_false_iff. right.
  apply negb_false_iff. unfold is_more_specific_match.
  apply existsb_exists. exists (a ++ "_" ++ e). split; [exact I|].
  rewrite <- (append_assoc (a ++ "_" ++ e) "_" X) at 1.
  rewrite !startswith_app. rewrite length_append. simpl.
  rewrite andb_true_r, andb_true_r. apply Nat.ltb_lt. lia.
Qed.

End OwnerFacts.

(** ** What the patterns capture *)

Module ReFacts.
Import Re StrFacts.

Lemma take_app_length (w s : string) :
  Str.take (String.length (w ++ s) - String.length s) (w ++ s) = w.
Proof.
  rewrite length_append. replace (_ + _ - _) with (String.length w) by lia.
  induction w as [|a w IH]; simpl; [now destruct s | now rewrite IH].
Qed.

Lemma star_greedy_sound (p : ascii -> bool) (s : string) k res :
  star_greedy p s k = Some res ->
  exists w s', s = w ++ s' /\ Str.all_chars p w = true /\ k s' = Some res.
Proof.
  induction s as [|a s IH]; simpl; intros H.
  - exists "", "". now repeat split.
  - destruct (p a) eqn:Pa; [|exists "", (String a s); now repeat split].
    destruct (star_greedy p s k) as [r|] eqn:G.
    + injection H as ->. destruct (IH eq_refl) as (w & s' & -> & A & K).
      exists (String a w), s'. repeat split; [|exact K].
      unfold Str.all_chars in *. simpl. now rewrite Pa.
    + exists "", (String a s). now repeat split.
Qed.

Lemma star_lazy_sound (p : ascii -> bool) (s : string) k res :
  star_lazy p s k = Some res ->
  exists w s', s = w ++ s' /\ Str.all_chars p w = true /\ k s' = Some res.
Proof.
  induction s as [|a s IH]; simpl; intros H.
  - destruct (k "") eqn:K; [|discriminate]. injection H as ->.
    exists "", "". now repeat split.
  - destruct (k (String a s)) eqn:K.
    + injection H as ->. exists "", (String a s). now repeat split.
    + destruct (p a) eqn:Pa; [|discriminate].
      destruct (IH H) as (w & s' & -> & A & K').
      exists (String a w), s'. repeat split; [|exact K'].
      unfold Str.all_chars in *. simpl. now rewrite Pa.
Qed.

Lemma plus_sound (p : ascii -> bool) (a : ascii) (s : string) w s' :
  p a = true -> s = w ++ s' -> Str.all_chars p w = true ->
  String a s = String a w ++ s'
  /\ Str.all_chars p (String a w) = true
  /\ Str.truthy (String a w) = true.
Proof.
  intros Pa -> A. repeat split. unfold Str.all_chars in *. simpl.
  now rewrite Pa.
Qed.

(** Whatever way [run] finds to match, the text consumed and the groups
    set are as [matches] says. *)
Lemma run_sound (n0 : nat) (r : regex) :
  forall s c k res,
    run n0 r s c k = Some res ->
    exists w s' c', s = w ++ s' /\ matches r w c c' /\ k s' c' = Some res.
Proof.
  induction r as [|l|r1 IH1 r2 IH2|r1 IH1 r2 IH2|i r IH|r IH|p|p|p|p];
    intros s c k res H; cbn [run] in H.
  - destruct (String.length s =? n0)%nat; [|discriminate].
    exists "", s, c. now repeat split.
  - destruct (Str.startswith s l) eqn:S; [|discriminate].
    apply startswith_iff in S as [t ->]. rewrite drop_app in H.
    exists l, t, c. now repeat split.
  - apply IH1 in H as (w1 & s1 & c1 & -> & M1 & H).
    apply IH2 in H as (w2 & s2 & c2 & -> & M2 & H).
    exists (w1 ++ w2), s2, c2. rewrite append_assoc. repeat split; [|exact H].
    cbn [matches]. now exists w1, w2, c1.
  - destruct (run n0 r1 s c k) as [x|] eqn:R1.
    + injection H as ->. apply IH1 in R1 as (w & s' & c' & -> & M & K).
      exists w, s', c'. repeat split; [|exact K]. now left.
    + apply IH2 in H as (w & s' & c' & -> & M & K).
      exists w, s', c'. repeat split; [|exact K]. now right.
  - apply IH in H as (w & s' & c' & -> & M & K).
    rewrite take_app_length in K.
    exists w, s', ((i, w) :: c'). repeat split; [|exact K].
    cbn [matches]. now exists c'.
  - destruct (run n0 r s c k) as [x|] eqn:R1.
    + injection H as ->. apply IH in R1 as (w & s' & c' & -> & M & K).
      exists w, s', c'. repeat split; [|exact K]. now left.
    + exists "", s, c. repeat split; [|exact H]. now right.
  - apply star_greedy_sound in H as (w & s' & -> & A & K).
    exists w, s', c. now repeat split.
  - destruct s as [|a s]; [discriminate|].
    destruct (p a) eqn:Pa; [|discriminate].
    apply star_greedy_sound in H as (w & s' & E & A & K).
    destruct (plus_sound p a s w s' Pa E A) as (E' & A' & T).
    exists (String a w), s', c. now repeat split.
  - apply star_lazy_sound in H as (w & s' & -> & A & K).
    exists w, s', c. now repeat split.
  - destruct s as [|a s]; [discriminate|].
    destruct (p a) eqn:Pa; [|discriminate].
    apply star_lazy_sound in H as (w & s' & E & A & K).
    destruct (plus_sound p a s w s' Pa E A) as (E' & A' & T).
    exists (String a w), s', c. now repeat split.
Qed.

Lemma pmatch_sound (r : regex) (s : string) (c : captures) :
  pmatch r s = Some c -> exists w, matches r w [] c.
Proof.
  unfold pmatch, at_here. intros H.
  apply run_sound in H as (w & s' & c' & _ & M & K). injection K as <-.
  now exists w.
Qed.

(** The name and the value of a define that [DEFINE_RE] matches. *)
Lemma define_groups_shape (line name value_str : string)
    (comment : option string) :
  define_groups line = Some (name, value_str, comment) ->
  Str.truthy name = true /\ Str.all_chars Str.is_word name = true
  /\ (hex_literal value_str \/ decimal_literal value_str).
Proof.
  unfold define_groups. destruct (pmatch DEFINE_RE line) as [c|] eqn:P;
    [|discriminate].
  apply pmatch_sound in P as [w M]. unfold DEFINE_RE in M. cbn [matches] in M.
  destruct M as (w1 & w2 & c1 & _ & [_ ->] & M).
  destruct M as (w3 & w4 & c2 & _ & [_ ->] & M).
  destruct M as (w5 & w6 & c3 & _ & (_ & _ & ->) & M).
  destruct M as (w7 & w8 & c4 & _ & (c5 & (A1 & T1 & ->) & ->) & M).
  destruct M as (w9 & w10 & c6 & _ & (_ & _ & ->) & M).
  destruct M as (w11 & w12 & c7 & _ & (c8 & V & ->) & M).
  destruct M as (w13 & w14 & c9 & _ & (_ & ->) & M).
  assert (G : Re.group 1 c = Some w7 /\ Re.group 2 c = Some w11).
  { destruct M as [M|[_ ->]].
    - destruct M as (x1 & x2 & d1 & _ & [_ ->] & M).
      destruct M as (x3 & x4 & d2 & _ & [_ ->] & M).
      destruct M as (x5 & x6 & d3 & _ & (d4 & [_ ->] & ->) & M).
      destruct M as (x7 & x8 & d5 & _ & [_ ->] & [_ ->]).
      destruct V as [V|V].
      + destruct V as (y1 & y2 & e1 & _ & [_ ->] & (_ & _ & ->)).
        split; reflexivity.
      + destruct V as (_ & _ & ->). split; reflexivity.
    - destruct V as [V|V].
      + destruct V as (y1 & y2 & e1 & _ & [_ ->] & (_ & _ & ->)).
        split; reflexivity.
      + destruct V as (_ & _ & ->). split; reflexivity. }
  destruct G as [G1 G2]. rewrite G1, G2. intros E. injection E as <- <- _.
  repeat split; [exact T1 | exact A1|].
  destruct V as [V|V].
  - left. destruct V as (y1 & y2 & e1 & -> & [-> _] & (A & T & _)).
    now exists y2.
  - right. destruct V as (A & T & _). now split.
Qed.

End ReFacts.

(** ** Facts about [int] *)

Module PyIntFacts.
Import PyInt StrFacts.

Lemma digit_val_nonneg (c : ascii) :
  Str.is_hex c = true -> (0 <= digit_val c)%Z.
Proof.
  destruct c as [[] [] [] [] [] [] [] []]; vm_compute; try discriminate;
    intros _ H; discriminate H.
Qed.

Lemma of_digits_nonneg (base : Z) (s : string) :
  (0 < base)%Z ->
  forall acc, (0 <= acc)%Z -> Str.all_chars Str.is_hex s = true ->
              (0 <= of_digits base acc s)%Z.
Proof.
  intros B. induction s as [|a s IH]; intros acc A H; simpl; [exact A|].
  unfold Str.all_chars in H. simpl in H. apply andb_true_iff in H as [Ha Hs].
  apply IH; [|exact Hs]. pose proof (digit_val_nonneg a Ha). nia.
Qed.

Lemma digits_are_hex (s : string) :
  Str.all_chars Str.is_digit s = true -> Str.all_chars Str.is_hex s = true.
Proof.
  unfold Str.all_chars. induction (list_ascii_of_string s) as [|a l IH];
    simpl; [reflexivity|].
  intros H. apply andb_true_iff in H as [Ha Hl].
  rewrite (IH Hl), andb_true_r. unfold Str.is_hex. now rewrite Ha.
Qed.

Lemma hex_digits_nonneg (d : string) (n : Z) :
  hex_digits d = Ok n -> (0 <= n)%Z.
Proof.
  unfold hex_digits.
  destruct (Str.truthy d && Str.all_chars Str.is_hex d) eqn:E;
    [|discriminate].
  apply andb_true_iff in E as [_ A]. intros H. injection H as <-.
  apply of_digits_nonneg; [lia | lia | exact A].
Qed.

(** [int(s, 0)] is never negative. *)
Lemma int0_nonneg (s : string) (n : Z) : int0 s = Ok n -> (0 <= n)%Z.
Proof.
  unfold int0. destruct (has_hex_prefix s); [apply hex_digits_nonneg|].
  destruct (Str.truthy s && Str.all_chars Str.is_digit s) eqn:E;
    [|discriminate].
  apply andb_true_iff in E as [_ A].
  destruct (int_max_str_digits <? String.length s)%nat; [discriminate|].
  destruct (Str.startswith s "0" && negb (of_digits 10 0 s =? 0)%Z);
    [discriminate|].
  intros H. injection H as <-.
  apply of_digits_nonneg; [lia | lia | now apply digits_are_hex].
Qed.

(** [int(s, 16)] of [0x] and hexadecimal digits does not raise. *)
Lemma int16_hex_literal (v : string) :
  hex_literal v -> exists n, int16 v = Ok n.
Proof.
  intros (h & -> & T & A). unfold int16.
  replace (has_hex_prefix ("0x" ++ h)) with true by reflexivity.
  change (Str.drop 2 ("0x" ++ h)) with h. unfold hex_digits.
  rewrite T, A. now eexists.
Qed.

(** A run of decimal digits does not start with [0x]. *)
Lemma decimal_not_hex (v : string) :
  decimal_literal v -> Str.startswith v "0x" = false.
Proof.
  intros [_ A]. destruct v as [|a [|b v]];
    [reflexivity | simpl; apply andb_false_r|].
  unfold Str.all_chars in A. cbn [list_ascii_of_string forallb] in A.
  apply andb_true_iff in A as [_ A]. apply andb_true_iff in A as [B _].
  simpl. destruct (Ascii.eqb_spec a "0"); [|reflexivity].
  destruct (Ascii.eqb_spec b "x") as [->|]; [discriminate B | reflexivity].
Qed.

End PyIntFacts.

(** ** The loop of [parse_header_lines] *)

Module ParseFacts.
Import Dict DictFacts StrFacts.

Lemma rsplit1_join (s p q : string) :
  Str.rsplit1 "_" s = Some (p, q) -> s = p ++ "_" ++ q.
Proof.
  revert p q. induction s as [|a s IH]; intros p q; cbn [Str.rsplit1];
    [discriminate|].
  destruct (Str.rsplit1 "_" s) as [[p' q']|].
  - intros H. injection H as <- <-. simpl. now rewrite (IH p' q' eq_refl).
  - destruct (Ascii.eqb_spec a "_") as [->|]; [|discriminate].
    intros H. injection H as <- <-. reflexivity.
Qed.

Lemma mem_false {V : Type} (k : string) (d : Dict.t V) :
  mem k d = false -> get k d = None.
Proof. unfold mem. destruct (get k d); [discriminate | reflexivity]. Qed.

Lemma mem_true {V : Type} (k : string) (d : Dict.t V) (v : V) :
  get k d = Some v -> mem k d = true.
Proof. unfold mem. now intros ->. Qed.

(** The comments of a line touch the two name tables and the pending field
    comment only. *)
Lemma on_comments_tables (st : ParseState) (line : string) :
  registers_info (parsed (on_comments st line)) = registers_info (parsed st)
  /\ fields_info (parsed (on_comments st line)) = fields_info (parsed st)
  /\ field_descriptions (parsed (on_comments st line))
     = field_descriptions (parsed st).
Proof.
  unfold on_comments.
  destruct (field_comment_groups line) as [[[p r] d]|];
    [|destruct (register_comment_groups line) as [[p r]|]];
    try (destruct (Str.truthy p && Str.truthy r
                   && negb (Str.contains r "::"));
         [destruct (mem _ (reg_fqn_to_periph (parsed st)))|]);
    repeat split.
Qed.

(** What the branch of a field property does to the state. *)
Lemma on_field_prop_inv (st st' : ParseState) (name value_str : string) :
  on_field_prop st name value_str = Ok st' ->
  exists prefix prop value,
    Str.rsplit1 "_" name = Some (prefix, prop)
    /\ PyInt.int0 value_str = Ok value
    /\ registers_info (parsed st') = registers_info (parsed st)
    /\ fields_info (parsed st')
       = (if String.eqb prop "SHIFT" then
            upd Props.empty prefix (Props.set_bitOffset value)
              (fields_info (parsed st))
          else if String.eqb prop "BITS" then
            upd Props.empty prefix (Props.set_bitWidth value)
              (fields_info (parsed st))
          else fields_info (parsed st))
    /\ (field_descriptions (parsed st') = field_descriptions (parsed st)
        \/ exists key_base d,
             last_field_info st = Some (key_base, d)
             /\ Str.startswith prefix key_base = true
             /\ get prefix (field_descriptions (parsed st)) = None
             /\ field_descriptions (parsed st')
                = set prefix d (field_descriptions (parsed st)))
    /\ (last_field_info st' = last_field_info st
        \/ exists key_base d,
             last_field_info st = Some (key_base, d)
             /\ Str.startswith prefix key_base = true
             /\ last_field_info st' = None).
Proof.
  unfold on_field_prop.
  destruct (Str.rsplit1 "_" name) as [[prefix prop]|]; [|discriminate].
  destruct (PyInt.int0 value_str) as [value|]; [|discriminate].
  cbn [bind]. intros H. exists prefix, prop, value.
  split; [reflexivity|]. split; [reflexivity|].
  destruct (last_field_info st) as [[key_base d]|] eqn:L.
  - destruct (Str.startswith prefix key_base) eqn:S.
    + destruct (String.eqb prop "SHIFT"), (String.eqb prop "BITS");
        cbn [field_descriptions set_fields_info] in H;
        destruct (mem prefix (field_descriptions (parsed st))) eqn:M;
        injection H as <-; cbn;
        repeat split; try (now left);
        try (right; exists key_base, d; now repeat split);
        try (apply mem_false in M; right; exists key_base, d;
             now repeat split).
    + destruct (String.eqb prop "SHIFT"), (String.eqb prop "BITS");
        injection H as <-; cbn; repeat split; now left.
  - destruct (String.eqb prop "SHIFT"), (String.eqb prop "BITS");
      injection H as <-; cbn; repeat split; now left.
Qed.

End ParseFacts.

Module StepFacts.
Import Dict DictFacts StrFacts ParseFacts.

(** The three ways through the body of [if m_def:]. *)
Lemma on_define_cases (st st' : ParseState) (name value_str : string)
    (comment : option string) :
  on_define st name value_str comment = Ok st' ->
  (is_field_prop name comment = true
   /\ on_field_prop st name value_str = Ok st')
  \/ (is_field_prop name comment = false
      /\ Str.startswith value_str "0x" = true
      /\ exists value,
           PyInt.int16 value_str = Ok value
           /\ st' = mkParseState
                      (set_registers_info
                         (set name
                            (RegAddrDesc.mk value
                               (register_description name comment))
                            (registers_info (parsed st))) (parsed st))
                      (last_field_info st))
  \/ (is_field_prop name comment = false
      /\ Str.startswith value_str "0x" = false /\ st' = st).
Proof.
  unfold on_define. destruct (is_field_prop name comment).
  - intros H. left. now split.
  - destruct (Str.startswith value_str "0x").
    + destruct (PyInt.int16 value_str) as [value|]; [|discriminate].
      cbn [bind]. intros H. injection H as <-. right. left.
      repeat split. now exists value.
    + intros H. injection H as <-. right. right. now repeat split.
Qed.

(** One turn of the loop: the reset of the pending comment, the define,
    the comments. *)
Lemma step_cases (st st' : ParseState) (raw : string) :
  step st raw = Ok st' ->
  exists st1 st2,
    parsed st1 = parsed st
    /\ st' = on_comments st2 (Str.strip raw)
    /\ match define_groups (Str.strip raw) with
       | Some (name, value_str, comment) =>
           on_define st1 name value_str comment = Ok st2
       | None => st2 = st1
       end.
Proof.
  unfold step.
  set (st1 := if negb (keeps_context (Str.strip raw))
              then mkParseState (parsed st) None else st).
  assert (P : parsed st1 = parsed st).
  { unfold st1. now destruct (negb (keeps_context (Str.strip raw))). }
  destruct (define_groups (Str.strip raw)) as [[[n v] c]|].
  - destruct (on_define st1 n v c) as [st2|] eqn:D; [|discriminate].
    cbn [bind]. intros H. injection H as <-. now exists st1, st2.
  - cbn [bind]. intros H. injection H as <-. now exists st1, st1.
Qed.

(** A turn of the loop changes [registers_info] as [register_definition]
    says. *)
Lemma step_registers_info (st st' : ParseState) (raw : string) :
  step st raw = Ok st' ->
  registers_info (parsed st')
  = match register_definition raw with
    | Some (name, rd) => set name rd (registers_info (parsed st))
    | None => registers_info (parsed st)
    end.
Proof.
  intros H. apply step_cases in H as (st1 & st2 & P & -> & D).
  destruct (on_comments_tables st2 (Str.strip raw)) as [-> _].
  unfold register_definition.
  destruct (define_groups (Str.strip raw)) as [[[n v] c]|];
    [|subst st2; now rewrite P].
  apply on_define_cases in D
    as [[F D]|[(F & S & value & I & ->)|(F & S & ->)]]; rewrite F.
  - apply on_field_prop_inv in D as (_ & _ & _ & _ & _ & R & _).
    cbn. now rewrite R, P.
  - rewrite S, I. cbn. now rewrite P.
  - rewrite S. cbn. now rewrite P.
Qed.

(** A turn of the loop keeps the descriptions that are recorded. *)
Lemma step_description_kept (st st' : ParseState) (raw p d : string) :
  get p (field_descriptions (parsed st)) = Some d ->
  step st raw = Ok st' ->
  get p (field_descriptions (parsed st')) = Some d.
Proof.
  intros G H. apply step_cases in H as (st1 & st2 & P & -> & D).
  destruct (on_comments_tables st2 (Str.strip raw)) as (_ & _ & ->).
  destruct (define_groups (Str.strip raw)) as [[[n v] c]|];
    [|subst st2; now rewrite P].
  apply on_define_cases in D
    as [[F D]|[(F & S & value & I & ->)|(F & S & ->)]];
    [|cbn; now rewrite P | now rewrite P].
  apply on_field_prop_inv in D
    as (prefix & prop & value & _ & _ & _ & _ & [E|(kb & d' & _ & _ & N & E)] & _);
    rewrite E, P; [exact G|].
  rewrite get_set_other; [exact G|].
  intros ->. rewrite P in N. congruence.
Qed.

Lemma run_lines_app (l1 l2 : list string) :
  forall st,
    run_lines st (l1 ++ l2)%list
    = bind (run_lines st l1) (fun st' => run_lines st' l2).
Proof.
  induction l1 as [|l l1 IH]; intros st; simpl; [reflexivity|].
  destruct (step st l) as [st'|]; cbn [bind]; [apply IH | reflexivity].
Qed.

Lemma run_lines_description_kept (lines : list string) (p d : string) :
  forall st st',
    get p (field_descriptions (parsed st)) = Some d ->
    run_lines st lines = Ok st' ->
    get p (field_descriptions (parsed st')) = Some d.
Proof.
  induction lines as [|l lines IH]; intros st st' G H; simpl in H.
  - now injection H as <-.
  - destruct (step st l) as [st1|] eqn:S; [|discriminate]. cbn [bind] in H.
    apply (IH st1 st'); [|exact H]. now apply (step_description_kept st st1 l).
Qed.

(** Lines that do not define the register [name] keep its entry. *)
Lemma run_lines_register_kept (lines : list string) (name : string)
    (rd : RegAddrDesc.t) :
  (forall l, In l lines -> forall rd', register_definition l <> Some (name, rd')) ->
  forall st st',
    get name (registers_info (parsed st)) = Some rd ->
    run_lines st lines = Ok st' ->
    get name (registers_info (parsed st')) = Some rd.
Proof.
  induction lines as [|l lines IH]; intros N st st' G H; simpl in H.
  - now injection H as <-.
  - destruct (step st l) as [st1|] eqn:S; [|discriminate]. cbn [bind] in H.
    apply (IH (fun l' I => N l' (or_intror I)) st1 st'); [|exact H].
    rewrite (step_registers_info st st1 l S).
    destruct (register_definition l) as [[n rd']|] eqn:R; [|exact G].
    rewrite get_set_other; [exact G|].
    intros ->. now apply (N l (or_introl eq_refl) rd').
Qed.

End StepFacts.

(** ** The classification of a define *)

Module ClassFacts.
Import StrFacts.



End ClassFacts.



(** ** Two definitions of one register *)

Module RegisterFacts.
Import Dict DictFacts.

(** A define that is matched, is not a field property and has a value
    that starts with [0x] is a register definition. *)
Lemma register_definition_of (raw name value_str : string)
    (comment : option string) :
  define_groups (Str.strip raw) = Some (name, value_str, comment) ->
  is_field_prop name comment = false ->
  Str.startswith value_str "0x" = true ->
  exists value,
    PyInt.int16 value_str = Ok value
    /\ register_definition raw
       = Some (name, RegAddrDesc.mk value (register_description name comment)).
Proof.
  intros D F S.
  destruct (ReFacts.define_groups_shape _ _ _ _ D) as (_ & _ & [V|V]).
  - destruct (PyIntFacts.int16_hex_literal value_str V) as [value I].
    exists value. split; [exact I|].
    unfold register_definition. now rewrite D, F, S, I.
  - rewrite (PyIntFacts.decimal_not_hex value_str V) in S. discriminate.
Qed.

(** A register definition never raises, and enters its register. *)
Lemma step_register_definition (raw name : string) (rd : RegAddrDesc.t)
    (st : ParseState) :
  register_definition raw = Some (name, rd) ->
  exists st',
    step st raw = Ok st'
    /\ get name (registers_info (parsed st')) = Some rd.
Proof.
  intros R.
  assert (E : exists st', step st raw = Ok st').
  { unfold register_definition in R. unfold step.
    destruct (define_groups (Str.strip raw)) as [[[n v] c]|]; [|discriminate].
    unfold on_define.
    destruct (is_field_prop n c); [discriminate|].
    destruct (Str.startswith v "0x"); [|discriminate].
    destruct (PyInt.int16 v); [|discriminate].
    cbn [bind]. now eexists. }
  destruct E as [st' E]. exists st'. split; [exact E|].
  rewrite (StepFacts.step_registers_info st st' raw E), R.
  apply get_set_same.
Qed.

End RegisterFacts.

(** C9.  When two lines define the same register (both are matched by
    [DEFINE_RE], are no field properties and have values that start with
    [0x]) and no later line defines it again, then each of the two lines
    raises nothing in any state and leaves its own address and description
    under the name, the second in place of the first; and whenever the parse
    of the header returns, [registers_info] holds the address and the
    description of the second line for that name. *)
Theorem last_register_definition_wins (l0 l1 l2 : list string)
    (a b name va vb : string) (ca cb : option string) :
  define_groups (Str.strip a) = Some (name, va, ca) ->
  is_field_prop name ca = false -> Str.startswith va "0x" = true ->
  define_groups (Str.strip b) = Some (name, vb, cb) ->
  is_field_prop name cb = false -> Str.startswith vb "0x" = true ->
  (forall l, In l l2 ->
             forall rd, register_definition l <> Some (name, rd)) ->
  exists addr_a addr_b,
    PyInt.int16 va = Ok addr_a /\ PyInt.int16 vb = Ok addr_b
    /\ (forall st,
          exists st',
            step st a = Ok st'
            /\ Dict.get name (registers_info (parsed st'))
               = Some (RegAddrDesc.mk addr_a (register_description name ca)))
    /\ (forall st,
          exists st',
            step st b = Ok st'
            /\ Dict.get name (registers_info (parsed st'))
               = Some (RegAddrDesc.mk addr_b (register_description name cb)))
    /\ (forall h,
          parse_header_lines (l0 ++ a :: l1 ++ b :: l2)%list = Ok h ->
          Dict.get name (registers_info h)
          = Some (RegAddrDesc.mk addr_b (register_description name cb))).
Proof.
  intros Da Fa Sa Db Fb Sb Later.
  destruct (RegisterFacts.register_definition_of a name va ca Da Fa Sa)
    as [addr_a [Ia Ra]].
  destruct (RegisterFacts.register_definition_of b name vb cb Db Fb Sb)
    as [addr_b [Ib Rb]].
  exists addr_a, addr_b. split; [exact Ia|]. split; [exact Ib|].
  split; [|split].
  - intros st. now apply RegisterFacts.step_register_definition.
  - intros st. now apply RegisterFacts.step_register_definition.
  - intros h H. unfold parse_header_lines in H.
    replace (l0 ++ a :: l1 ++ b :: l2)%list
      with ((l0 ++ a :: l1) ++ b :: l2)%list in H
      by (rewrite <- app_assoc; reflexivity).
    rewrite StepFacts.run_lines_app in H.
    destruct (run_lines initial_state (l0 ++ a :: l1)%list) as [st1|];
      [|discriminate].
    cbn [bind run_lines] in H.
    destruct (RegisterFacts.step_register_definition b name _ st1 Rb)
      as [st2 [E G]].
    rewrite E in H. cbn [bind] in H.
    destruct (run_lines st2 l2) as [st3|] eqn:R2; [|discriminate].
    cbn [bind] in H. injection H as <-.
    now apply (StepFacts.run_lines_register_kept l2 name _ Later st2 st3).
Qed.

(** C9 at a header that defines [P_R] twice. *)
Lemma last_register_definition_wins_witness :
  exists addr_a addr_b,
    PyInt.int16 "0x10" = Ok addr_a /\ PyInt.int16 "0x20" = Ok addr_b
    /\ (forall st,
          exists st',
            step st "#define P_R 0x10" = Ok st'
            /\ Dict.get "P_R" (registers_info (parsed st'))
               = Some (RegAddrDesc.mk addr_a
                         (register_description "P_R" None)))
    /\ (forall st,
          exists st',
            step st "#define P_R 0x20 /* second */" = Ok st'
            /\ Dict.get "P_R" (registers_info (parsed st'))
               = Some (RegAddrDesc.mk addr_b
                         (register_description "P_R" (Some "second"))))
    /\ (forall h,
          parse_header_lines
            ([] ++ "#define P_R 0x10"
                :: [] ++ "#define P_R 0x20 /* second */"
                         :: ["#define P_S 0x30"])%list = Ok h ->
          Dict.get "P_R" (registers_info h)
          = Some (RegAddrDesc.mk addr_b
                    (register_description "P_R" (Some "second")))).
Proof.
  apply (last_register_definition_wins [] [] ["#define P_S 0x30"]
           "#define P_R 0x10" "#define P_R 0x20 /* second */" "P_R"
           "0x10" "0x20" None (Some "second")); try reflexivity.
  intros l [<-|[]] rd H. vm_compute in H. discriminate H.
Defined.

(** C10.  A description that is recorded for a prefix stays as it is
    through all the lines that follow; and a field property of that prefix
    that meets a pending field comment whose key is a prefix of it leaves the
    description as it is and clears the pending comment. *)
Theorem first_description_wins (st : ParseState) (p d : string) :
  Dict.get p (field_descriptions (parsed st)) = Some d ->
  (forall lines st',
      run_lines st lines = Ok st' ->
      Dict.get p (field_descriptions (parsed st')) = Some d)
  /\ (forall name value_str prop key_base d' value,
        last_field_info st = Some (key_base, d') ->
        Str.rsplit1 "_" name = Some (p, prop) ->
        Str.startswith p key_base = true ->
        PyInt.int0 value_str = Ok value ->
        exists st',
          on_field_prop st name value_str = Ok st'
          /\ last_field_info st' = None
          /\ field_descriptions (parsed st')
             = field_descriptions (parsed st)).
Proof.
  intros G. split.
  - intros lines st' H.
    now apply (StepFacts.run_lines_description_kept lines p d st st').
  - intros name value_str prop key_base d' value L R S I.
    unfold on_field_prop. rewrite R, I, L, S. cbn [bind].
    eexists. split; [reflexivity|]. cbn [last_field_info parsed].
    split; [reflexivity|].
    destruct (String.eqb prop "SHIFT"), (String.eqb prop "BITS");
      cbn [field_descriptions set_fields_info];
      rewrite (ParseFacts.mem_true p _ d G); reflexivity.
Qed.

(** C10 at the header of two field comments for [P_R_F]: after the first
    comment, the define of [P_R_F_SHIFT] and the second comment, the
    description "first" is recorded and "second" is pending; the define of
    [P_R_F_BITS] keeps "first" and clears the pending comment. *)
Lemma first_description_wins_witness :
  run_lines initial_state
    [ "/* P :: R :: first [0:0] */"; "#define P_R_F_SHIFT 0";
      "/* P :: R :: second [1:1] */" ] = Ok described_state
  /\ Dict.get "P_R_F"
       (field_descriptions
          (parsed
             (mkParseState
                (mkParsedHeader []
                   [("P_R_F", Props.mk (Some 0%Z) (Some 1%Z))]
                   [("P_R_F", "first")] [("P_R", "P")] [("P_R", "R")])
                None))) = Some "first"
  /\ exists st',
       on_field_prop described_state "P_R_F_BITS" "1" = Ok st'
       /\ last_field_info st' = None
       /\ field_descriptions (parsed st')
          = field_descriptions (parsed described_state).
Proof.
  destruct (first_description_wins described_state "P_R_F" "first" eq_refl)
    as [H1 H2].
  split; [vm_compute; reflexivity|]. split.
  - apply (H1 ["#define P_R_F_BITS 1"]). vm_compute. reflexivity.
  - apply (H2 "P_R_F_BITS" "1" "BITS" "P_R_" "second" 1%Z); reflexivity.
Defined.

(** ** Where the properties of a field come from *)

Module SourceFacts.
Import Dict DictFacts ParseFacts StepFacts.

Lemma defined_by_more (seen more : list string) (suffix prefix : string)
    (value : Z) :
  defined_by seen suffix prefix value ->
  defined_by (seen ++ more)%list suffix prefix value.
Proof.
  intros (raw & n & v & c & I & H). exists raw, n, v, c.
  split; [|exact H]. apply in_or_app. now left.
Qed.

Lemma props_from_more (seen more : list string) (prefix : string)
    (props : Props.t) :
  props_from seen prefix props -> props_from (seen ++ more)%list prefix props.
Proof.
  intros [Ho Hw]. split; intros x E; apply defined_by_more; auto.
Qed.

(** A turn of the loop sets a property from the define of its line only. *)
Lemma step_props_from (seen : list string) (st st' : ParseState)
    (raw : string) :
  (forall p props, In (p, props) (fields_info (parsed st)) ->
                   props_from seen p props) ->
  step st raw = Ok st' ->
  forall p props, In (p, props) (fields_info (parsed st')) ->
                  props_from (seen ++ [raw])%list p props.
Proof.
  intros Inv H.
  assert (Old : forall p props,
             In (p, props) (fields_info (parsed st)) ->
             props_from (seen ++ [raw])%list p props).
  { intros p props I. apply props_from_more. now apply Inv. }
  apply step_cases in H as (st1 & st2 & P & -> & D).
  destruct (on_comments_tables st2 (Str.strip raw)) as (_ & -> & _).
  destruct (define_groups (Str.strip raw)) as [[[n v] c]|] eqn:DG;
    [|subst st2; now rewrite P].
  apply on_define_cases in D
    as [[F D]|[(F & S & value & I & ->)|(F & S & ->)]];
    [|cbn; now rewrite P | now rewrite P].
  apply on_field_prop_inv in D as (prefix & prop & value & R & I & _ & E & _).
  rewrite E, P. apply rsplit1_join in R.
  assert (Here : forall suffix,
             String.eqb prop suffix = true ->
             defined_by (seen ++ [raw])%list suffix prefix value).
  { intros suffix Es. apply String.eqb_eq in Es. subst prop.
    exists raw, n, v, c. repeat split; try assumption.
    apply in_or_app. right. now left. }
  destruct (String.eqb prop "SHIFT") eqn:E1;
    [|destruct (String.eqb prop "BITS") eqn:E2; [|exact Old]].
  - intros p props J.
    apply in_upd_inv in J as [J|[-> (q & -> & G)]]; [now apply Old|].
    split; cbn [Props.set_bitOffset Props.bitOffset Props.bitWidth].
    + intros o Eo. injection Eo as <-. now apply Here.
    + destruct G as [G|[_ ->]]; [|discriminate].
      apply get_In in G. now apply (Old prefix q G).
  - intros p props J.
    apply in_upd_inv in J as [J|[-> (q & -> & G)]]; [now apply Old|].
    split; cbn [Props.set_bitWidth Props.bitOffset Props.bitWidth].
    + destruct G as [G|[_ ->]]; [|discriminate].
      apply get_In in G. now apply (Old prefix q G).
    + intros w Ew. injection Ew as <-. now apply Here.
Qed.

Lemma run_lines_props_from (lines : list string) :
  forall seen st st',
    (forall p props, In (p, props) (fields_info (parsed st)) ->
                     props_from seen p props) ->
    run_lines st lines = Ok st' ->
    forall p props, In (p, props) (fields_info (parsed st')) ->
                    props_from (seen ++ lines)%list p props.
Proof.
  induction lines as [|l lines IH]; intros seen st st' Inv H; simpl in H.
  - injection H as <-. now rewrite app_nil_r.
  - destruct (step st l) as [st1|] eqn:S; [|discriminate]. cbn [bind] in H.
    replace (seen ++ l :: lines)%list with ((seen ++ [l]) ++ lines)%list
      by (rewrite <- app_assoc; reflexivity).
    apply (IH (seen ++ [l])%list st1 st'); [|exact H].
    now apply (step_props_from seen st st1 l).
Qed.

Lemma defined_by_nonneg (lines : list string) (suffix prefix : string)
    (value : Z) :
  defined_by lines suffix prefix value -> (0 <= value)%Z.
Proof.
  intros (raw & n & v & c & _ & _ & _ & I).
  now apply (PyIntFacts.int0_nonneg v).
Qed.

End SourceFacts.

(** C3, as stated, fails: the header [wide_header] is converted to a tree
    whose field starts at bit 40 and is 0 bits wide. *)
Lemma field_bounds_counterexample :
  exists dev err f,
    parse_header_to_device_tree wide_header "Device Name"
      "Device Description" = Ok (dev, err)
    /\ In f (device_fields dev) /\ ~ fits_register f.
Proof.
  eexists. eexists. exists (Field.mk "F" "F" 40 0). split; [|split].
  - vm_compute. reflexivity.
  - vm_compute. left. reflexivity.
  - unfold fits_register. cbn. lia.
Qed.

(** C3, amended.  Whenever the conversion of a header returns a tree, the
    bit offset of every field of the tree is the value of a [_SHIFT] define
    of the header and its bit width the value of the [_BITS] define of the
    same prefix, and neither is negative.  Nothing bounds them from above,
    and the width may be 0. *)
Theorem field_bounds (lines : list string)
    (device_name device_description : string) (dev : Device.t)
    (err : list string) :
  parse_header_to_device_tree lines device_name device_description
  = Ok (dev, err) ->
  forall f,
    In f (device_fields dev) ->
    (0 <= Field.bit_offset f)%Z /\ (0 <= Field.bit_width f)%Z
    /\ exists field_prefix,
         defined_by lines "SHIFT" field_prefix (Field.bit_offset f)
         /\ defined_by lines "BITS" field_prefix (Field.bit_width f).
Proof.
  unfold parse_header_to_device_tree, parse_header_lines. intros H f I.
  destruct (run_lines initial_state lines) as [st|] eqn:R; [|discriminate].
  cbn [bind] in H.
  destruct (group_registers_by_peripheral (registers_info (parsed st))
              (reg_fqn_to_periph (parsed st))
              (reg_fqn_to_regname (parsed st))) as [peripherals e].
  injection H as <- _.
  apply BuildFacts.device_field_source in I as (p & props & J & Ho & Hw).
  assert (S : props_from lines p props).
  { apply (SourceFacts.run_lines_props_from lines [] initial_state st);
      [intros ? ? [] | exact R | exact J]. }
  destruct S as [So Sw]. specialize (So _ Ho). specialize (Sw _ Hw).
  split; [now apply SourceFacts.defined_by_nonneg in So|].
  split; [now apply SourceFacts.defined_by_nonneg in Sw|].
  now exists p.
Qed.

(** The amended C3 at [wide_header]. *)
Lemma field_bounds_witness :
  (0 <= 40)%Z /\ (0 <= 0)%Z
  /\ exists field_prefix,
       defined_by wide_header "SHIFT" field_prefix 40
       /\ defined_by wide_header "BITS" field_prefix 0.
Proof.
  apply (field_bounds wide_header "D" ""
           (Device.mk "D" ""
              [ ("P",
                 Peripheral.mk "P" 16 "P Peripheral"
                   [ ("R",
                      Register.mk "R" "P_R" 0 32
                        [ Field.mk "F" "F" 40 0 ]) ]) ])
           [] eq_refl (Field.mk "F" "F" 40 0)).
  left. reflexivity.
Defined.

(** * Further properties of the conversion *)

(** ** The groups as a function of the tables *)

Module GroupShape.
Import Dict DictFacts.

Lemma keys_set {V : Type} (k : string) (v : V) (d : Dict.t V) :
  keys (set k v d) = if mem k d then keys d else (keys d ++ [k])%list.
Proof.
  unfold mem. induction d as [|[k' v'] d IH]; simpl; [reflexivity|].
  destruct (String.eqb_spec k k') as [->|N]; simpl; [reflexivity|].
  rewrite IH. now destruct (get k d).
Qed.

Lemma keys_set_nodup {V : Type} (k : string) (v : V) (d : Dict.t V) :
  NoDup (keys d) -> NoDup (keys (set k v d)).
Proof.
  intros N. rewrite keys_set. unfold mem.
  destruct (get k d) eqn:G; [exact N|].
  apply NoDup_app; [exact N | repeat constructor; intros [] |].
  intros x I [Ex|[]]. subst x. apply in_map_iff in I as [[k1 v1] [E I]].
  simpl in E. subst k1. clear N.
  induction d as [|[k' v'] d IH]; [destruct I|]. simpl in G.
  destruct (String.eqb_spec k k') as [->|N]; [discriminate|].
  destruct I as [E|I]; [injection E as -> _; now elim N | now apply IH].
Qed.

Lemma keys_upd_nodup {V : Type} (dflt : V) (k : string) (f : V -> V)
    (d : Dict.t V) :
  NoDup (keys d) -> NoDup (keys (upd dflt k f d)).
Proof. unfold upd. destruct (get k d); apply keys_set_nodup. Qed.

Section Tables.
Variables fp fr : Dict.t string.

Lemma groups_step_nodup (g : Groups) it :
  NoDup (keys g) -> NoDup (keys (groups_step fp fr g it)).
Proof.
  unfold groups_step. destruct (attributed fp fr (fst it)) as [[p r]|];
    [apply keys_upd_nodup | tauto].
Qed.

Lemma groups_fold_nodup (l : Dict.t RegAddrDesc.t) :
  forall g : Groups,
    NoDup (keys g) -> NoDup (keys (fold_left (groups_step fp fr) l g)).
Proof.
  induction l as [|it l IH]; intros g N; simpl; [exact N|].
  apply IH. now apply groups_step_nodup.
Qed.

(** The group of a peripheral after the loop over [l], from the groups
    [g] before it. *)
Lemma groups_fold_get (l : Dict.t RegAddrDesc.t) (p : string) :
  forall g : Groups,
    get p (fold_left (groups_step fp fr) l g)
    = match get p g, group_of fp fr p l with
      | None, [] => None
      | None, added => Some added
      | Some regs, added => Some (regs ++ added)%list
      end.
Proof.
  induction l as [|[k ad] l IH]; intros g; simpl.
  - destruct (get p g); [now rewrite app_nil_r | reflexivity].
  - rewrite IH. unfold groups_step, group_of. cbn [fst snd flat_map].
    fold (group_of fp fr p l).
    destruct (attributed fp fr k) as [[p' r]|]; [|reflexivity].
    destruct (String.eqb_spec p p') as [<-|N].
    + rewrite get_upd_same. destruct (get p g) as [regs|].
      * now rewrite <- app_assoc.
      * reflexivity.
    + rewrite get_upd_other by exact N. reflexivity.
Qed.

Lemma count_set (k : string) (regs : list RegisterInfo.t) (g : Groups) :
  length (all_reg_fqns (set k regs g))
  + length (match get k g with Some old => old | None => [] end)
  = length (all_reg_fqns g) + length regs.
Proof.
  unfold all_reg_fqns. induction g as [|[k' v'] g IH]; simpl.
  - rewrite length_app, length_map. simpl. lia.
  - destruct (String.eqb_spec k k') as [->|N]; simpl;
      rewrite !length_app, !length_map; lia.
Qed.

Lemma count_groups_step (g : Groups) it :
  length (all_reg_fqns (groups_step fp fr g it))
  + length (printed fp fr it)
  = S (length (all_reg_fqns g)).
Proof.
  unfold groups_step, printed.
  destruct (attributed fp fr (fst it)) as [[p r]|]; [|simpl; lia].
  unfold upd. pose proof (count_set p) as C.
  destruct (get p g) as [old|] eqn:G.
  - specialize (C (old ++ [register_info r (fst it) (snd it)])%list g).
    rewrite G, length_app in C. simpl in *. lia.
  - specialize (C ([] ++ [register_info r (fst it) (snd it)])%list g).
    rewrite G in C. simpl in *. lia.
Qed.

Lemma count_groups_fold (l : Dict.t RegAddrDesc.t) :
  forall g : Groups,
    length (all_reg_fqns (fold_left (groups_step fp fr) l g))
    + length (flat_map (printed fp fr) l)
    = length (all_reg_fqns g) + length l.
Proof.
  induction l as [|it l IH]; intros g; simpl; [lia|].
  rewrite length_app. specialize (IH (groups_step fp fr g it)).
  pose proof (count_groups_step g it). lia.
Qed.

End Tables.

End GroupShape.

(** X1.  The group of a peripheral is the list of the registers of
    [registers_info] that are attributed to it, in the order of
    [registers_info]; a peripheral to which no register is attributed has no
    group, so no group is empty; and no peripheral has two groups. *)
Theorem grouping_characterised (registers_info : Dict.t RegAddrDesc.t)
    (fp fr : Dict.t string) (periph_name : string) :
  Dict.get periph_name
    (fst (group_registers_by_peripheral registers_info fp fr))
  = match group_of fp fr periph_name registers_info with
    | [] => None
    | regs => Some regs
    end
  /\ NoDup (Dict.keys
              (fst (group_registers_by_peripheral registers_info fp fr))).
Proof.
  unfold group_registers_by_peripheral.
  rewrite GroupFacts.group_fold_split. cbn [fst]. split.
  - now rewrite GroupShape.groups_fold_get.
  - apply GroupShape.groups_fold_nodup. constructor.
Qed.

(** X2.  Every register of [registers_info] is accounted for once: the
    number of registers in the groups and the number of warnings printed add
    up to the number of registers. *)
Theorem grouping_accounts_for_all (registers_info : Dict.t RegAddrDesc.t)
    (fp fr : Dict.t string) :
  length (all_reg_fqns
            (fst (group_registers_by_peripheral registers_info fp fr)))
  + length (snd (group_registers_by_peripheral registers_info fp fr))
  = length registers_info.
Proof.
  unfold group_registers_by_peripheral.
  rewrite GroupFacts.group_fold_split. cbn [fst snd app].
  now rewrite GroupShape.count_groups_fold.
Qed.

(** ** The fallback in general *)

Module FallbackShape.
Import Dict DictFacts.

Lemma in_keys_get {V : Type} (k : string) (d : Dict.t V) :
  In k (keys d) -> exists v, get k d = Some v.
Proof.
  induction d as [|[k' v'] d IH]; simpl; [tauto|].
  destruct (String.eqb_spec k k') as [->|N]; [now exists v'|].
  intros [E|I]; [now elim N | now apply IH].
Qed.

Lemma get_in_keys {V : Type} (k : string) (v : V) (d : Dict.t V) :
  get k d = Some v -> In k (keys d).
Proof.
  intros G. apply get_In in G. apply in_map_iff. now exists (k, v).
Qed.

(** In an ordered list, nothing that passes the test is strictly ahead of
    what [find] returns. *)
Lemma find_is_first {A : Type} (ahead : A -> A -> bool) (f : A -> bool)
    (l : list A) (x : A) :
  (forall a, ahead a a = false) ->
  StronglySorted (before ahead) l -> find f l = Some x ->
  forall y, In y l -> f y = true -> ahead y x = false.
Proof.
  intros Irr. induction 1 as [|z l Hl IH Hz]; intros F y Iy Fy;
    [destruct Iy|]. simpl in F. destruct (f z) eqn:Fz.
  - injection F as <-. destruct Iy as [<-|Iy]; [apply Irr|].
    rewrite Forall_forall in Hz. now apply Hz.
  - destruct Iy as [<-|Iy]; [congruence | now apply IH].
Qed.

Lemma longest_first_ordered (fp : Dict.t string) :
  StronglySorted
    (before (fun y x => (String.length x <? String.length y)%nat))
    (fqns_longest_first fp).
Proof.
  apply SortedFacts.sorted_ordered.
  - intros a b Hab. apply Nat.ltb_lt in Hab. apply Nat.ltb_ge. lia.
  - unfold before. intros a b c Hab Hbc.
    apply Nat.ltb_ge in Hab, Hbc. apply Nat.ltb_ge. lia.
Qed.

End FallbackShape.

(** X3.  The fallback finds nothing exactly when no recorded name is a
    prefix of the define.  What it finds is the peripheral of a recorded name
    that is a prefix of the define and at least as long as every other
    recorded name that is one, with the define cut after the name of that
    peripheral and one more character as the name of the register. *)
Theorem fallback_longest_prefix (fp : Dict.t string) (reg_define : string) :
  match fallback fp reg_define with
  | Some (periph_name, reg_name) =>
      exists r_fqn,
        Dict.get r_fqn fp = Some periph_name
        /\ Str.startswith reg_define r_fqn = true
        /\ (forall other,
              In other (Dict.keys fp) ->
              Str.startswith reg_define other = true ->
              String.length other <= String.length r_fqn)
        /\ reg_name
           = Str.drop (String.length periph_name + 1) reg_define
  | None =>
      forall r_fqn,
        In r_fqn (Dict.keys fp) -> Str.startswith reg_define r_fqn = false
  end.
Proof.
  unfold fallback.
  destruct (find (fun r_fqn => Str.startswith reg_define r_fqn)
              (fqns_longest_first fp)) as [r_fqn|] eqn:F.
  - pose proof (find_some _ _ F) as [I S].
    apply SortedFacts.in_sorted in I.
    destruct (FallbackShape.in_keys_get r_fqn fp I) as [p G]. rewrite G.
    exists r_fqn. repeat split; [exact G | exact S|].
    intros other Io So.
    pose proof (FallbackShape.find_is_first _ _ _ _
                  (fun a => Nat.ltb_irrefl (String.length a))
                  (FallbackShape.longest_first_ordered fp) F other
                  (proj2 (SortedFacts.in_sorted _ other (Dict.keys fp)) Io)
                  So) as H.
    apply Nat.ltb_ge in H. exact H.
  - intros r_fqn I.
    apply (find_none _ _ F r_fqn).
    now apply SortedFacts.in_sorted.
Qed.

(** ** The owner of a field prefix in general *)

Module OwnerShape.
Import StrFacts.

(** Among the defines of a list that the prefix extends with an
    underscore, one is the longest. *)
Lemma longest_candidate (field_prefix : string) (l : list string) :
  (exists m, In m l /\ Str.startswith field_prefix (m ++ "_") = true) ->
  exists m,
    In m l /\ Str.startswith field_prefix (m ++ "_") = true
    /\ forall m',
         In m' l -> Str.startswith field_prefix (m' ++ "_") = true ->
         String.length m' <= String.length m.
Proof.
  induction l as [|a l IH]; intros [m [I S]]; [destruct I|].
  destruct (Str.startswith field_prefix (a ++ "_")) eqn:Sa.
  - destruct (existsb (fun m => Str.startswith field_prefix (m ++ "_")) l)
      eqn:E.
    + apply existsb_exists in E as [m0 [I0 S0]].
      destruct (IH (ex_intro _ m0 (conj I0 S0))) as (b & Ib & Sb & Mb).
      destruct (Nat.le_gt_cases (String.length a) (String.length b)).
      * exists b. repeat split; [now right | exact Sb|].
        intros m' [<-|I'] S'; [exact H | now apply Mb].
      * exists a. repeat split; [now left | exact Sa|].
        intros m' [<-|I'] S'; [lia|]. specialize (Mb m' I' S'). lia.
    + exists a. repeat split; [now left | exact Sa|].
      intros m' [<-|I'] S'; [lia|].
      assert (T : existsb
                    (fun m => Str.startswith field_prefix (m ++ "_")) l
                  = true) by (apply existsb_exists; now exists m').
      congruence.
  - destruct I as [<-|I]; [congruence|].
    destruct (IH (ex_intro _ m (conj I S))) as (b & Ib & Sb & Mb).
    exists b. repeat split; [now right | exact Sb|].
    intros m' [<-|I'] S'; [congruence | now apply Mb].
Qed.

Lemma owns_candidate (fqns : list string) (m field_prefix : string) :
  owns fqns m field_prefix = true ->
  Str.startswith field_prefix (m ++ "_") = true
  /\ forall other,
       In other fqns -> String.length m < String.length other ->
       Str.startswith other m = true ->
       Str.startswith field_prefix (other ++ "_") = false.
Proof.
  unfold owns, is_more_specific_match. intros H.
  apply andb_true_iff in H as [S M]. apply negb_true_iff in M.
  split; [exact S|]. intros other I L So.
  destruct (Str.startswith field_prefix (other ++ "_")) eqn:Sp;
    [|reflexivity].
  assert (T : existsb
                (fun o =>
                   (String.length m <? String.length o)%nat
                   && Str.startswith o m
                   && Str.startswith field_prefix (o ++ "_")) fqns = true).
  { apply existsb_exists. exists other. split; [exact I|].
    apply Nat.ltb_lt in L. now rewrite L, So, Sp. }
  congruence.
Qed.

End OwnerShape.

(** X4.  Among the known defines, a field prefix has at most one owner,
    and it has one as soon as it extends some known define with an
    underscore: the longest such define.  So an entry of [fields_info] whose
    prefix starts with the name of a known register gives its field to
    exactly one define. *)
Theorem field_prefix_has_one_owner (fqns : list string)
    (field_prefix : string) :
  (forall m1 m2,
      In m1 fqns -> In m2 fqns ->
      owns fqns m1 field_prefix = true ->
      owns fqns m2 field_prefix = true -> m1 = m2)
  /\ ((exists m, In m fqns
                 /\ Str.startswith field_prefix (m ++ "_") = true) ->
      exists m,
        In m fqns /\ owns fqns m field_prefix = true
        /\ forall m',
             In m' fqns ->
             Str.startswith field_prefix (m' ++ "_") = true ->
             String.length m' <= String.length m).
Proof.
  split.
  - intros m1 m2 I1 I2 O1 O2.
    destruct (OwnerShape.owns_candidate _ _ _ O1) as [S1 M1].
    destruct (OwnerShape.owns_candidate _ _ _ O2) as [S2 M2].
    pose proof (OwnerFacts.startswith_app_l _ _ _ S1) as P1.
    pose proof (OwnerFacts.startswith_app_l _ _ _ S2) as P2.
    destruct (Nat.lt_trichotomy (String.length m1) (String.length m2))
      as [Lt|[Eq|Gt]].
    + rewrite (M1 m2 I2 Lt) in S2; [discriminate|].
      apply (StrFacts.startswith_shorter field_prefix m1 m2 P1 P2). lia.
    + now apply (StrFacts.startswith_same_length field_prefix).
    + rewrite (M2 m1 I1 Gt) in S1; [discriminate|].
      apply (StrFacts.startswith_shorter field_prefix m2 m1 P2 P1). lia.
  - intros E.
    destruct (OwnerShape.longest_candidate field_prefix fqns E)
      as (m & I & S & M).
    exists m. repeat split; [exact I| |exact M].
    unfold owns. rewrite S. simpl. apply negb_true_iff.
    unfold is_more_specific_match.
    destruct (existsb _ fqns) eqn:X; [|reflexivity].
    apply existsb_exists in X as [o [Io H]].
    apply andb_true_iff in H as [H So]. apply andb_true_iff in H as [L _].
    apply Nat.ltb_lt in L. specialize (M o Io So). lia.
Qed.

(** X5.  A field that an entry of [fields_info] gives to a register is
    named by what the prefix has after the define of the register and an
    underscore: the define, an underscore and the name of the field make up
    the prefix again.  Its description is the one recorded for the prefix, or
    its name when none is recorded. *)
Theorem field_name_completes_prefix (fqns : list string)
    (field_descriptions : Dict.t string) (reg_define field_prefix : string)
    (props : Props.t) (f : Field.t) :
  In f (field_of fqns field_descriptions reg_define (field_prefix, props)) ->
  reg_define ++ "_" ++ Field.name f = field_prefix
  /\ Field.description f
     = match Dict.get field_prefix field_descriptions with
       | Some d => d
       | None => Field.name f
       end.
Proof.
  intros I.
  apply BuildFacts.in_field_of in I as (O & _ & _ & N & D).
  split; [|exact D]. rewrite N.
  destruct (OwnerShape.owns_candidate _ _ _ O) as [S _].
  apply StrFacts.startswith_iff in S as [t ->].
  rewrite StrFacts.append_assoc, FallbackFacts.drop_app_plus. reflexivity.
Qed.

(** X5 at the prefix [P_R_F] and the define [P_R]. *)
Lemma field_name_completes_prefix_witness :
  "P_R" ++ "_" ++ "F" = "P_R_F"
  /\ "first"
     = match Dict.get "P_R_F" [("P_R_F", "first")] with
       | Some d => d
       | None => "F"
       end.
Proof.
  apply (field_name_completes_prefix ["P_R"] [("P_R_F", "first")] "P_R"
           "P_R_F" (Props.mk (Some 3%Z) (Some 2%Z))
           (Field.mk "F" "first" 3 2)).
  left. reflexivity.
Defined.

(** ** When the parse raises *)

Module ExnFacts.
Import StrFacts.

Lemma endswith_split (s p : string) :
  Str.endswith s p = true -> exists t, s = t ++ p.
Proof.
  induction s as [|a s IH]; cbn [Str.endswith].
  - destruct (String.eqb_spec "" p) as [<-|N]; [|discriminate].
    intros _. now exists "".
  - destruct (String.eqb_spec (String a s) p) as [<-|N].
    + intros _. now exists "".
    + intros H. destruct (IH H) as [t ->]. now exists (String a t).
Qed.

Lemma rsplit1_suffix (t q : string) :
  Str.rsplit1 "_" q = None -> Str.rsplit1 "_" (t ++ "_" ++ q) = Some (t, q).
Proof.
  intros Q. induction t as [|a t IH]; cbn [append Str.rsplit1] in *.
  - now rewrite Q.
  - now rewrite IH.
Qed.

(** The name of a field property splits at its last underscore. *)
Lemma field_prop_splits (name : string) (comment : option string) :
  is_field_prop name comment = true ->
  exists prefix prop, Str.rsplit1 "_" name = Some (prefix, prop).
Proof.
  unfold is_field_prop.
  destruct (Str.endswith name "_BITS") eqn:E1.
  { intros _. apply endswith_split in E1 as [t ->].
    exists t, "BITS". now apply (rsplit1_suffix t "BITS"). }
  destruct (Str.endswith name "_SHIFT") eqn:E2.
  { intros _. apply endswith_split in E2 as [t ->].
    exists t, "SHIFT". now apply (rsplit1_suffix t "SHIFT"). }
  destruct (Str.endswith name "_ALIGN") eqn:E3.
  { intros _. apply endswith_split in E3 as [t ->].
    exists t, "ALIGN". now apply (rsplit1_suffix t "ALIGN"). }
  cbn [orb]. destruct (Str.endswith name "_MASK") eqn:E4; [|discriminate].
  intros _. apply endswith_split in E4 as [t ->].
  exists t, "MASK". now apply (rsplit1_suffix t "MASK").
Qed.

Lemma int0_raises (s : string) (e : exn) :
  PyInt.int0 s = Raise e -> e = ValueError.
Proof.
  unfold PyInt.int0, PyInt.hex_digits.
  repeat match goal with
         | |- context [if ?b then _ else _] => destruct b
         end; intros H; try discriminate H; now injection H as <-.
Qed.

Lemma int0_hex_literal (v : string) :
  hex_literal v -> exists n, PyInt.int0 v = Ok n.
Proof.
  intros (h & -> & T & A). unfold PyInt.int0.
  replace (PyInt.has_hex_prefix ("0x" ++ h)) with true by reflexivity.
  change (Str.drop 2 ("0x" ++ h)) with h. unfold PyInt.hex_digits.
  rewrite T, A. now eexists.
Qed.

Lemma on_field_prop_ok (st : ParseState) (name value_str : string)
    (prefix prop : string) (value : Z) :
  Str.rsplit1 "_" name = Some (prefix, prop) ->
  PyInt.int0 value_str = Ok value ->
  exists st', on_field_prop st name value_str = Ok st'.
Proof.
  intros R I. unfold on_field_prop. rewrite R, I. cbn [bind].
  destruct (last_field_info st) as [[kb d]|];
    [destruct (Str.startswith prefix kb)|]; now eexists.
Qed.

(** A turn of the loop raises on the lines of [raises_on], a
    [ValueError], and on no other line, whatever the state. *)
Lemma step_result (st : ParseState) (raw : string) :
  if raises_on raw then step st raw = Raise ValueError
  else exists st', step st raw = Ok st'.
Proof.
  unfold raises_on, step.
  destruct (define_groups (Str.strip raw)) as [[[n v] c]|] eqn:D;
    [|cbn [bind]; now eexists].
  set (st1 := if negb (keeps_context (Str.strip raw))
              then mkParseState (parsed st) None else st).
  unfold on_define. destruct (is_field_prop n c) eqn:F; cbn [andb].
  - destruct (field_prop_splits n c F) as (prefix & prop & R).
    destruct (PyInt.int0 v) as [value|e] eqn:I.
    + destruct (on_field_prop_ok st1 n v prefix prop value R I) as [st2 ->].
      cbn [bind]. now eexists.
    + apply int0_raises in I as E. subst e.
      unfold on_field_prop. rewrite R, I. reflexivity.
  - destruct (Str.startswith v "0x") eqn:S; [|cbn [bind]; now eexists].
    destruct (ReFacts.define_groups_shape _ _ _ _ D) as (_ & _ & [V|V]).
    + destruct (PyIntFacts.int16_hex_literal v V) as [value ->].
      cbn [bind]. now eexists.
    + rewrite (PyIntFacts.decimal_not_hex v V) in S. discriminate.
Qed.

Lemma run_lines_result (lines : list string) :
  forall st,
    if existsb raises_on lines then run_lines st lines = Raise ValueError
    else exists st', run_lines st lines = Ok st'.
Proof.
  induction lines as [|l lines IH]; intros st; cbn [existsb run_lines].
  - now eexists.
  - pose proof (step_result st l) as S. destruct (raises_on l); cbn [orb].
    + now rewrite S.
    + destruct S as [st1 ->]. cbn [bind]. apply IH.
Qed.

End ExnFacts.

(** X6.  The parse of a header raises exactly when some line is a define
    that is classified as a field property and whose value [int(value, 0)]
    refuses; what is raised is a [ValueError].  Such a value is a run of
    decimal digits that is longer than 4300 digits, or starts with [0] and is
    not zero: a value in hexadecimal never makes the parse raise. *)
Theorem parse_raises_exactly (lines : list string) :
  match parse_header_lines lines with
  | Ok _ => existsb raises_on lines = false
  | Raise e => e = ValueError /\ existsb raises_on lines = true
  end
  /\ forall raw,
       In raw lines -> raises_on raw = true ->
       exists name value_str comment,
         define_groups (Str.strip raw) = Some (name, value_str, comment)
         /\ is_field_prop name comment = true
         /\ decimal_literal value_str
         /\ ((PyInt.int_max_str_digits < String.length value_str)%nat
             \/ (Str.startswith value_str "0" = true
                 /\ PyInt.of_digits 10 0 value_str <> 0%Z)).
Proof.
  split.
  - unfold parse_header_lines.
    pose proof (ExnFacts.run_lines_result lines initial_state) as R.
    destruct (existsb raises_on lines).
    + rewrite R. cbn [bind]. now split.
    + destruct R as [st ->]. reflexivity.
  - intros raw _ H. unfold raises_on in H.
    destruct (define_groups (Str.strip raw)) as [[[n v] c]|] eqn:D;
      [|discriminate].
    apply andb_true_iff in H as [F H].
    exists n, v, c. split; [reflexivity|]. split; [exact F|].
    destruct (ReFacts.define_groups_shape _ _ _ _ D) as (_ & _ & [V|V]).
    + destruct (ExnFacts.int0_hex_literal v V) as [x I].
      rewrite I in H. discriminate.
    + split; [exact V|]. destruct V as [T A].
      unfold PyInt.int0 in H.
      destruct (PyInt.has_hex_prefix v) eqn:P.
      * exfalso. unfold PyInt.has_hex_prefix in P.
        rewrite (PyIntFacts.decimal_not_hex v (conj T A)) in P.
        cbn [orb] in P. destruct v as [|a [|b v]]; try discriminate P.
        { simpl in P. now rewrite andb_false_r in P. }
        unfold Str.all_chars in A. cbn [list_ascii_of_string forallb] in A.
        apply andb_true_iff in A as [_ A].
        apply andb_true_iff in A as [B _]. simpl in P.
        destruct (Ascii.eqb_spec a "0"); [|discriminate P].
        destruct (Ascii.eqb_spec b "X") as [->|]; [discriminate B|].
        discriminate P.
      * rewrite T, A in H. cbn [andb] in H.
        destruct (PyInt.int_max_str_digits <? String.length v)%nat eqn:L.
        { left. now apply Nat.ltb_lt. }
        right.
        destruct (Str.startswith v "0") eqn:Z; [|discriminate H].
        cbn [andb] in H.
        destruct (PyInt.of_digits 10 0 v =? 0)%Z eqn:E; [discriminate H|].
        split; [reflexivity|]. now apply Z.eqb_neq.
Qed.

(** ** The two tables of names *)

Module NameFacts.
Import Dict DictFacts.

Lemma get_none_absent {V : Type} (k : string) (d : Dict.t V) :
  get k d = None <-> ~ In k (keys d).
Proof.
  induction d as [|[k' v'] d IH]; simpl; [tauto|].
  destruct (String.eqb_spec k k') as [->|N].
  - split; [discriminate | intros H; elim H; now left].
  - rewrite IH. split; [intros H [E|I]; [now elim N | now elim H] | tauto].
Qed.

(** A name that is not recorded yet goes into the two tables together. *)
Lemma names_set (fp fr : Dict.t string) (p r : string) :
  names_consistent fp fr -> Str.truthy p = true ->
  get (p ++ "_" ++ r) fp = None ->
  names_consistent (set (p ++ "_" ++ r) p fp) (set (p ++ "_" ++ r) r fr).
Proof.
  intros [K C] T G. split.
  - rewrite !GroupShape.keys_set. unfold mem. rewrite G.
    assert (G' : get (p ++ "_" ++ r) fr = None).
    { apply get_none_absent. rewrite <- K. now apply get_none_absent. }
    now rewrite G', K.
  - intros fqn p0. destruct (String.eqb_spec fqn (p ++ "_" ++ r)) as [->|N].
    + rewrite !get_set_same. intros E. injection E as <-.
      split; [exact T|]. now exists r.
    + rewrite !get_set_other by exact N. apply C.
Qed.

Lemma on_comments_names (st : ParseState) (line : string) :
  names_consistent (reg_fqn_to_periph (parsed st))
    (reg_fqn_to_regname (parsed st)) ->
  names_consistent (reg_fqn_to_periph (parsed (on_comments st line)))
    (reg_fqn_to_regname (parsed (on_comments st line))).
Proof.
  intros H. unfold on_comments.
  destruct (field_comment_groups line) as [[[p r] d]|];
    [|destruct (register_comment_groups line) as [[p r]|]];
    try exact H;
    (destruct (Str.truthy p && Str.truthy r && negb (Str.contains r "::"))
       eqn:T; [|exact H]);
    (destruct (mem _ (reg_fqn_to_periph (parsed st))) eqn:M; [exact H|]);
    cbn [parsed reg_fqn_to_periph reg_fqn_to_regname set_reg_fqn];
    apply andb_true_iff in T as [T _]; apply andb_true_iff in T as [T _];
    (apply names_set; [exact H | exact T | now apply ParseFacts.mem_false]).
Qed.

(** A define leaves the two tables of names alone. *)
Lemma on_field_prop_names (st st' : ParseState) (name value_str : string) :
  on_field_prop st name value_str = Ok st' ->
  reg_fqn_to_periph (parsed st') = reg_fqn_to_periph (parsed st)
  /\ reg_fqn_to_regname (parsed st') = reg_fqn_to_regname (parsed st).
Proof.
  unfold on_field_prop.
  destruct (Str.rsplit1 "_" name) as [[prefix prop]|]; [|discriminate].
  destruct (PyInt.int0 value_str) as [value|]; [|discriminate].
  cbn [bind].
  destruct (last_field_info st) as [[key_base d]|];
    [destruct (Str.startswith prefix key_base)|];
    destruct (String.eqb prop "SHIFT"), (String.eqb prop "BITS");
    cbn [field_descriptions set_fields_info];
    try destruct (mem prefix (field_descriptions (parsed st)));
    intros H; injection H as <-; split; reflexivity.
Qed.

Lemma on_define_names (st st' : ParseState) (name value_str : string)
    (comment : option string) :
  on_define st name value_str comment = Ok st' ->
  reg_fqn_to_periph (parsed st') = reg_fqn_to_periph (parsed st)
  /\ reg_fqn_to_regname (parsed st') = reg_fqn_to_regname (parsed st).
Proof.
  intros H. apply StepFacts.on_define_cases in H
    as [[_ H]|[(_ & _ & value & _ & ->)|(_ & _ & ->)]].
  - now apply on_field_prop_names in H.
  - split; reflexivity.
  - split; reflexivity.
Qed.

Lemma step_names (st st' : ParseState) (raw : string) :
  step st raw = Ok st' ->
  names_consistent (reg_fqn_to_periph (parsed st))
    (reg_fqn_to_regname (parsed st)) ->
  names_consistent (reg_fqn_to_periph (parsed st'))
    (reg_fqn_to_regname (parsed st')).
Proof.
  intros H C. apply StepFacts.step_cases in H as (st1 & st2 & P & -> & D).
  apply on_comments_names.
  destruct (define_groups (Str.strip raw)) as [[[n v] c]|].
  - apply on_define_names in D as [-> ->]. now rewrite P.
  - subst st2. now rewrite P.
Qed.

Lemma run_lines_names (lines : list string) :
  forall st st',
    run_lines st lines = Ok st' ->
    names_consistent (reg_fqn_to_periph (parsed st))
      (reg_fqn_to_regname (parsed st)) ->
    names_consistent (reg_fqn_to_periph (parsed st'))
      (reg_fqn_to_regname (parsed st')).
Proof.
  induction lines as [|l lines IH]; intros st st' H C; simpl in H.
  - now injection H as <-.
  - destruct (step st l) as [st1|] eqn:S; [|discriminate]. cbn [bind] in H.
    apply (IH st1 st' H). now apply (step_names st st1 l).
Qed.

Lemma parse_names (lines : list string) (h : ParsedHeader) :
  parse_header_lines lines = Ok h ->
  names_consistent (reg_fqn_to_periph h) (reg_fqn_to_regname h).
Proof.
  unfold parse_header_lines.
  destruct (run_lines initial_state lines) as [st|] eqn:R; [|discriminate].
  cbn [bind]. intros H. injection H as <-.
  apply (run_lines_names lines initial_state st R).
  split; [reflexivity|]. intros fqn p G. discriminate G.
Qed.

(** What the fallback returns. *)
Lemma fallback_inv (fp : Dict.t string) (k p r : string) :
  fallback fp k = Some (p, r) ->
  exists r_fqn,
    get r_fqn fp = Some p /\ Str.startswith k r_fqn = true
    /\ r = Str.drop (String.length p + 1) k.
Proof.
  unfold fallback.
  destruct (find (fun r_fqn => Str.startswith k r_fqn)
              (fqns_longest_first fp)) as [r_fqn|] eqn:F; [|discriminate].
  destruct (get r_fqn fp) as [p0|] eqn:G; [|discriminate].
  intros H. injection H as <- <-. exists r_fqn.
  repeat split; [exact G|]. now destruct (find_some _ _ F).
Qed.

(** With tables that go together, the define of an attributed register is
    the name of its peripheral, an underscore and the name of the register. *)
Lemma attributed_joined (fp fr : Dict.t string) (k p r : string) :
  names_consistent fp fr ->
  attributed fp fr k = Some (p, r) ->
  k = p ++ "_" ++ r /\ Str.truthy p = true /\ Str.truthy r = true.
Proof.
  intros [_ C] A. unfold attributed, resolve in A.
  destruct (get k fp) as [p0|] eqn:G; cbn [Str.otruthy] in A.
  - destruct (C k p0 G) as (T & r0 & G0 & E). rewrite T, G0 in A.
    cbv beta iota zeta in A. rewrite T in A. cbn [andb] in A.
    destruct (Str.truthy r0) eqn:T0; [|discriminate].
    injection A as <- <-. now repeat split.
  - destruct (fallback fp k) as [[p1 r1]|] eqn:F; [|discriminate].
    destruct (Str.truthy p1 && Str.truthy r1) eqn:T; [|discriminate].
    injection A as <- <-. apply andb_true_iff in T as [T1 T2].
    repeat split; [|exact T1 | exact T2].
    apply fallback_inv in F as (r_fqn & Gf & S & ->).
    destruct (C r_fqn p1 Gf) as (_ & r0 & _ & ->).
    apply StrFacts.startswith_iff in S as [t ->].
    rewrite !StrFacts.append_assoc, FallbackFacts.drop_app_plus. reflexivity.
Qed.

End NameFacts.

(** X7.  When the parse of a header returns, its two tables of names go
    together: they have the same keys in the same order, the name of every
    recorded peripheral is not empty, and every recorded name is the name of
    its peripheral, an underscore and the name of its register. *)
Theorem name_tables_consistent (lines : list string) (h : ParsedHeader) :
  parse_header_lines lines = Ok h ->
  names_consistent (reg_fqn_to_periph h) (reg_fqn_to_regname h).
Proof. apply NameFacts.parse_names. Qed.

(** X7 at the header of the end-to-end example in the format of the
    patterns. *)
Lemma name_tables_consistent_witness :
  names_consistent [("UART_CTRL", "UART")] [("UART_CTRL", "CTRL")].
Proof.
  apply (name_tables_consistent uart_header_in_format
           (mkParsedHeader
              [("UART_CTRL", RegAddrDesc.mk 4096 "Control register")]
              [("UART_CTRL_ENABLE", Props.mk (Some 0%Z) (Some 1%Z))]
              [("UART_CTRL_ENABLE", "Enable bit")]
              [("UART_CTRL", "UART")] [("UART_CTRL", "CTRL")])).
  vm_compute. reflexivity.
Defined.

(** X8.  With tables of names that go together, as the parse leaves them,
    every register of a group is an entry of [registers_info] whose define is
    the name of the peripheral of the group, an underscore and the name given
    to the register; the two names and the description are not empty, the
    address is the one of the entry, and the description is the one of the
    entry, or the name of the register when that one is empty.  This holds
    for the registers found directly and for those found by the fallback. *)
Theorem grouped_register_named (registers_info : Dict.t RegAddrDesc.t)
    (fp fr : Dict.t string) (periph_name : string)
    (regs : list RegisterInfo.t) (x : RegisterInfo.t) :
  names_consistent fp fr ->
  Dict.get periph_name
    (fst (group_registers_by_peripheral registers_info fp fr)) = Some regs ->
  In x regs ->
  RegisterInfo.reg_define x
  = periph_name ++ "_" ++ RegisterInfo.reg_name x
  /\ Str.truthy periph_name = true
  /\ Str.truthy (RegisterInfo.reg_name x) = true
  /\ Str.truthy (RegisterInfo.desc x) = true
  /\ exists ad,
       In (RegisterInfo.reg_define x, ad) registers_info
       /\ RegisterInfo.addr x = RegAddrDesc.addr ad
       /\ RegisterInfo.desc x
          = (if Str.truthy (RegAddrDesc.desc ad) then RegAddrDesc.desc ad
             else RegisterInfo.reg_name x).
Proof.
  intros C G I. unfold group_registers_by_peripheral in G.
  rewrite GroupFacts.group_fold_split in G. cbn [fst] in G.
  apply DictFacts.get_In in G.
  destruct (GroupFacts.group_sound fp fr _ _ _ _ _ G I)
    as [[regs0 [[] _]]|(k & ad & r & Ik & A & ->)].
  destruct (NameFacts.attributed_joined fp fr k periph_name r C A)
    as (E & Tp & Tr).
  cbn [register_info RegisterInfo.reg_define RegisterInfo.reg_name
       RegisterInfo.desc RegisterInfo.addr].
  repeat split; [exact E | exact Tp | exact Tr | |].
  - now destruct (Str.truthy (RegAddrDesc.desc ad)) eqn:T.
  - exists ad. now repeat split.
Qed.

(** X8 at a table of two registers, one found directly and one by the
    fallback. *)
Lemma grouped_register_named_witness :
  let x := RegisterInfo.mk "R_REV" 32 "R_REV" "P_R_REV" in
  RegisterInfo.reg_define x = "P" ++ "_" ++ RegisterInfo.reg_name x
  /\ Str.truthy "P" = true
  /\ Str.truthy (RegisterInfo.reg_name x) = true
  /\ Str.truthy (RegisterInfo.desc x) = true
  /\ exists ad,
       In (RegisterInfo.reg_define x, ad)
          [("P_R", RegAddrDesc.mk 16 "d"); ("P_R_REV", RegAddrDesc.mk 32 "")]
       /\ RegisterInfo.addr x = RegAddrDesc.addr ad
       /\ RegisterInfo.desc x
          = (if Str.truthy (RegAddrDesc.desc ad) then RegAddrDesc.desc ad
             else RegisterInfo.reg_name x).
Proof.
  apply (grouped_register_named
           [("P_R", RegAddrDesc.mk 16 "d"); ("P_R_REV", RegAddrDesc.mk 32 "")]
           [("P_R", "P")] [("P_R", "R")] "P"
           [ RegisterInfo.mk "R" 16 "d" "P_R";
             RegisterInfo.mk "R_REV" 32 "R_REV" "P_R_REV" ]).
  - split; [reflexivity|]. intros fqn p G. simpl in G.
    destruct (String.eqb_spec fqn "P_R") as [->|]; [|discriminate].
    injection G as <-. split; [reflexivity|]. now exists "R".
  - reflexivity.
  - right. left. reflexivity.
Defined.

(** ** What a peripheral stores *)

Module StoreFacts.
Import Dict DictFacts.

Lemma insert_sorted_perm {A : Type} (ahead : A -> A -> bool) (x : A)
    (l : list A) :
  Permutation (insert_sorted ahead x l) (x :: l).
Proof.
  induction l as [|y l IH]; simpl; [reflexivity|].
  destruct (ahead y x); [|reflexivity].
  rewrite IH. apply perm_swap.
Qed.

Lemma sorted_perm {A : Type} (ahead : A -> A -> bool) (l : list A) :
  Permutation (sorted ahead l) l.
Proof.
  induction l as [|x l IH]; simpl; [constructor|].
  rewrite insert_sorted_perm. now constructor.
Qed.

Lemma sorted_map {A B : Type} (R : A -> A -> Prop) (Q : B -> B -> Prop)
    (f : A -> B) (l : list A) :
  (forall a b, R a b -> Q (f a) (f b)) ->
  StronglySorted R l -> StronglySorted Q (map f l).
Proof.
  intros H. induction 1 as [|a l S IH F]; simpl; constructor; [exact IH|].
  rewrite Forall_forall in *. intros b I.
  apply in_map_iff in I as [x [<- I]]. apply H. now apply F.
Qed.

(** [by_addr] puts the registers in the order of their addresses. *)
Lemma by_addr_ordered (regs : list RegisterInfo.t) :
  StronglySorted
    (fun a b => (RegisterInfo.addr a <= RegisterInfo.addr b)%Z)
    (by_addr regs).
Proof.
  rewrite <- (map_id (by_addr regs)).
  apply (sorted_map
           (before (fun y x => (RegisterInfo.addr y <? RegisterInfo.addr x)%Z))
           _ (fun r => r)).
  - intros a b B. unfold before in B. now apply Z.ltb_ge in B.
  - apply SortedFacts.sorted_ordered.
    + intros a b E. apply Z.ltb_lt in E. apply Z.ltb_ge. lia.
    + unfold before. intros a b c E1 E2. apply Z.ltb_ge in E1, E2.
      apply Z.ltb_ge. lia.
Qed.

Lemma sorted_snoc {A : Type} (R : A -> A -> Prop) (l : list A) (a : A) :
  StronglySorted R (l ++ [a])%list ->
  StronglySorted R l /\ forall x, In x l -> R x a.
Proof.
  induction l as [|y l IH]; simpl; intros H.
  - split; [constructor | intros x []].
  - inversion H as [|y' l' S F]; subst. destruct (IH S) as [S' Hx]. split.
    + constructor; [exact S'|]. rewrite Forall_forall in *.
      intros x I. apply F. apply in_or_app. now left.
    + intros x [<-|I]; [|now apply Hx]. rewrite Forall_forall in F.
      apply F. apply in_or_app. right. now left.
Qed.

Lemma set_absent {V : Type} (k : string) (v : V) (d : Dict.t V) :
  get k d = None -> set k v d = (d ++ [(k, v)])%list.
Proof.
  induction d as [|[k' v'] d IH]; simpl; [reflexivity|].
  destruct (String.eqb_spec k k') as [->|N]; [discriminate|].
  intros G. now rewrite IH.
Qed.

Lemma get_unique {V : Type} (k : string) (v : V) (d : Dict.t V) :
  NoDup (keys d) -> In (k, v) d -> get k d = Some v.
Proof.
  induction d as [|[k' v'] d IH]; simpl; intros N I; [destruct I|].
  inversion N as [|? ? N1 N2]; subst.
  destruct I as [E|I].
  - injection E as -> ->. now rewrite String.eqb_refl.
  - destruct (String.eqb_spec k k') as [->|_]; [|now apply IH].
    elim N1. apply in_map_iff. now exists (k', v).
Qed.

Section Fold.
Context {X V : Type} (key : X -> string) (val : X -> V).

(** Entering values under keys that are all different and all new appends
    them in order. *)
Lemma fold_set_map (l : list X) :
  forall d0 : Dict.t V,
    NoDup (keys d0 ++ map key l)%list ->
    fold_left (fun acc x => set (key x) (val x) acc) l d0
    = (d0 ++ map (fun x => (key x, val x)) l)%list.
Proof.
  induction l as [|a l IH]; intros d0 N; simpl.
  - now rewrite app_nil_r.
  - assert (G : get (key a) d0 = None).
    { apply NameFacts.get_none_absent. intros I.
      apply NoDup_remove_2 in N. apply N. apply in_or_app. now left. }
    rewrite (set_absent _ _ _ G), IH.
    + now rewrite <- app_assoc.
    + unfold keys. rewrite map_app, <- app_assoc. exact N.
Qed.

(** In general, a key holds the value of the last element that has it;
    in a list in order, no element with that key is behind it. *)
Lemma fold_set_last (R : X -> X -> Prop) (d0 : Dict.t V) (l : list X) :
  StronglySorted R l ->
  forall x,
    In x l ->
    exists y,
      In y l /\ key y = key x /\ (y = x \/ R x y)
      /\ get (key x) (fold_left (fun acc x => set (key x) (val x) acc) l d0)
         = Some (val y).
Proof.
  induction l as [|a l IH] using rev_ind; intros S x I; [destruct I|].
  apply sorted_snoc in S as [S Ra]. rewrite fold_left_app. simpl.
  destruct (String.eqb_spec (key x) (key a)) as [E|N].
  - exists a. split; [apply in_or_app; right; now left|].
    split; [now symmetry|]. split.
    + apply in_app_or in I as [I|[<-|[]]]; [right; now apply Ra | now left].
    + rewrite E. apply get_set_same.
  - apply in_app_or in I as [I|[<-|[]]]; [|now elim N].
    destruct (IH S x I) as (y & Iy & Ky & Ry & G). exists y.
    rewrite get_set_other by exact N.
    repeat split; [apply in_or_app; now left | exact Ky | exact Ry | exact G].
Qed.

End Fold.

Section Tables.
Variables (fqns : list string) (fields_info : Dict.t Props.t)
          (field_descriptions : Dict.t string) (base_address : Z).

(** With names that are all different, the dictionary of a peripheral is
    the list of its registers in the order of their addresses. *)
Lemma add_registers_map (regs : list RegisterInfo.t) :
  NoDup (map RegisterInfo.reg_name regs) ->
  add_registers fqns fields_info field_descriptions base_address regs
  = map (fun r =>
           (RegisterInfo.reg_name r,
            make_register fqns fields_info field_descriptions base_address
              r))
      (by_addr regs).
Proof.
  intros N. unfold add_registers.
  rewrite (fold_set_map RegisterInfo.reg_name
             (make_register fqns fields_info field_descriptions
                base_address)); [reflexivity|].
  simpl. eapply Permutation_NoDup; [|exact N].
  apply Permutation_map. symmetry. apply sorted_perm.
Qed.

Lemma add_registers_get (regs : list RegisterInfo.t) (x : RegisterInfo.t) :
  NoDup (map RegisterInfo.reg_name regs) -> In x regs ->
  get (RegisterInfo.reg_name x)
    (add_registers fqns fields_info field_descriptions base_address regs)
  = Some (make_register fqns fields_info field_descriptions base_address x).
Proof.
  intros N I. rewrite (add_registers_map regs N). apply get_unique.
  - unfold keys. rewrite map_map. simpl.
    eapply Permutation_NoDup; [|exact N].
    apply Permutation_map. symmetry. apply sorted_perm.
  - apply in_map_iff. exists x. split; [reflexivity|].
    now apply SortedFacts.in_sorted.
Qed.

End Tables.

End StoreFacts.

(** X9.  Whatever the names of the registers of a group, the dictionary of
    its peripheral holds, under the name of each of them, a register made of
    one of the group that has this name and an address that is not lower:
    of two registers with the same name the one at the higher address
    replaces the other. *)
Theorem stored_register_has_highest_address (fqns : list string)
    (fields_info : Dict.t Props.t) (field_descriptions : Dict.t string)
    (base_address : Z) (regs : list RegisterInfo.t) (x : RegisterInfo.t) :
  In x regs ->
  exists y,
    In y regs
    /\ RegisterInfo.reg_name y = RegisterInfo.reg_name x
    /\ (RegisterInfo.addr x <= RegisterInfo.addr y)%Z
    /\ Dict.get (RegisterInfo.reg_name x)
         (add_registers fqns fields_info field_descriptions base_address
            regs)
       = Some (make_register fqns fields_info field_descriptions
                 base_address y).
Proof.
  intros I. unfold add_registers.
  destruct (StoreFacts.fold_set_last RegisterInfo.reg_name
              (make_register fqns fields_info field_descriptions
                 base_address)
              (fun a b => (RegisterInfo.addr a <= RegisterInfo.addr b)%Z)
              [] (by_addr regs) (StoreFacts.by_addr_ordered regs) x)
    as (y & Iy & Ky & Ry & G).
  - now apply SortedFacts.in_sorted.
  - exists y. repeat split; [|exact Ky | | exact G].
    + now apply SortedFacts.in_sorted in Iy.
    + destruct Ry as [->|Ry]; [lia | exact Ry].
Qed.

(** X9 at two registers [R], of which the one at 32 is stored. *)
Lemma stored_register_has_highest_address_witness :
  exists y,
    In y [ RegisterInfo.mk "R" 32 "d" "P_R"; RegisterInfo.mk "R" 16 "e" "P_R" ]
    /\ RegisterInfo.reg_name y = "R"
    /\ (16 <= RegisterInfo.addr y)%Z
    /\ Dict.get "R"
         (add_registers [] [] [] 16
            [ RegisterInfo.mk "R" 32 "d" "P_R";
              RegisterInfo.mk "R" 16 "e" "P_R" ])
       = Some (make_register [] [] [] 16 y).
Proof.
  apply (stored_register_has_highest_address [] [] [] 16
           [ RegisterInfo.mk "R" 32 "d" "P_R";
             RegisterInfo.mk "R" 16 "e" "P_R" ]
           (RegisterInfo.mk "R" 16 "e" "P_R")).
  right. left. reflexivity.
Defined.

(** X10.  When the registers of a group have names that are all different,
    the dictionary of its peripheral holds every one of them under its name,
    nothing else, and in the order of their offsets. *)
Theorem registers_stored_in_address_order (fqns : list string)
    (fields_info : Dict.t Props.t) (field_descriptions : Dict.t string)
    (base_address : Z) (regs : list RegisterInfo.t) :
  NoDup (map RegisterInfo.reg_name regs) ->
  let registers :=
    add_registers fqns fields_info field_descriptions base_address regs in
  (forall x,
      In x regs ->
      Dict.get (RegisterInfo.reg_name x) registers
      = Some (make_register fqns fields_info field_descriptions
                base_address x))
  /\ length registers = length regs
  /\ StronglySorted
       (fun a b =>
          (Register.address_offset (snd a)
           <= Register.address_offset (snd b))%Z)
       registers.
Proof.
  intros N registers. split; [|split].
  - intros x I. now apply StoreFacts.add_registers_get.
  - unfold registers. rewrite (StoreFacts.add_registers_map _ _ _ _ regs N).
    rewrite length_map. apply Permutation_length. apply StoreFacts.sorted_perm.
  - unfold registers. rewrite (StoreFacts.add_registers_map _ _ _ _ regs N).
    apply (StoreFacts.sorted_map
             (fun a b => (RegisterInfo.addr a <= RegisterInfo.addr b)%Z));
      [|apply StoreFacts.by_addr_ordered].
    intros a b H. simpl. lia.
Qed.

(** X10 at the group of [sample_groups]. *)
Lemma registers_stored_in_address_order_witness :
  let regs :=
    [ RegisterInfo.mk "R" 32 "d" "P_R"; RegisterInfo.mk "S" 16 "e" "P_S" ] in
  let registers := add_registers [] [] [] 16 regs in
  (forall x,
      In x regs ->
      Dict.get (RegisterInfo.reg_name x) registers
      = Some (make_register [] [] [] 16 x))
  /\ length registers = length regs
  /\ StronglySorted
       (fun a b =>
          (Register.address_offset (snd a)
           <= Register.address_offset (snd b))%Z)
       registers.
Proof.
  apply (registers_stored_in_address_order [] [] [] 16
           [ RegisterInfo.mk "R" 32 "d" "P_R";
             RegisterInfo.mk "S" 16 "e" "P_S" ]).
  repeat constructor; simpl; intuition discriminate.
Defined.

(** ** From the header to the tree *)

Module PipelineFacts.
Import Dict DictFacts.

(** The defines of [registers_info] are all different. *)
Lemma run_lines_registers_nodup (lines : list string) :
  forall st st',
    run_lines st lines = Ok st' ->
    NoDup (keys (registers_info (parsed st))) ->
    NoDup (keys (registers_info (parsed st'))).
Proof.
  induction lines as [|l lines IH]; intros st st' H N; simpl in H.
  - now injection H as <-.
  - destruct (step st l) as [st1|] eqn:S; [|discriminate]. cbn [bind] in H.
    apply (IH st1 st' H). rewrite (StepFacts.step_registers_info st st1 l S).
    destruct (register_definition l) as [[n rd]|]; [|exact N].
    now apply GroupShape.keys_set_nodup.
Qed.

Lemma parse_registers_nodup (lines : list string) (h : ParsedHeader) :
  parse_header_lines lines = Ok h -> NoDup (keys (registers_info h)).
Proof.
  unfold parse_header_lines.
  destruct (run_lines initial_state lines) as [st|] eqn:R; [|discriminate].
  cbn [bind]. intros H. injection H as <-.
  apply (run_lines_registers_nodup lines initial_state st R). constructor.
Qed.

Section Tables.
Variables fp fr : Dict.t string.

Lemma in_group_of (p : string) (l : Dict.t RegAddrDesc.t)
    (y : RegisterInfo.t) :
  In y (group_of fp fr p l) <->
  exists k ad r,
    In (k, ad) l /\ attributed fp fr k = Some (p, r)
    /\ y = register_info r k ad.
Proof.
  unfold group_of. rewrite in_flat_map. split.
  - intros [[k ad] [I H]]. cbn [fst snd] in H.
    destruct (attributed fp fr k) as [[p' r]|] eqn:A; [|destruct H].
    destruct (String.eqb_spec p p') as [<-|_]; [|destruct H].
    destruct H as [<-|[]]. now exists k, ad, r.
  - intros (k & ad & r & I & A & ->). exists (k, ad). split; [exact I|].
    cbn [fst snd]. rewrite A, String.eqb_refl. now left.
Qed.

(** In a group, no two registers have the same name. *)
Lemma group_of_names_nodup (p : string) (l : Dict.t RegAddrDesc.t) :
  names_consistent fp fr -> NoDup (keys l) ->
  NoDup (map RegisterInfo.reg_name (group_of fp fr p l)).
Proof.
  intros C. induction l as [|[k ad] l IH]; intros N; [constructor|].
  inversion N as [|? ? N1 N2]; subst. specialize (IH N2).
  change (group_of fp fr p ((k, ad) :: l))
    with ((match attributed fp fr k with
           | Some (p', r) =>
               if String.eqb p p' then [register_info r k ad] else []
           | None => []
           end) ++ group_of fp fr p l)%list.
  destruct (attributed fp fr k) as [[p' r]|] eqn:A; [|exact IH].
  destruct (String.eqb_spec p p') as [<-|_]; [|exact IH].
  simpl. constructor; [|exact IH]. intros I.
  apply in_map_iff in I as [y [E I]].
  apply in_group_of in I as (k' & ad' & r' & I' & A' & ->).
  simpl in E. subst r'.
  destruct (NameFacts.attributed_joined fp fr k p r C A) as [-> _].
  destruct (NameFacts.attributed_joined fp fr k' p r C A') as [-> _].
  apply N1. apply in_map_iff. now exists (p ++ "_" ++ r, ad').
Qed.

End Tables.

Section Build.
Variables (fqns : list string) (fields_info : Dict.t Props.t)
          (field_descriptions : Dict.t string).

Lemma make_peripheral_name (n : string) (regs : list RegisterInfo.t)
    (q : Peripheral.t) :
  make_peripheral fqns fields_info field_descriptions n regs = Some q ->
  Peripheral.name q = n.
Proof.
  unfold make_peripheral. destruct regs; [discriminate|].
  intros H. now injection H as <-.
Qed.

Lemma peripherals_other (p : string) (l : Groups) :
  (forall g, In g l -> fst g <> p) ->
  forall d0 : Dict.t Peripheral.t,
    get p
      (fold_left
         (fun acc g =>
            match make_peripheral fqns fields_info field_descriptions
                    (fst g) (snd g) with
            | Some q => set (Peripheral.name q) q acc
            | None => acc
            end) l d0)
    = get p d0.
Proof.
  induction l as [|[n regs] l IH]; intros H d0; simpl; [reflexivity|].
  rewrite IH by (intros g I; apply H; now right).
  destruct (make_peripheral fqns fields_info field_descriptions n regs)
    as [q|] eqn:M; [|reflexivity].
  rewrite (make_peripheral_name n regs q M).
  apply get_set_other. intros ->. now apply (H (n, regs) (or_introl eq_refl)).
Qed.

(** The peripheral of a group is in the tree under the name of the
    group. *)
Lemma peripherals_get (p : string) (regs : list RegisterInfo.t)
    (q : Peripheral.t) (l : Groups) :
  NoDup (keys l) -> In (p, regs) l ->
  make_peripheral fqns fields_info field_descriptions p regs = Some q ->
  forall d0 : Dict.t Peripheral.t,
    get p
      (fold_left
         (fun acc g =>
            match make_peripheral fqns fields_info field_descriptions
                    (fst g) (snd g) with
            | Some q => set (Peripheral.name q) q acc
            | None => acc
            end) l d0)
    = Some q.
Proof.
  intros N I M. induction l as [|[n regs'] l IH]; intros d0; [destruct I|].
  inversion N as [|? ? N1 N2]; subst. simpl. destruct I as [E|I].
  - injection E as -> ->. rewrite M, (make_peripheral_name p regs q M).
    rewrite peripherals_other; [apply get_set_same|].
    intros [n' r'] I' E. simpl in E. subst n'. apply N1.
    apply in_map_iff. now exists (p, r').
  - now apply IH.
Qed.

End Build.

(** The defines of the registers of the groups are the defines of
    [registers_info] that are attributed to a peripheral. *)
Lemma in_all_reg_fqns (fp fr : Dict.t string) (ri : Dict.t RegAddrDesc.t)
    (k : string) :
  In k (all_reg_fqns (fold_left (groups_step fp fr) ri [])) <->
  exists ad p r, In (k, ad) ri /\ attributed fp fr k = Some (p, r).
Proof.
  unfold all_reg_fqns. rewrite in_flat_map. split.
  - intros [[p regs] [I H]]. cbn [snd] in H.
    apply in_map_iff in H as [x [<- Ix]].
    destruct (GroupFacts.group_sound fp fr _ _ _ _ _ I Ix)
      as [[regs0 [[] _]]|(k' & ad & r & Ik & A & ->)].
    now exists ad, p, r.
  - intros (ad & p & r & I & A).
    destruct (GroupFacts.group_complete fp fr ri [] k ad p r I A)
      as (regs & Ig & Ix).
    exists (p, regs). split; [exact Ig|]. cbn [snd].
    apply in_map_iff. now exists (register_info r k ad).
Qed.

(** A register that is attributed to a peripheral is in the tree, in that
    peripheral and under its name. *)
Lemma register_stored (ri : Dict.t RegAddrDesc.t) (fp fr : Dict.t string)
    (device_name device_description : string) (fields_info : Dict.t Props.t)
    (field_descriptions : Dict.t string) (k p r : string)
    (ad : RegAddrDesc.t) :
  names_consistent fp fr -> NoDup (keys ri) ->
  In (k, ad) ri -> attributed fp fr k = Some (p, r) ->
  exists base regs,
    get p
      (Device.peripherals
         (build_device_tree device_name device_description
            (fold_left (groups_step fp fr) ri []) fields_info
            field_descriptions))
    = Some (Peripheral.mk p base (p ++ " Peripheral") regs)
    /\ get r regs
       = Some (make_register
                 (all_reg_fqns (fold_left (groups_step fp fr) ri []))
                 fields_info field_descriptions base
                 (register_info r k ad)).
Proof.
  intros C N I A.
  set (x := register_info r k ad).
  assert (Ix : In x (group_of fp fr p ri)).
  { apply in_group_of. now exists k, ad, r. }
  pose proof (group_of_names_nodup fp fr p ri C N) as Nn.
  pose proof (GroupShape.groups_fold_get fp fr ri p []) as Gp.
  cbn [get] in Gp.
  destruct (group_of fp fr p ri) as [|r0 rs] eqn:Eg; [destruct Ix|].
  set (groups := fold_left (groups_step fp fr) ri []) in *.
  set (fqns := all_reg_fqns groups).
  exists (min_addr r0 rs),
    (add_registers fqns fields_info field_descriptions (min_addr r0 rs)
       (r0 :: rs)).
  split.
  - cbn [build_device_tree Device.peripherals]. fold fqns.
    apply (peripherals_get fqns fields_info field_descriptions p (r0 :: rs)).
    + apply GroupShape.groups_fold_nodup. constructor.
    + now apply get_In.
    + reflexivity.
  - now apply (StoreFacts.add_registers_get fqns fields_info
                 field_descriptions (min_addr r0 rs) (r0 :: rs) x).
Qed.

(** Among the known defines that a prefix extends with an underscore, the
    longest owns it. *)
Lemma longest_owns (fqns : list string) (field_prefix : string) :
  (exists m, In m fqns /\ Str.startswith field_prefix (m ++ "_") = true) ->
  exists m,
    In m fqns /\ owns fqns m field_prefix = true
    /\ forall m',
         In m' fqns -> Str.startswith field_prefix (m' ++ "_") = true ->
         String.length m' <= String.length m.
Proof.
  intros E.
  destruct (OwnerShape.longest_candidate field_prefix fqns E)
    as (m & I & S & M).
  exists m. repeat split; [exact I| |exact M].
  unfold owns. rewrite S. simpl. apply negb_true_iff.
  unfold is_more_specific_match.
  destruct (existsb _ fqns) eqn:X; [|reflexivity].
  apply existsb_exists in X as [o [Io H]].
  apply andb_true_iff in H as [H So]. apply andb_true_iff in H as [L _].
  apply Nat.ltb_lt in L. specialize (M o Io So). lia.
Qed.

End PipelineFacts.

(** X11.  No register is lost on the way from the header to the tree.  When
    the conversion returns, every define of [registers_info] either is
    attributed to no peripheral and has its warning printed, or is the name of
    a peripheral, an underscore and the name of a register, and the tree has
    that peripheral and, in it, that register, at an offset which added to the
    base address of the peripheral gives the address of the define, and with
    the description of the define, or the name of the register when that
    description is empty. *)
Theorem no_register_lost (lines : list string)
    (device_name device_description : string) (h : ParsedHeader)
    (dev : Device.t) (err : list string) (reg_define : string)
    (ad : RegAddrDesc.t) :
  parse_header_lines lines = Ok h ->
  parse_header_to_device_tree lines device_name device_description
  = Ok (dev, err) ->
  Dict.get reg_define (registers_info h) = Some ad ->
  (attributed (reg_fqn_to_periph h) (reg_fqn_to_regname h) reg_define = None
   /\ In (warning reg_define) err)
  \/ exists periph_name reg_name per reg,
       attributed (reg_fqn_to_periph h) (reg_fqn_to_regname h) reg_define
       = Some (periph_name, reg_name)
       /\ reg_define = periph_name ++ "_" ++ reg_name
       /\ Dict.get periph_name (Device.peripherals dev) = Some per
       /\ Peripheral.name per = periph_name
       /\ Dict.get reg_name (Peripheral.registers per) = Some reg
       /\ Register.name reg = reg_name
       /\ (Peripheral.base_address per + Register.address_offset reg
           = RegAddrDesc.addr ad)%Z
       /\ Register.description reg
          = (if Str.truthy (RegAddrDesc.desc ad) then RegAddrDesc.desc ad
             else reg_name).
Proof.
  intros P T G. unfold parse_header_to_device_tree in T. rewrite P in T.
  cbn [bind] in T. unfold group_registers_by_peripheral in T.
  rewrite GroupFacts.group_fold_split in T. injection T as <- <-.
  pose proof (NameFacts.parse_names lines h P) as C.
  pose proof (PipelineFacts.parse_registers_nodup lines h P) as N.
  apply DictFacts.get_In in G.
  destruct (attributed (reg_fqn_to_periph h) (reg_fqn_to_regname h)
              reg_define) as [[p r]|] eqn:A.
  - right.
    destruct (NameFacts.attributed_joined _ _ reg_define p r C A)
      as (E & _ & _).
    destruct (PipelineFacts.register_stored (registers_info h) _ _
                device_name device_description (fields_info h)
                (field_descriptions h) reg_define p r ad C N G A)
      as (base & regs & Gp & Gr).
    exists p, r, (Peripheral.mk p base (p ++ " Peripheral") regs),
      (make_register
         (all_reg_fqns
            (fold_left
               (groups_step (reg_fqn_to_periph h) (reg_fqn_to_regname h))
               (registers_info h) []))
         (fields_info h) (field_descriptions h) base
         (register_info r reg_define ad)).
    split; [reflexivity|]. split; [exact E|]. split; [exact Gp|].
    split; [reflexivity|]. split; [exact Gr|].
    cbn. repeat split. lia.
  - left. split; [reflexivity|]. cbn [app].
    apply GroupFacts.printed_warning; [|exact A].
    apply in_map_iff. now exists (reg_define, ad).
Qed.

(** X11 at the header of the end-to-end example in the format of the
    patterns. *)
Lemma no_register_lost_witness :
  (attributed [("UART_CTRL", "UART")] [("UART_CTRL", "CTRL")] "UART_CTRL"
   = None
   /\ In (warning "UART_CTRL") [])
  \/ exists periph_name reg_name per reg,
       attributed [("UART_CTRL", "UART")] [("UART_CTRL", "CTRL")] "UART_CTRL"
       = Some (periph_name, reg_name)
       /\ "UART_CTRL" = periph_name ++ "_" ++ reg_name
       /\ Dict.get periph_name (Device.peripherals (uart_tree "D" ""))
          = Some per
       /\ Peripheral.name per = periph_name
       /\ Dict.get reg_name (Peripheral.registers per) = Some reg
       /\ Register.name reg = reg_name
       /\ (Peripheral.base_address per + Register.address_offset reg
           = 4096)%Z
       /\ Register.description reg = "Control register".
Proof.
  apply (no_register_lost uart_header_in_format "D" ""
           (mkParsedHeader
              [("UART_CTRL", RegAddrDesc.mk 4096 "Control register")]
              [("UART_CTRL_ENABLE", Props.mk (Some 0%Z) (Some 1%Z))]
              [("UART_CTRL_ENABLE", "Enable bit")]
              [("UART_CTRL", "UART")] [("UART_CTRL", "CTRL")])
           (uart_tree "D" "") [] "UART_CTRL"
           (RegAddrDesc.mk 4096 "Control register")).
  - vm_compute. reflexivity.
  - vm_compute. reflexivity.
  - reflexivity.
Defined.

(** X12.  No field is lost either.  When the conversion returns, an entry
    of [fields_info] that has both properties and whose prefix extends, with
    an underscore, the define of a register that is attributed to a
    peripheral gives one field of the tree: it is in the register of the
    longest such define, its owner; the define of the owner, an underscore and
    the name of the field make up the prefix; the field has the two properties
    of the entry and the description recorded for the prefix, or its name when
    none is recorded. *)
Theorem no_field_lost (lines : list string)
    (device_name device_description : string) (h : ParsedHeader)
    (dev : Device.t) (err : list string) (field_prefix reg_define : string)
    (o w : Z) (ad : RegAddrDesc.t) (p0 r0 : string) :
  parse_header_lines lines = Ok h ->
  parse_header_to_device_tree lines device_name device_description
  = Ok (dev, err) ->
  Dict.get field_prefix (fields_info h) = Some (Props.mk (Some o) (Some w)) ->
  Dict.get reg_define (registers_info h) = Some ad ->
  attributed (reg_fqn_to_periph h) (reg_fqn_to_regname h) reg_define
  = Some (p0, r0) ->
  Str.startswith field_prefix (reg_define ++ "_") = true ->
  exists owner periph_name reg_name per reg f,
    attributed (reg_fqn_to_periph h) (reg_fqn_to_regname h) owner
    = Some (periph_name, reg_name)
    /\ Str.startswith field_prefix (owner ++ "_") = true
    /\ String.length reg_define <= String.length owner
    /\ Dict.get periph_name (Device.peripherals dev) = Some per
    /\ Dict.get reg_name (Peripheral.registers per) = Some reg
    /\ In f (Register.fields reg)
    /\ owner ++ "_" ++ Field.name f = field_prefix
    /\ Field.bit_offset f = o /\ Field.bit_width f = w
    /\ Field.description f
       = match Dict.get field_prefix (field_descriptions h) with
         | Some d => d
         | None => Field.name f
         end.
Proof.
  intros P T Gf Gr A0 S0. unfold parse_header_to_device_tree in T.
  rewrite P in T. cbn [bind] in T. unfold group_registers_by_peripheral in T.
  rewrite GroupFacts.group_fold_split in T. injection T as <- <-.
  pose proof (NameFacts.parse_names lines h P) as C.
  pose proof (PipelineFacts.parse_registers_nodup lines h P) as N.
  apply DictFacts.get_In in Gr. apply DictFacts.get_In in Gf.
  set (fp := reg_fqn_to_periph h) in *. set (fr := reg_fqn_to_regname h) in *.
  set (groups := fold_left (groups_step fp fr) (registers_info h) []).
  set (fqns := all_reg_fqns groups).
  destruct (PipelineFacts.longest_owns fqns field_prefix)
    as (m & Im & Om & Mm).
  { exists reg_define. split; [|exact S0].
    apply PipelineFacts.in_all_reg_fqns. now exists ad, p0, r0. }
  pose proof Im as Im'.
  apply PipelineFacts.in_all_reg_fqns in Im' as (ad' & p & r & I' & A').
  destruct (PipelineFacts.register_stored (registers_info h) fp fr
              device_name device_description (fields_info h)
              (field_descriptions h) m p r ad' C N I' A')
    as (base & regs & Gp & Gg).
  destruct (OwnerShape.owns_candidate _ _ _ Om) as [Sm _].
  set (name := Str.drop (String.length m + 1) field_prefix).
  set (f := Field.mk name
              (match Dict.get field_prefix (field_descriptions h) with
               | Some d => d
               | None => name
               end) o w).
  exists m, p, r, (Peripheral.mk p base (p ++ " Peripheral") regs),
    (make_register fqns (fields_info h) (field_descriptions h) base
       (register_info r m ad')), f.
  split; [exact A'|]. split; [exact Sm|]. split.
  { apply Mm; [|exact S0].
    apply PipelineFacts.in_all_reg_fqns. now exists ad, p0, r0. }
  split; [exact Gp|]. split; [exact Gg|]. split.
  { cbn [make_register Register.fields register_info
         RegisterInfo.reg_define]. unfold register_fields.
    apply in_flat_map. exists (field_prefix, Props.mk (Some o) (Some w)).
    split; [exact Gf|]. unfold field_of. fold fqns. rewrite Om.
    cbn [Props.bitOffset Props.bitWidth]. now left. }
  split; [|now repeat split].
  cbn [f Field.name]. unfold name.
  apply StrFacts.startswith_iff in Sm as [t ->].
  rewrite StrFacts.append_assoc, FallbackFacts.drop_app_plus. reflexivity.
Qed.

(** X12 at the header of the end-to-end example in the format of the
    patterns. *)
Lemma no_field_lost_witness :
  exists owner periph_name reg_name per reg f,
    attributed [("UART_CTRL", "UART")] [("UART_CTRL", "CTRL")] owner
    = Some (periph_name, reg_name)
    /\ Str.startswith "UART_CTRL_ENABLE" (owner ++ "_") = true
    /\ String.length "UART_CTRL" <= String.length owner
    /\ Dict.get periph_name (Device.peripherals (uart_tree "D" ""))
       = Some per
    /\ Dict.get reg_name (Peripheral.registers per) = Some reg
    /\ In f (Register.fields reg)
    /\ owner ++ "_" ++ Field.name f = "UART_CTRL_ENABLE"
    /\ Field.bit_offset f = 0%Z /\ Field.bit_width f = 1%Z
    /\ Field.description f
       = match Dict.get "UART_CTRL_ENABLE"
                 [("UART_CTRL_ENABLE", "Enable bit")] with
         | Some d => d
         | None => Field.name f
         end.
Proof.
  apply (no_field_lost uart_header_in_format "D" ""
           (mkParsedHeader
              [("UART_CTRL", RegAddrDesc.mk 4096 "Control register")]
              [("UART_CTRL_ENABLE", Props.mk (Some 0%Z) (Some 1%Z))]
              [("UART_CTRL_ENABLE", "Enable bit")]
              [("UART_CTRL", "UART")] [("UART_CTRL", "CTRL")])
           (uart_tree "D" "") [] "UART_CTRL_ENABLE" "UART_CTRL" 0%Z 1%Z
           (RegAddrDesc.mk 4096 "Control register") "UART" "CTRL").
  - vm_compute. reflexivity.
  - vm_compute. reflexivity.
  - reflexivity.
  - reflexivity.
  - reflexivity.
  - reflexivity.
Defined.

(** ** The properties of a field, line by line *)

Module FieldFacts.
Import Dict DictFacts.

Lemma field_definition_prop (raw prefix prop : string) (value : Z) :
  field_definition raw = Some (prefix, prop, value) ->
  prop = "SHIFT" \/ prop = "BITS".
Proof.
  unfold field_definition.
  destruct (define_groups (Str.strip raw)) as [[[n v] c]|]; [|discriminate].
  destruct (is_field_prop n c); [|discriminate].
  destruct (Str.rsplit1 "_" n) as [[p q]|]; [|discriminate].
  destruct (PyInt.int0 v) as [x|]; [|discriminate].
  destruct (String.eqb_spec q "SHIFT") as [->|_].
  - intros H. injection H as _ <- _. now left.
  - destruct (String.eqb_spec q "BITS") as [->|_]; [|discriminate].
    intros H. injection H as _ <- _. now right.
Qed.

(** A turn of the loop changes [fields_info] as [field_definition] says. *)
Lemma step_fields_info (st st' : ParseState) (raw : string) :
  step st raw = Ok st' ->
  fields_info (parsed st')
  = match field_definition raw with
    | Some (prefix, prop, value) =>
        upd Props.empty prefix
          (if String.eqb prop "SHIFT" then Props.set_bitOffset value
           else Props.set_bitWidth value)
          (fields_info (parsed st))
    | None => fields_info (parsed st)
    end.
Proof.
  intros H. apply StepFacts.step_cases in H as (st1 & st2 & P & -> & D).
  destruct (ParseFacts.on_comments_tables st2 (Str.strip raw))
    as (_ & -> & _).
  unfold field_definition.
  destruct (define_groups (Str.strip raw)) as [[[n v] c]|];
    [|subst st2; now rewrite P].
  apply StepFacts.on_define_cases in D
    as [[F D]|[(F & S & value & I & ->)|(F & S & ->)]]; rewrite F;
    [|cbn; now rewrite P | now rewrite P].
  apply ParseFacts.on_field_prop_inv in D
    as (prefix & prop & value & R & I & _ & E & _).
  rewrite R, I, E, P.
  destruct (String.eqb prop "SHIFT") eqn:Es; cbn [orb].
  - now rewrite Es.
  - destruct (String.eqb prop "BITS"); [now rewrite Es | reflexivity].
Qed.

(** A line that defines the property writes it. *)
Lemma step_writes (st st' : ParseState) (raw prefix prop : string)
    (value : Z) :
  field_definition raw = Some (prefix, prop, value) ->
  step st raw = Ok st' ->
  exists props,
    get prefix (fields_info (parsed st')) = Some props
    /\ property prop props = Some value.
Proof.
  intros F H. rewrite (step_fields_info st st' raw H), F, get_upd_same.
  eexists. split; [reflexivity|]. unfold property.
  now destruct (String.eqb prop "SHIFT").
Qed.

(** A line that does not define the property keeps it. *)
Lemma step_keeps (st st' : ParseState) (raw prefix prop : string)
    (value : Z) :
  prop = "SHIFT" \/ prop = "BITS" ->
  (forall v, field_definition raw <> Some (prefix, prop, v)) ->
  (exists props,
      get prefix (fields_info (parsed st)) = Some props
      /\ property prop props = Some value) ->
  step st raw = Ok st' ->
  exists props,
    get prefix (fields_info (parsed st')) = Some props
    /\ property prop props = Some value.
Proof.
  intros Hp N (props & G & V) H. rewrite (step_fields_info st st' raw H).
  destruct (field_definition raw) as [[[prefix' prop'] v']|] eqn:F;
    [|now exists props].
  destruct (String.eqb_spec prefix prefix') as [<-|Np].
  - rewrite get_upd_same, G. eexists. split; [reflexivity|].
    rewrite <- V. unfold property.
    destruct (field_definition_prop raw prefix prop' v' F) as [-> | ->];
      destruct Hp as [-> | ->]; try reflexivity; now elim (N v').
  - rewrite get_upd_other by exact Np. now exists props.
Qed.

Lemma run_lines_keeps (lines : list string) (prefix prop : string)
    (value : Z) :
  prop = "SHIFT" \/ prop = "BITS" ->
  (forall l, In l lines ->
             forall v, field_definition l <> Some (prefix, prop, v)) ->
  forall st st',
    (exists props,
        get prefix (fields_info (parsed st)) = Some props
        /\ property prop props = Some value) ->
    run_lines st lines = Ok st' ->
    exists props,
      get prefix (fields_info (parsed st')) = Some props
      /\ property prop props = Some value.
Proof.
  intros Hp. induction lines as [|l lines IH]; intros N st st' G H;
    simpl in H.
  - now injection H as <-.
  - destruct (step st l) as [st1|] eqn:S; [|discriminate]. cbn [bind] in H.
    apply (IH (fun l' I => N l' (or_intror I)) st1 st'); [|exact H].
    apply (step_keeps st st1 l prefix prop value Hp
             (N l (or_introl eq_refl)) G S).
Qed.

End FieldFacts.

(** X13.  Of the defines of [prefix_SHIFT] in a header, the last one gives
    the bit offset that [fields_info] holds for the prefix when the parse
    returns, and likewise the last define of [prefix_BITS] gives the bit
    width: a later define of the other property, or of another prefix, does
    not touch it. *)
Theorem last_field_property_wins (l0 l2 : list string)
    (raw prefix prop : string) (value : Z) (h : ParsedHeader) :
  field_definition raw = Some (prefix, prop, value) ->
  (forall l, In l l2 ->
             forall v, field_definition l <> Some (prefix, prop, v)) ->
  parse_header_lines (l0 ++ raw :: l2)%list = Ok h ->
  exists props,
    Dict.get prefix (fields_info h) = Some props
    /\ property prop props = Some value.
Proof.
  intros F Later H. unfold parse_header_lines in H.
  rewrite StepFacts.run_lines_app in H.
  destruct (run_lines initial_state l0) as [st0|]; [|discriminate].
  cbn [bind run_lines] in H.
  destruct (step st0 raw) as [st1|] eqn:S; [|discriminate].
  cbn [bind] in H.
  destruct (run_lines st1 l2) as [st2|] eqn:R; [|discriminate].
  cbn [bind] in H. injection H as <-.
  apply (FieldFacts.run_lines_keeps l2 prefix prop value
           (FieldFacts.field_definition_prop raw prefix prop value F)
           Later st1 st2); [|exact R].
  now apply (FieldFacts.step_writes st0 st1 raw).
Qed.

(** X13 at a header that defines [P_R_F_SHIFT] twice, then [P_R_F_BITS]. *)
Lemma last_field_property_wins_witness :
  exists props,
    Dict.get "P_R_F" [("P_R_F", Props.mk (Some 4%Z) (Some 2%Z))] = Some props
    /\ property "SHIFT" props = Some 4%Z.
Proof.
  apply (last_field_property_wins ["#define P_R_F_SHIFT 3"]
           ["#define P_R_F_BITS 2"] "#define P_R_F_SHIFT 4" "P_R_F" "SHIFT"
           4%Z
           (mkParsedHeader [] [("P_R_F", Props.mk (Some 4%Z) (Some 2%Z))]
              [] [] [])).
  - vm_compute. reflexivity.
  - intros l [<-|[]] v H. vm_compute in H. discriminate H.
  - vm_compute. reflexivity.
Defined.

(** ** White space around a line *)

Module StripFacts.
Import Str.

Lemma all_chars_cons (p : ascii -> bool) (a : ascii) (s : string) :
  all_chars p (String a s) = p a && all_chars p s.
Proof. reflexivity. Qed.

Lemma lstrip_blank (ws : string) :
  all_chars is_space ws = true -> lstrip ws = "".
Proof.
  induction ws as [|a ws IH]; [reflexivity|]. rewrite all_chars_cons.
  intros H. apply andb_true_iff in H as [A H]. cbn [lstrip]. rewrite A.
  now apply IH.
Qed.

Lemma rstrip_blank (ws : string) :
  all_chars is_space ws = true -> rstrip ws = "".
Proof.
  induction ws as [|a ws IH]; [reflexivity|]. rewrite all_chars_cons.
  intros H. apply andb_true_iff in H as [A H]. cbn [rstrip].
  now rewrite (IH H), A.
Qed.

(** [lstrip] of two pieces. *)
Lemma lstrip_app (s t : string) :
  lstrip (s ++ t)
  = if all_chars is_space s then lstrip t else lstrip s ++ t.
Proof.
  induction s as [|a s IH]; [reflexivity|].
  rewrite all_chars_cons. cbn [append lstrip].
  destruct (is_space a); [exact IH | reflexivity].
Qed.

Lemma rstrip_app_blank (s ws : string) :
  all_chars is_space ws = true -> rstrip (s ++ ws) = rstrip s.
Proof.
  intros H. induction s as [|a s IH]; cbn [append rstrip].
  - now apply rstrip_blank.
  - now rewrite IH.
Qed.

(** White space before and after a line is stripped with the line's own. *)
Lemma strip_blank_around (lead raw trail : string) :
  all_chars is_space lead = true -> all_chars is_space trail = true ->
  strip (lead ++ raw ++ trail) = strip raw.
Proof.
  intros L T. unfold strip. rewrite lstrip_app, L, lstrip_app.
  destruct (all_chars is_space raw) eqn:R.
  - now rewrite (lstrip_blank trail T), (lstrip_blank raw R).
  - now apply rstrip_app_blank.
Qed.

End StripFacts.

(** X14.  White space around a line does not count: a line with the
    characters of [str.isspace] before and after it, such as its indentation
    and its end of line, takes the loop to the same state, or to the same
    exception, as the line alone; so a header read line by line from a file
    is parsed as the list of its lines without their ends. *)
Theorem surrounding_whitespace_ignored (lead trail : string) :
  Str.all_chars Str.is_space lead = true ->
  Str.all_chars Str.is_space trail = true ->
  (forall st raw, step st (lead ++ raw ++ trail) = step st raw)
  /\ (forall lines,
        parse_header_lines (map (fun raw => lead ++ raw ++ trail) lines)
        = parse_header_lines lines).
Proof.
  intros L T.
  assert (S : forall st raw, step st (lead ++ raw ++ trail) = step st raw).
  { intros st raw. unfold step.
    now rewrite (StripFacts.strip_blank_around lead raw trail L T). }
  split; [exact S|]. intros lines. unfold parse_header_lines. f_equal.
  generalize initial_state.
  induction lines as [|l lines IH]; intros st; cbn [map run_lines];
    [reflexivity|].
  rewrite S. destruct (step st l) as [st1|]; cbn [bind];
    [apply IH | reflexivity].
Qed.

(** X14 at lines that end with a line feed. *)
Lemma surrounding_whitespace_ignored_witness :
  (forall st raw, step st ("" ++ raw ++ String "010" "") = step st raw)
  /\ (forall lines,
        parse_header_lines
          (map (fun raw => "" ++ raw ++ String "010" "") lines)
        = parse_header_lines lines).
Proof.
  apply (surrounding_whitespace_ignored "" (String "010" ""));
    reflexivity.
Defined.

(** ** The description of a field *)

Module DescFacts.
Import Dict DictFacts.

(** A line that [DEFINE_RE] matches starts with [#define]. *)
Lemma define_starts (line : string) x :
  define_groups line = Some x -> Str.startswith line "#define" = true.
Proof.
  unfold define_groups, Re.pmatch, Re.at_here, DEFINE_RE. cbn [Re.run].
  rewrite Nat.eqb_refl.
  destruct (Str.startswith line "#define"); [reflexivity | discriminate].
Qed.

(** A field comment is pending after its line. *)
Lemma on_comments_pending (st : ParseState) (line p r d : string) :
  field_comment_groups line = Some (p, r, d) ->
  last_field_info (on_comments st line)
  = Some (p ++ "_" ++ Str.replace r " " "_", Str.strip d).
Proof.
  intros F. unfold on_comments. rewrite F.
  destruct (Str.truthy p && Str.truthy r && negb (Str.contains r "::"));
    [destruct (mem _ (reg_fqn_to_periph (parsed st)))|]; reflexivity.
Qed.

(** A line without a field comment leaves the pending one alone. *)
Lemma on_comments_no_field (st : ParseState) (line : string) :
  field_comment_groups line = None ->
  last_field_info (on_comments st line) = last_field_info st.
Proof.
  intros F. unfold on_comments. rewrite F.
  destruct (register_comment_groups line) as [[p r]|]; [|reflexivity].
  destruct (Str.truthy p && Str.truthy r && negb (Str.contains r "::"));
    [destruct (mem _ (reg_fqn_to_periph (parsed st)))|]; reflexivity.
Qed.

(** A field property under a pending comment takes its description, unless
    it has one, and uses the comment up. *)
Lemma on_field_prop_describes (st : ParseState)
    (name value_str prefix prop : string) (value : Z)
    (key_base d : string) :
  Str.rsplit1 "_" name = Some (prefix, prop) ->
  PyInt.int0 value_str = Ok value ->
  last_field_info st = Some (key_base, d) ->
  Str.startswith prefix key_base = true ->
  exists st',
    on_field_prop st name value_str = Ok st'
    /\ last_field_info st' = None
    /\ get prefix (field_descriptions (parsed st'))
       = Some (match get prefix (field_descriptions (parsed st)) with
               | Some d0 => d0
               | None => d
               end).
Proof.
  intros R I L S. unfold on_field_prop. rewrite R, I, L, S. cbn [bind].
  eexists. split; [reflexivity|]. cbn [last_field_info parsed].
  split; [reflexivity|].
  destruct (String.eqb prop "SHIFT"), (String.eqb prop "BITS");
    cbn [field_descriptions set_fields_info]; unfold mem;
    (destruct (get prefix (field_descriptions (parsed st))) as [d0|] eqn:G;
     cbn [field_descriptions set_field_descriptions set_fields_info];
     [exact G | apply get_set_same]).
Qed.

End DescFacts.

(** X15.  The description of a field comment goes to the field property
    that is defined on the next line, whichever of the four kinds it is, when
    its prefix starts with the names of the peripheral and of the register of
    the comment joined by an underscore (blanks in the name of the register
    becoming underscores): after the two lines the prefix has a description,
    the one it had before the define or else the stripped text of the comment,
    and the comment is used up unless the line of the define carries a field
    comment of its own. *)
Theorem field_comment_describes_next_property (st st' : ParseState)
    (a b p r d name value_str prefix prop : string)
    (comment : option string) :
  field_comment_groups (Str.strip a) = Some (p, r, d) ->
  define_groups (Str.strip b) = Some (name, value_str, comment) ->
  is_field_prop name comment = true ->
  Str.rsplit1 "_" name = Some (prefix, prop) ->
  Str.startswith prefix (p ++ "_" ++ Str.replace r " " "_") = true ->
  run_lines st [a; b] = Ok st' ->
  exists st1,
    step st a = Ok st1
    /\ Dict.get prefix (field_descriptions (parsed st'))
       = Some (match Dict.get prefix (field_descriptions (parsed st1)) with
               | Some d0 => d0
               | None => Str.strip d
               end)
    /\ (field_comment_groups (Str.strip b) = None ->
        last_field_info st' = None).
Proof.
  intros Fa Db F R S H. cbn [run_lines] in H.
  destruct (step st a) as [st1|] eqn:Sa; [|discriminate]. cbn [bind] in H.
  destruct (step st1 b) as [st2|] eqn:Sb; [|discriminate]. cbn [bind] in H.
  injection H as <-. exists st1. split; [reflexivity|].
  assert (L : last_field_info st1
              = Some (p ++ "_" ++ Str.replace r " " "_", Str.strip d)).
  { apply StepFacts.step_cases in Sa as (s1 & s2 & _ & -> & _).
    now apply DescFacts.on_comments_pending. }
  unfold step in Sb. unfold keeps_context in Sb.
  rewrite (DescFacts.define_starts _ _ Db), Db in Sb. cbn [orb negb] in Sb.
  unfold on_define in Sb. rewrite F in Sb.
  destruct (on_field_prop st1 name value_str) as [s2|] eqn:O;
    [|discriminate]. cbn [bind] in Sb. injection Sb as <-.
  assert (I : exists value, PyInt.int0 value_str = Ok value).
  { unfold on_field_prop in O. rewrite R in O.
    destruct (PyInt.int0 value_str) as [value|]; [|discriminate].
    now exists value. }
  destruct I as [value I].
  destruct (DescFacts.on_field_prop_describes st1 name value_str prefix prop
              value _ _ R I L S) as (s2' & O' & L' & G').
  rewrite O in O'. injection O' as <-.
  destruct (ParseFacts.on_comments_tables s2 (Str.strip b)) as (_ & _ & ->).
  split; [exact G'|]. intros Fb.
  now rewrite (DescFacts.on_comments_no_field s2 _ Fb).
Qed.

(** X15 at a field comment followed by the define of a mask. *)
Lemma field_comment_describes_next_property_witness :
  exists st1,
    step initial_state "/* P :: R :: Enable bit [0:0] */" = Ok st1
    /\ Dict.get "P_R_EN"
         (field_descriptions
            (parsed
               (mkParseState
                  (mkParsedHeader [] [] [("P_R_EN", "Enable bit")]
                     [("P_R", "P")] [("P_R", "R")]) None)))
       = Some (match Dict.get "P_R_EN" (field_descriptions (parsed st1)) with
               | Some d0 => d0
               | None => Str.strip "Enable bit"
               end)
    /\ (field_comment_groups (Str.strip "#define P_R_EN_MASK 0x00000001")
        = None ->
        last_field_info
          (mkParseState
             (mkParsedHeader [] [] [("P_R_EN", "Enable bit")]
                [("P_R", "P")] [("P_R", "R")]) None) = None).
Proof.
  apply (field_comment_describes_next_property initial_state
           (mkParseState
              (mkParsedHeader [] [] [("P_R_EN", "Enable bit")]
                 [("P_R", "P")] [("P_R", "R")]) None)
           "/* P :: R :: Enable bit [0:0] */"
           "#define P_R_EN_MASK 0x00000001" "P" "R " "Enable bit"
           "P_R_EN_MASK" "0x00000001" "P_R_EN" "MASK" None);
    vm_compute; reflexivity.
Defined.

(** ** Names that are recorded, comments that are dropped *)

Module RecordFacts.
Import Dict DictFacts.

(** The comments of a line keep the names that are recorded. *)
Lemma on_comments_name_kept (st : ParseState) (line fqn p : string) :
  get fqn (reg_fqn_to_periph (parsed st)) = Some p ->
  get fqn (reg_fqn_to_periph (parsed (on_comments st line))) = Some p
  /\ get fqn (reg_fqn_to_regname (parsed (on_comments st line)))
     = get fqn (reg_fqn_to_regname (parsed st)).
Proof.
  intros G. unfold on_comments.
  destruct (field_comment_groups line) as [[[q r] d]|];
    [|destruct (register_comment_groups line) as [[q r]|]];
    try (now split);
    (destruct (Str.truthy q && Str.truthy r && negb (Str.contains r "::"));
     [|now split]);
    (destruct (mem _ (reg_fqn_to_periph (parsed st))) eqn:M; [now split|]);
    cbn [parsed reg_fqn_to_periph reg_fqn_to_regname set_reg_fqn];
    apply ParseFacts.mem_false in M;
    (assert (N : fqn <> q ++ "_" ++ Str.replace (Str.strip r) " " "_")
       by (intros ->; congruence));
    rewrite !get_set_other by exact N; now split.
Qed.

Lemma step_name_kept (st st' : ParseState) (raw fqn p : string) :
  get fqn (reg_fqn_to_periph (parsed st)) = Some p ->
  step st raw = Ok st' ->
  get fqn (reg_fqn_to_periph (parsed st')) = Some p
  /\ get fqn (reg_fqn_to_regname (parsed st'))
     = get fqn (reg_fqn_to_regname (parsed st)).
Proof.
  intros G H. apply StepFacts.step_cases in H as (st1 & st2 & P & -> & D).
  assert (E : reg_fqn_to_periph (parsed st2) = reg_fqn_to_periph (parsed st)
              /\ reg_fqn_to_regname (parsed st2)
                 = reg_fqn_to_regname (parsed st)).
  { destruct (define_groups (Str.strip raw)) as [[[n v] c]|].
    - apply NameFacts.on_define_names in D as [-> ->]. now rewrite P.
    - subst st2. now rewrite P. }
  destruct E as [E1 E2]. rewrite <- E1 in G. rewrite <- E2.
  now apply on_comments_name_kept.
Qed.

(** Without a pending comment, a turn of the loop describes nothing. *)
Lemma step_no_pending (st st' : ParseState) (raw : string) :
  last_field_info st = None ->
  step st raw = Ok st' ->
  field_descriptions (parsed st') = field_descriptions (parsed st).
Proof.
  intros L H. unfold step in H.
  set (st1 := if negb (keeps_context (Str.strip raw))
              then mkParseState (parsed st) None else st) in *.
  assert (P : parsed st1 = parsed st /\ last_field_info st1 = None).
  { unfold st1. destruct (negb (keeps_context (Str.strip raw)));
      now split. }
  destruct P as [P L1].
  destruct (define_groups (Str.strip raw)) as [[[n v] c]|].
  - destruct (on_define st1 n v c) as [st2|] eqn:D; [|discriminate].
    cbn [bind] in H. injection H as <-.
    destruct (ParseFacts.on_comments_tables st2 (Str.strip raw))
      as (_ & _ & ->).
    apply StepFacts.on_define_cases in D
      as [[F D]|[(F & S & value & I & ->)|(F & S & ->)]];
      [|cbn; now rewrite P | now rewrite P].
    apply ParseFacts.on_field_prop_inv in D
      as (prefix & prop & value & _ & _ & _ & _
          & [E|(kb & d' & L2 & _)] & _).
    + now rewrite E, P.
    + congruence.
  - cbn [bind] in H. injection H as <-.
    destruct (ParseFacts.on_comments_tables st1 (Str.strip raw))
      as (_ & _ & ->).
    now rewrite P.
Qed.

(** The addresses of [registers_info] are not negative. *)
Lemma run_lines_addresses (lines : list string) :
  forall st st',
    run_lines st lines = Ok st' ->
    (forall k ad, In (k, ad) (registers_info (parsed st)) ->
                  (0 <= RegAddrDesc.addr ad)%Z) ->
    forall k ad, In (k, ad) (registers_info (parsed st')) ->
                 (0 <= RegAddrDesc.addr ad)%Z.
Proof.
  induction lines as [|l lines IH]; intros st st' H A; simpl in H.
  - now injection H as <-.
  - destruct (step st l) as [st1|] eqn:S; [|discriminate]. cbn [bind] in H.
    apply (IH st1 st' H). intros k ad I.
    rewrite (StepFacts.step_registers_info st st1 l S) in I.
    destruct (register_definition l) as [[n rd]|] eqn:R; [|now apply (A k)].
    apply in_set_inv in I as [[-> ->]|I]; [|now apply (A k)].
    unfold register_definition in R.
    destruct (define_groups (Str.strip l)) as [[[n0 v] c]|]; [|discriminate].
    destruct (negb (is_field_prop n0 c) && Str.startswith v "0x");
      [|discriminate].
    destruct (PyInt.int16 v) as [x|] eqn:I16; [|discriminate].
    injection R as _ <-. cbn [RegAddrDesc.addr].
    unfold PyInt.int16 in I16.
    now apply PyIntFacts.hex_digits_nonneg in I16.
Qed.

Lemma parse_addresses (lines : list string) (h : ParsedHeader) :
  parse_header_lines lines = Ok h ->
  forall k ad, In (k, ad) (registers_info h) -> (0 <= RegAddrDesc.addr ad)%Z.
Proof.
  unfold parse_header_lines.
  destruct (run_lines initial_state lines) as [st|] eqn:R; [|discriminate].
  cbn [bind]. intros H. injection H as <-.
  apply (run_lines_addresses lines initial_state st R). intros k ad [].
Qed.

End RecordFacts.

(** X16.  A name that is recorded keeps its peripheral and its register
    through all the lines that follow: of two comments that give the same
    name, joined by an underscore, the first decides, even when the second
    cuts the name at another place. *)
Theorem first_name_wins (st st' : ParseState) (lines : list string)
    (fqn p : string) :
  Dict.get fqn (reg_fqn_to_periph (parsed st)) = Some p ->
  run_lines st lines = Ok st' ->
  Dict.get fqn (reg_fqn_to_periph (parsed st')) = Some p
  /\ Dict.get fqn (reg_fqn_to_regname (parsed st'))
     = Dict.get fqn (reg_fqn_to_regname (parsed st)).
Proof.
  revert st. induction lines as [|l lines IH]; intros st G H; simpl in H.
  - injection H as <-. now split.
  - destruct (step st l) as [st1|] eqn:S; [|discriminate]. cbn [bind] in H.
    destruct (RecordFacts.step_name_kept st st1 l fqn p G S) as [G1 <-].
    now apply IH.
Qed.

(** X16 at the name [A_B_C], recorded for the peripheral [A_B] and then
    given again for the peripheral [A]. *)
Lemma first_name_wins_witness :
  Dict.get "A_B_C" [("A_B_C", "A_B")] = Some "A_B"
  /\ Dict.get "A_B_C" [("A_B_C", "C")]
     = Dict.get "A_B_C" [("A_B_C", "C")].
Proof.
  apply (first_name_wins
           (mkParseState
              (mkParsedHeader [] [] [] [("A_B_C", "A_B")] [("A_B_C", "C")])
              None)
           (mkParseState
              (mkParsedHeader [] [] [] [("A_B_C", "A_B")] [("A_B_C", "C")])
              None)
           ["/* A :: B_C */"] "A_B_C" "A_B").
  - reflexivity.
  - vm_compute. reflexivity.
Defined.

(** X17.  A line that is no define, no comment and not empty, and that
    carries no field comment, drops the pending field comment: whatever is
    defined on the next line is not described by it, and the descriptions
    after the two lines are the ones before them. *)
Theorem interrupted_comment_dropped (st st' : ParseState) (a b : string) :
  keeps_context (Str.strip a) = false ->
  field_comment_groups (Str.strip a) = None ->
  run_lines st [a; b] = Ok st' ->
  field_descriptions (parsed st') = field_descriptions (parsed st).
Proof.
  intros K F H. cbn [run_lines] in H.
  destruct (step st a) as [st1|] eqn:Sa; [|discriminate]. cbn [bind] in H.
  destruct (step st1 b) as [st2|] eqn:Sb; [|discriminate]. cbn [bind] in H.
  injection H as <-.
  assert (L : last_field_info st1 = None
              /\ field_descriptions (parsed st1)
                 = field_descriptions (parsed st)).
  { unfold step in Sa. rewrite K in Sa. cbn [negb] in Sa.
    destruct (define_groups (Str.strip a)) as [x|] eqn:D.
    - apply DescFacts.define_starts in D. unfold keeps_context in K.
      rewrite D in K. discriminate K.
    - cbn [bind] in Sa. injection Sa as <-.
      rewrite (DescFacts.on_comments_no_field _ _ F).
      destruct (ParseFacts.on_comments_tables
                  (mkParseState (parsed st) None) (Str.strip a))
        as (_ & _ & ->).
      now split. }
  destruct L as [L <-]. now apply (RecordFacts.step_no_pending st1 st2 b).
Qed.

(** X17 at a field comment, a line of code and the define of a field
    property: the property gets no description. *)
Lemma interrupted_comment_dropped_witness :
  field_descriptions
    (parsed
       (mkParseState
          (mkParsedHeader [] [("P_R_F", Props.mk (Some 0%Z) None)] []
             [("P_R", "P")] [("P_R", "R")]) None))
  = field_descriptions
      (parsed
         (mkParseState (mkParsedHeader [] [] [] [("P_R", "P")] [("P_R", "R")])
            (Some ("P_R_", "first")))).
Proof.
  apply (interrupted_comment_dropped
           (mkParseState
              (mkParsedHeader [] [] [] [("P_R", "P")] [("P_R", "R")])
              (Some ("P_R_", "first")))
           (mkParseState
              (mkParsedHeader [] [("P_R_F", Props.mk (Some 0%Z) None)] []
                 [("P_R", "P")] [("P_R", "R")]) None)
           "int x;" "#define P_R_F_SHIFT 0");
    vm_compute; reflexivity.
Defined.

(** X18.  Every register of the tree is a define of the header.  When the
    conversion returns, a register stored in a peripheral of the tree is the
    entry of [registers_info] under the name of the peripheral, an underscore
    and the name of the register, which is attributed to that peripheral with
    that name; the base address of the peripheral and the offset of the
    register add up to the address of the define, and neither is negative. *)
Theorem every_register_defined (lines : list string)
    (device_name device_description : string) (h : ParsedHeader)
    (dev : Device.t) (err : list string) (pn rn : string)
    (per : Peripheral.t) (reg : Register.t) :
  parse_header_lines lines = Ok h ->
  parse_header_to_device_tree lines device_name device_description
  = Ok (dev, err) ->
  In (pn, per) (Device.peripherals dev) ->
  In (rn, reg) (Peripheral.registers per) ->
  exists ad,
    Dict.get (pn ++ "_" ++ rn) (registers_info h) = Some ad
    /\ attributed (reg_fqn_to_periph h) (reg_fqn_to_regname h)
         (pn ++ "_" ++ rn) = Some (pn, rn)
    /\ Peripheral.name per = pn /\ Register.name reg = rn
    /\ (Peripheral.base_address per + Register.address_offset reg
        = RegAddrDesc.addr ad)%Z
    /\ (0 <= Peripheral.base_address per)%Z
    /\ (0 <= Register.address_offset reg)%Z.
Proof.
  intros P T Ip Ir. unfold parse_header_to_device_tree in T. rewrite P in T.
  cbn [bind] in T. unfold group_registers_by_peripheral in T.
  rewrite GroupFacts.group_fold_split in T. injection T as <- <-.
  pose proof (NameFacts.parse_names lines h P) as C.
  pose proof (PipelineFacts.parse_registers_nodup lines h P) as N.
  pose proof (RecordFacts.parse_addresses lines h P) as Pos.
  set (fp := reg_fqn_to_periph h) in *. set (fr := reg_fqn_to_regname h) in *.
  cbn [build_device_tree Device.peripherals] in Ip.
  apply BuildFacts.in_peripherals in Ip as [[]|[regs [Ig M]]].
  unfold make_peripheral in M. destruct regs as [|r0 rs]; [discriminate|].
  injection M as <-. cbn [Peripheral.registers] in Ir.
  apply BuildFacts.in_add_registers in Ir as (x & Ix & -> & ->).
  assert (Src : forall y, In y (r0 :: rs) ->
                  exists k ad r,
                    In (k, ad) (registers_info h)
                    /\ attributed fp fr k = Some (pn, r)
                    /\ y = register_info r k ad).
  { intros y Iy.
    destruct (GroupFacts.group_sound fp fr _ _ _ _ _ Ig Iy)
      as [[regs0 [[] _]]|H]; exact H. }
  destruct (Src x Ix) as (k & ad & r & Ik & A & ->).
  destruct (NameFacts.attributed_joined fp fr k pn r C A) as (-> & _ & _).
  destruct (BuildFacts.min_addr_least r0 rs) as [Least (y & Iy & Ey)].
  destruct (Src y Iy) as (ky & ady & ry & Iky & _ & ->).
  pose proof (Least _ Ix) as Lx. pose proof (Pos _ _ Iky) as Py.
  cbn [register_info RegisterInfo.addr RegisterInfo.reg_name] in *.
  exists ad. split; [now apply StoreFacts.get_unique|].
  split; [exact A|]. cbn. repeat split; lia.
Qed.

(** X18 at the header of the end-to-end example in the format of the
    patterns. *)
Lemma every_register_defined_witness :
  exists ad,
    Dict.get ("UART" ++ "_" ++ "CTRL")
      [("UART_CTRL", RegAddrDesc.mk 4096 "Control register")] = Some ad
    /\ attributed [("UART_CTRL", "UART")] [("UART_CTRL", "CTRL")]
         ("UART" ++ "_" ++ "CTRL") = Some ("UART", "CTRL")
    /\ "UART" = "UART" /\ "CTRL" = "CTRL"
    /\ (4096 + 0 = RegAddrDesc.addr ad)%Z
    /\ (0 <= 4096)%Z
    /\ (0 <= 0)%Z.
Proof.
  apply (every_register_defined uart_header_in_format "D" ""
           (mkParsedHeader
              [("UART_CTRL", RegAddrDesc.mk 4096 "Control register")]
              [("UART_CTRL_ENABLE", Props.mk (Some 0%Z) (Some 1%Z))]
              [("UART_CTRL_ENABLE", "Enable bit")]
              [("UART_CTRL", "UART")] [("UART_CTRL", "CTRL")])
           (uart_tree "D" "") [] "UART" "CTRL"
           (Peripheral.mk "UART" 4096 "UART Peripheral"
              [ ("CTRL",
                 Register.mk "CTRL" "Control register" 0 32
                   [ Field.mk "ENABLE" "Enable bit" 0 1 ]) ])
           (Register.mk "CTRL" "Control register" 0 32
              [ Field.mk "ENABLE" "Enable bit" 0 1 ])).
  - vm_compute. reflexivity.
  - vm_compute. reflexivity.
  - left. reflexivity.
  - left. reflexivity.
Defined.

(** ** The names of the fields of a register *)

Module FieldNameFacts.
Import Dict DictFacts.

(** The prefixes of [fields_info] are all different. *)
Lemma run_lines_fields_nodup (lines : list string) :
  forall st st',
    run_lines st lines = Ok st' ->
    NoDup (keys (fields_info (parsed st))) ->
    NoDup (keys (fields_info (parsed st'))).
Proof.
  induction lines as [|l lines IH]; intros st st' H N; simpl in H.
  - now injection H as <-.
  - destruct (step st l) as [st1|] eqn:S; [|discriminate]. cbn [bind] in H.
    apply (IH st1 st' H). rewrite (FieldFacts.step_fields_info st st1 l S).
    destruct (field_definition l) as [[[prefix prop] value]|]; [|exact N].
    now apply GroupShape.keys_upd_nodup.
Qed.

Lemma parse_fields_nodup (lines : list string) (h : ParsedHeader) :
  parse_header_lines lines = Ok h -> NoDup (keys (fields_info h)).
Proof.
  unfold parse_header_lines.
  destruct (run_lines initial_state lines) as [st|] eqn:R; [|discriminate].
  cbn [bind]. intros H. injection H as <-.
  apply (run_lines_fields_nodup lines initial_state st R). constructor.
Qed.

Section Tables.
Variables (fqns : list string) (field_descriptions : Dict.t string)
          (reg_define : string).

(** The define of the register and the name of a field give back the
    prefix of the entry the field comes from. *)
Lemma field_prefix_of (field_prefix : string) (props : Props.t)
    (f : Field.t) :
  In f (field_of fqns field_descriptions reg_define (field_prefix, props)) ->
  field_prefix = reg_define ++ "_" ++ Field.name f.
Proof.
  intros I. apply BuildFacts.in_field_of in I as (O & _ & _ & -> & _).
  destruct (OwnerShape.owns_candidate _ _ _ O) as [S _].
  apply StrFacts.startswith_iff in S as [t ->].
  rewrite StrFacts.append_assoc, FallbackFacts.drop_app_plus. reflexivity.
Qed.

Lemma field_of_at_most_one (entry : string * Props.t) :
  field_of fqns field_descriptions reg_define entry = []
  \/ exists f, field_of fqns field_descriptions reg_define entry = [f].
Proof.
  destruct entry as [field_prefix props]. unfold field_of.
  destruct (owns fqns reg_define field_prefix); [|now left].
  destruct (Props.bitOffset props); [|now left].
  destruct (Props.bitWidth props); [|now left].
  right. now eexists.
Qed.

(** Entries with different prefixes give fields with different names. *)
Lemma register_fields_names (fields_info : Dict.t Props.t) :
  NoDup (keys fields_info) ->
  NoDup (map Field.name
           (register_fields fqns fields_info field_descriptions reg_define)).
Proof.
  unfold register_fields.
  induction fields_info as [|[field_prefix props] l IH]; intros N;
    [constructor|].
  inversion N as [|? ? N1 N2]; subst. specialize (IH N2).
  cbn [flat_map]. rewrite map_app.
  destruct (field_of_at_most_one (field_prefix, props)) as [->|[f E]];
    [exact IH|].
  rewrite E. simpl. constructor; [|exact IH]. intros I.
  apply in_map_iff in I as [f' [En I]].
  apply in_flat_map in I as [[field_prefix' props'] [I' If']].
  assert (If : In f (field_of fqns field_descriptions reg_define
                       (field_prefix, props))) by (rewrite E; now left).
  apply field_prefix_of in If. apply field_prefix_of in If'.
  apply N1. apply in_map_iff. exists (field_prefix', props').
  split; [|exact I']. simpl. now rewrite If, If', En.
Qed.

End Tables.

End FieldNameFacts.

(** X19.  In the tree of a header, no register has two fields with the same
    name: the fields of a register come from entries of [fields_info] with
    different prefixes, and the define of the register and the name of a
    field make up the prefix again. *)
Theorem field_names_unique (lines : list string)
    (device_name device_description : string) (dev : Device.t)
    (err : list string) (pn rn : string) (per : Peripheral.t)
    (reg : Register.t) :
  parse_header_to_device_tree lines device_name device_description
  = Ok (dev, err) ->
  In (pn, per) (Device.peripherals dev) ->
  In (rn, reg) (Peripheral.registers per) ->
  NoDup (map Field.name (Register.fields reg)).
Proof.
  intros T Ip Ir. unfold parse_header_to_device_tree in T.
  destruct (parse_header_lines lines) as [h|] eqn:P; [|discriminate].
  cbn [bind] in T.
  destruct (group_registers_by_peripheral (registers_info h)
              (reg_fqn_to_periph h) (reg_fqn_to_regname h))
    as [groups e].
  injection T as <- <-.
  cbn [build_device_tree Device.peripherals] in Ip.
  apply BuildFacts.in_peripherals in Ip as [[]|[regs [_ M]]].
  unfold make_peripheral in M. destruct regs as [|r0 rs]; [discriminate|].
  injection M as <-. cbn [Peripheral.registers] in Ir.
  apply BuildFacts.in_add_registers in Ir as (x & _ & _ & ->).
  cbn [make_register Register.fields].
  apply FieldNameFacts.register_fields_names.
  now apply (FieldNameFacts.parse_fields_nodup lines).
Qed.

(** X19 at the header of the end-to-end example in the format of the
    patterns. *)
Lemma field_names_unique_witness :
  NoDup (map Field.name [ Field.mk "ENABLE" "Enable bit" 0 1 ]).
Proof.
  apply (field_names_unique uart_header_in_format "D" "" (uart_tree "D" "")
           [] "UART" "CTRL"
           (Peripheral.mk "UART" 4096 "UART Peripheral"
              [ ("CTRL",
                 Register.mk "CTRL" "Control register" 0 32
                   [ Field.mk "ENABLE" "Enable bit" 0 1 ]) ])
           (Register.mk "CTRL" "Control register" 0 32
              [ Field.mk "ENABLE" "Enable bit" 0 1 ])).
  - vm_compute. reflexivity.
  - left. reflexivity.
  - left. reflexivity.
Defined.

(** * Specificity and unattributable registers, in the tree *)

Module TreeFacts.
Import Dict DictFacts.

Lemma append_same_head (p s t : string) : p ++ s = p ++ t -> s = t.
Proof.
  induction p as [|a p IH]; simpl; intros H; [exact H|].
  injection H as H. now apply IH.
Qed.

Section Tree.
Variables (ri : Dict.t RegAddrDesc.t) (fp fr : Dict.t string)
          (device_name device_description : string)
          (fields_info : Dict.t Props.t) (field_descriptions : Dict.t string).

Hypothesis consistent : names_consistent fp fr.

(** Every register stored in the tree was made for the define that its
    two names spell, and has the fields of that define. *)
Lemma stored_register_source (pn rn : string) (per : Peripheral.t)
    (reg : Register.t) :
  In (pn, per)
     (Device.peripherals
        (build_device_tree device_name device_description
           (fold_left (groups_step fp fr) ri []) fields_info
           field_descriptions)) ->
  In (rn, reg) (Peripheral.registers per) ->
  exists ad,
    In (pn ++ "_" ++ rn, ad) ri
    /\ attributed fp fr (pn ++ "_" ++ rn) = Some (pn, rn)
    /\ Register.fields reg
       = register_fields
           (all_reg_fqns (fold_left (groups_step fp fr) ri []))
           fields_info field_descriptions (pn ++ "_" ++ rn).
Proof.
  intros Ip Ir. cbn [build_device_tree Device.peripherals] in Ip.
  apply BuildFacts.in_peripherals in Ip as [[]|[regs [Ig M]]].
  unfold make_peripheral in M. destruct regs as [|r0 rs]; [discriminate|].
  injection M as <-. cbn [Peripheral.registers] in Ir.
  apply BuildFacts.in_add_registers in Ir as (x & Ix & -> & ->).
  destruct (GroupFacts.group_sound fp fr _ _ _ _ _ Ig Ix)
    as [[regs0 [[] _]]|(k & ad & r & Ik & A & ->)].
  destruct (NameFacts.attributed_joined fp fr k pn r consistent A)
    as (-> & _ & _).
  exists ad. cbn. now repeat split.
Qed.

(** A field of the tree comes from an entry of [fields_info] that the
    define of its register owns. *)
Lemma has_field_source (pn rn n : string) :
  has_field
    (build_device_tree device_name device_description
       (fold_left (groups_step fp fr) ri []) fields_info field_descriptions)
    pn rn n ->
  exists ad props,
    In (pn ++ "_" ++ rn, ad) ri
    /\ attributed fp fr (pn ++ "_" ++ rn) = Some (pn, rn)
    /\ In ((pn ++ "_" ++ rn) ++ "_" ++ n, props) fields_info
    /\ owns (all_reg_fqns (fold_left (groups_step fp fr) ri []))
         (pn ++ "_" ++ rn) ((pn ++ "_" ++ rn) ++ "_" ++ n) = true.
Proof.
  intros (per & reg & f & Gp & Gr & If & <-).
  apply get_In in Gp. apply get_In in Gr.
  destruct (stored_register_source pn rn per reg Gp Gr) as (ad & I & A & E).
  rewrite E in If. unfold register_fields in If.
  apply in_flat_map in If as [[prefix props] [Ie If]].
  pose proof (FieldNameFacts.field_prefix_of _ _ _ _ _ _ If) as Ep.
  apply BuildFacts.in_field_of in If as (O & _).
  subst prefix. now exists ad, props.
Qed.

(** The register of an attributed define has the field of every entry
    with both properties that the define owns. *)
Lemma owned_field_stored (k p r prefix : string) (ad : RegAddrDesc.t)
    (o w : Z) :
  NoDup (keys ri) ->
  In (k, ad) ri -> attributed fp fr k = Some (p, r) ->
  In (prefix, Props.mk (Some o) (Some w)) fields_info ->
  owns (all_reg_fqns (fold_left (groups_step fp fr) ri [])) k prefix = true ->
  exists per reg,
    get p
      (Device.peripherals
         (build_device_tree device_name device_description
            (fold_left (groups_step fp fr) ri []) fields_info
            field_descriptions)) = Some per
    /\ get r (Peripheral.registers per) = Some reg
    /\ In (Field.mk (Str.drop (String.length k + 1) prefix)
             (match get prefix field_descriptions with
              | Some d => d
              | None => Str.drop (String.length k + 1) prefix
              end) o w)
          (Register.fields reg).
Proof.
  intros N I A Ie O.
  destruct (PipelineFacts.register_stored ri fp fr device_name
              device_description fields_info field_descriptions k p r ad
              consistent N I A) as (base & regs & Gp & Gr).
  eexists. eexists. split; [exact Gp|]. split; [exact Gr|].
  cbn [make_register Register.fields register_info RegisterInfo.reg_define].
  unfold register_fields. apply in_flat_map.
  exists (prefix, Props.mk (Some o) (Some w)). split; [exact Ie|].
  unfold field_of. rewrite O. cbn [Props.bitOffset Props.bitWidth].
  now left.
Qed.

End Tree.

End TreeFacts.

(** C5, as stated, fails.  In the header [nested_header] the defines [P_A]
    and [P_A_EXT] are both registers of the peripheral [P], and the prefix
    [P_A_EXT_Y_Z], which has the form [A_EXT_X] for these two defines with
    [X = Y_Z], has both properties; yet the register of [P_A_EXT] gets no
    field [Y_Z]: the define [P_A_EXT_Y] is known too, and the field [Z] is in
    its register. *)
Lemma specificity_resolution_counterexample :
  exists h dev err,
    parse_header_lines nested_header = Ok h
    /\ parse_header_to_device_tree nested_header "D" "" = Ok (dev, err)
    /\ In "P_A" (Dict.keys (registers_info h))
    /\ attributed (reg_fqn_to_periph h) (reg_fqn_to_regname h) "P_A"
       = Some ("P", "A")
    /\ In ("P_A" ++ "_" ++ "EXT") (Dict.keys (registers_info h))
    /\ attributed (reg_fqn_to_periph h) (reg_fqn_to_regname h)
         ("P_A" ++ "_" ++ "EXT") = Some ("P", "A_EXT")
    /\ Dict.get (("P_A" ++ "_" ++ "EXT") ++ "_" ++ "Y_Z") (fields_info h)
       = Some (Props.mk (Some 0%Z) (Some 1%Z))
    /\ ~ has_field dev "P" "A_EXT" "Y_Z"
    /\ has_field dev "P" "A_EXT_Y" "Z".
Proof.
  eexists. eexists. eexists.
  split; [vm_compute; reflexivity|]. split; [vm_compute; reflexivity|].
  split; [left; reflexivity|]. split; [reflexivity|].
  split; [right; left; reflexivity|]. split; [reflexivity|].
  split; [reflexivity|]. split.
  - intros (per & reg & f & Gp & Gr & If & _).
    vm_compute in Gp. injection Gp as <-.
    vm_compute in Gr. injection Gr as <-. destruct If.
  - eexists. eexists. eexists.
    split; [vm_compute; reflexivity|]. split; [vm_compute; reflexivity|].
    split; [left; reflexivity | reflexivity].
Qed.

(** C5, amended.  In the tree of a header in which the defines [A] and
    [A_EXT] are both registers attributed to peripherals, the prefix
    [A_EXT_X] gives no field to the register of [A].  When moreover no
    attributed register has a define [A_EXT_Y] that is still more specific
    for the prefix ([Y_] a prefix of [X]), the entry of [fields_info] for the
    prefix, with both properties, gives the field [X] to the register of
    [A_EXT], with the values of the entry and the description recorded for
    the prefix or else its name, and the register of [A_EXT] is the only
    register of the tree that has a field whose full name is the prefix. *)
Theorem specificity_resolution (lines : list string)
    (device_name device_description : string) (h : ParsedHeader)
    (dev : Device.t) (err : list string) (A EXT X pa ra pe re : string)
    (o w : Z) :
  parse_header_lines lines = Ok h ->
  parse_header_to_device_tree lines device_name device_description
  = Ok (dev, err) ->
  In A (Dict.keys (registers_info h)) ->
  attributed (reg_fqn_to_periph h) (reg_fqn_to_regname h) A
  = Some (pa, ra) ->
  In (A ++ "_" ++ EXT) (Dict.keys (registers_info h)) ->
  attributed (reg_fqn_to_periph h) (reg_fqn_to_regname h) (A ++ "_" ++ EXT)
  = Some (pe, re) ->
  Dict.get ((A ++ "_" ++ EXT) ++ "_" ++ X) (fields_info h)
  = Some (Props.mk (Some o) (Some w)) ->
  ~ has_field dev pa ra (EXT ++ "_" ++ X)
  /\ ((forall Y,
          In ((A ++ "_" ++ EXT) ++ "_" ++ Y) (Dict.keys (registers_info h)) ->
          attributed (reg_fqn_to_periph h) (reg_fqn_to_regname h)
            ((A ++ "_" ++ EXT) ++ "_" ++ Y) <> None ->
          Str.startswith X (Y ++ "_") = false) ->
      (exists per reg,
          Dict.get pe (Device.peripherals dev) = Some per
          /\ Dict.get re (Peripheral.registers per) = Some reg
          /\ In (Field.mk X
                   (match Dict.get ((A ++ "_" ++ EXT) ++ "_" ++ X)
                            (field_descriptions h) with
                    | Some d => d
                    | None => X
                    end) o w)
                (Register.fields reg))
      /\ (forall pn rn n,
            has_field dev pn rn n ->
            (pn ++ "_" ++ rn) ++ "_" ++ n = (A ++ "_" ++ EXT) ++ "_" ++ X ->
            pn = pe /\ rn = re /\ n = X)).
Proof.
  intros P T IA AA IE AE Gf. unfold parse_header_to_device_tree in T.
  rewrite P in T. cbn [bind] in T. unfold group_registers_by_peripheral in T.
  rewrite GroupFacts.group_fold_split in T. injection T as <- <-.
  pose proof (NameFacts.parse_names lines h P) as C.
  pose proof (PipelineFacts.parse_registers_nodup lines h P) as N.
  apply DictFacts.get_In in Gf.
  set (fp := reg_fqn_to_periph h) in *. set (fr := reg_fqn_to_regname h) in *.
  set (fqns := all_reg_fqns
                 (fold_left (groups_step fp fr) (registers_info h) [])).
  apply in_map_iff in IE as [[k ade] [Ek IE]]. cbn [fst] in Ek. subst k.
  assert (IEf : In (A ++ "_" ++ EXT) fqns).
  { apply PipelineFacts.in_all_reg_fqns. now exists ade, pe, re. }
  split.
  - intros H.
    apply (TreeFacts.has_field_source _ _ _ _ _ _ _ C) in H
      as (ad & props & _ & _ & _ & O).
    destruct (NameFacts.attributed_joined fp fr A pa ra C AA) as (E & _ & _).
    rewrite <- E in O. fold fqns in O.
    assert (O' : owns fqns A ((A ++ "_" ++ EXT) ++ "_" ++ X) = true)
      by (rewrite StrFacts.append_assoc; exact O).
    rewrite (OwnerFacts.shorter_never_owns fqns A EXT X IEf) in O'.
    discriminate O'.
  - intros MS.
    assert (MS' : forall Y,
               In ((A ++ "_" ++ EXT) ++ "_" ++ Y) fqns ->
               Str.startswith X (Y ++ "_") = false).
    { intros Y I. apply PipelineFacts.in_all_reg_fqns in I
        as (ad & p & r & I & AY).
      apply MS; [|congruence]. apply in_map_iff.
      now exists ((A ++ "_" ++ EXT) ++ "_" ++ Y, ad). }
    split.
    + destruct (TreeFacts.owned_field_stored (registers_info h) fp fr
                  device_name device_description (fields_info h)
                  (field_descriptions h) C (A ++ "_" ++ EXT) pe re
                  ((A ++ "_" ++ EXT) ++ "_" ++ X) ade o w N IE AE Gf
                  (OwnerFacts.owner_owns fqns (A ++ "_" ++ EXT) X MS'))
        as (per & reg & Gp & Gr & If).
      rewrite FallbackFacts.drop_app_plus in If. simpl Str.drop in If.
      now exists per, reg.
    + intros pn rn n H E.
      apply (TreeFacts.has_field_source _ _ _ _ _ _ _ C) in H
        as (ad & props & I & A1 & _ & O).
      fold fqns in O. rewrite E in O.
      assert (Im : In (pn ++ "_" ++ rn) fqns).
      { apply PipelineFacts.in_all_reg_fqns. now exists ad, pn, rn. }
      pose proof (OwnerFacts.owner_unique fqns (A ++ "_" ++ EXT) X MS'
                    (pn ++ "_" ++ rn) IEf Im O) as Em.
      rewrite Em in A1, E. rewrite AE in A1. injection A1 as <- <-.
      apply TreeFacts.append_same_head in E. simpl in E.
      injection E as ->. now repeat split.
Qed.

(** The amended C5 at the header of [P_A] and [P_A_EXT] and the prefix
    [P_A_EXT_X]: no define is more specific than [P_A_EXT]. *)
Lemma specificity_resolution_witness :
  ~ has_field extension_tree "P" "A" ("EXT" ++ "_" ++ "X")
  /\ (exists per reg,
         Dict.get "P" (Device.peripherals extension_tree) = Some per
         /\ Dict.get "A_EXT" (Peripheral.registers per) = Some reg
         /\ In (Field.mk "X"
                  (match Dict.get (("P_A" ++ "_" ++ "EXT") ++ "_" ++ "X")
                           (field_descriptions extension_parsed) with
                   | Some d => d
                   | None => "X"
                   end) 0 1)
               (Register.fields reg))
  /\ (forall pn rn n,
        has_field extension_tree pn rn n ->
        (pn ++ "_" ++ rn) ++ "_" ++ n = ("P_A" ++ "_" ++ "EXT") ++ "_" ++ "X" ->
        pn = "P" /\ rn = "A_EXT" /\ n = "X").
Proof.
  destruct (specificity_resolution extension_header "D" "" extension_parsed
              extension_tree [] "P_A" "EXT" "X" "P" "A" "P" "A_EXT" 0%Z 1%Z)
    as [H1 H2].
  - vm_compute. reflexivity.
  - vm_compute. reflexivity.
  - left. reflexivity.
  - reflexivity.
  - right. left. reflexivity.
  - reflexivity.
  - reflexivity.
  - split; [exact H1|]. apply H2.
    intros Y [E|[E|[]]] _; discriminate E.
Defined.

(** C8.  When the parse of a header returns and a register define has no
    direct association and starts with no recorded name, the conversion
    returns all the same, with a tree and the lines printed to [sys.stderr]:
    the warning for the register is among the lines; no register of the tree
    is stored under names that spell the define, and the tree is the one built
    from the table without the register; and every define of
    [registers_info] that is attributed to a peripheral, and so every other
    register but those that are warned about themselves, is in the tree, in
    that peripheral and under its name, at the offset of its address from the
    base address of the peripheral, with its description or, when that is
    empty, its name. *)
Theorem unattributable_register_dropped (lines : list string)
    (device_name device_description : string) (h : ParsedHeader)
    (reg_define : string) :
  parse_header_lines lines = Ok h ->
  In reg_define (Dict.keys (registers_info h)) ->
  Dict.get reg_define (reg_fqn_to_periph h) = None ->
  (forall r_fqn, In r_fqn (Dict.keys (reg_fqn_to_periph h)) ->
                 Str.startswith reg_define r_fqn = false) ->
  exists dev err,
    parse_header_to_device_tree lines device_name device_description
    = Ok (dev, err)
    /\ In (warning reg_define) err
    /\ (forall pn per rn reg,
          In (pn, per) (Device.peripherals dev) ->
          In (rn, reg) (Peripheral.registers per) ->
          pn ++ "_" ++ rn <> reg_define)
    /\ dev
       = build_device_tree device_name device_description
           (fst (group_registers_by_peripheral
                   (Dict.remove reg_define (registers_info h))
                   (reg_fqn_to_periph h) (reg_fqn_to_regname h)))
           (fields_info h) (field_descriptions h)
    /\ (forall other ad,
          Dict.get other (registers_info h) = Some ad ->
          (attributed (reg_fqn_to_periph h) (reg_fqn_to_regname h) other
           = None
           /\ In (warning other) err)
          \/ exists p r per reg,
               attributed (reg_fqn_to_periph h) (reg_fqn_to_regname h) other
               = Some (p, r)
               /\ other = p ++ "_" ++ r
               /\ Dict.get p (Device.peripherals dev) = Some per
               /\ Dict.get r (Peripheral.registers per) = Some reg
               /\ Register.name reg = r
               /\ (Peripheral.base_address per + Register.address_offset reg
                   = RegAddrDesc.addr ad)%Z
               /\ Register.description reg
                  = (if Str.truthy (RegAddrDesc.desc ad)
                     then RegAddrDesc.desc ad else r)).
Proof.
  intros P I G S.
  pose proof (GroupFacts.not_attributed _ (reg_fqn_to_regname h) reg_define
                G S) as A.
  pose proof (NameFacts.parse_names lines h P) as C.
  pose proof (PipelineFacts.parse_registers_nodup lines h P) as N.
  unfold parse_header_to_device_tree. rewrite P. cbn [bind].
  unfold group_registers_by_peripheral.
  rewrite !GroupFacts.group_fold_split. cbn [fst app].
  set (fp := reg_fqn_to_periph h) in *. set (fr := reg_fqn_to_regname h) in *.
  eexists. eexists. split; [reflexivity|]. split; [|split; [|split]].
  - now apply GroupFacts.printed_warning.
  - intros pn per rn reg Ip Ir E.
    destruct (TreeFacts.stored_register_source _ _ _ _ _ _ _ C pn rn per reg
                Ip Ir) as (ad & _ & Ak & _).
    rewrite E in Ak. congruence.
  - now rewrite (GroupFacts.groups_without fp fr reg_define
                   (registers_info h) A).
  - intros other ad Go. apply DictFacts.get_In in Go.
    destruct (attributed fp fr other) as [[p r]|] eqn:Ao.
    + right.
      destruct (NameFacts.attributed_joined fp fr other p r C Ao)
        as (E & _ & _).
      destruct (PipelineFacts.register_stored (registers_info h) fp fr
                  device_name device_description (fields_info h)
                  (field_descriptions h) other p r ad C N Go Ao)
        as (base & regs & Gp & Gr).
      exists p, r, (Peripheral.mk p base (p ++ " Peripheral") regs).
      eexists. split; [reflexivity|]. split; [exact E|].
      split; [exact Gp|]. split; [exact Gr|].
      cbn. repeat split. lia.
    + left. split; [reflexivity|].
      apply GroupFacts.printed_warning; [|exact Ao].
      apply in_map_iff. now exists (other, ad).
Qed.

(** C8 at the header of the register [P_R] and the define [XYZ]: the
    warning for [XYZ] is printed, the tree has the register [R] of [P] and
    nothing for [XYZ]. *)
Lemma unattributable_register_dropped_witness :
  parse_header_to_device_tree stray_header "D" ""
  = Ok (stray_tree, [warning "XYZ"])
  /\ exists dev err,
    parse_header_to_device_tree stray_header "D" "" = Ok (dev, err)
    /\ In (warning "XYZ") err
    /\ (forall pn per rn reg,
          In (pn, per) (Device.peripherals dev) ->
          In (rn, reg) (Peripheral.registers per) ->
          pn ++ "_" ++ rn <> "XYZ")
    /\ dev
       = build_device_tree "D" ""
           (fst (group_registers_by_peripheral
                   (Dict.remove "XYZ" (registers_info stray_parsed))
                   (reg_fqn_to_periph stray_parsed)
                   (reg_fqn_to_regname stray_parsed)))
           (fields_info stray_parsed) (field_descriptions stray_parsed)
    /\ (forall other ad,
          Dict.get other (registers_info stray_parsed) = Some ad ->
          (attributed (reg_fqn_to_periph stray_parsed)
             (reg_fqn_to_regname stray_parsed) other = None
           /\ In (warning other) err)
          \/ exists p r per reg,
               attributed (reg_fqn_to_periph stray_parsed)
                 (reg_fqn_to_regname stray_parsed) other = Some (p, r)
               /\ other = p ++ "_" ++ r
               /\ Dict.get p (Device.peripherals dev) = Some per
               /\ Dict.get r (Peripheral.registers per) = Some reg
               /\ Register.name reg = r
               /\ (Peripheral.base_address per + Register.address_offset reg
                   = RegAddrDesc.addr ad)%Z
               /\ Register.description reg
                  = (if Str.truthy (RegAddrDesc.desc ad)
                     then RegAddrDesc.desc ad else r)).
Proof.
  split; [vm_compute; reflexivity|].
  apply (unattributable_register_dropped stray_header "D" "" stray_parsed
           "XYZ").
  - vm_compute. reflexivity.
  - right. left. reflexivity.
  - reflexivity.
  - intros r_fqn [<-|[]]. reflexivity.
Defined.
